(** * OblivionFilter: the traffic filtering pipeline of the Python proxy

    A shallow embedding of [src/native/proxy/python-proxy/main.py]:
    the rule model and the indexed matcher with its decision cache
    ([FilterEngine]), the request header rewriting of the mitmproxy addon
    ([OblivionFilterAddon._add_stealth_headers]) and the HTML rewriter
    ([ContentProcessor.process_html]); then the security headers of
    responses, the network monitor ([NetworkMonitor]), the request hook of
    the addon and the block rate of [OblivionProxy.get_stats].

    Conventions.
    - A Python [str] that carries a URL, a pattern, a method or a domain
      name is a [string]: the characters of an ASCII text, and for any
      other text the bytes of its UTF-8 encoding. Equality, concatenation,
      containment and the test for an ASCII character are the same on a
      text and on its encoding. [str.lower] and [str.upper] are not: they
      are functions of the library interface ([str_lower], [str_upper]).
    - A header name or value is the [bytes] that mitmproxy keeps: names are
      compared after [bytes.lower], which folds the ASCII letters.
    - The rules of a [ContentProcessor] are texts of characters below
      U+0100, one character of a [string] each.
    - A [dict] is a [gmap], a [set] a [gset]; an [Optional] is an [option].
    - [time.time()] is an integer clock reading in seconds; every function
      that reads the clock takes one argument per reading.
    - The modules [re] and [urllib.parse] and the methods [str.lower] and
      [str.upper] are outside the repository: the engine is developed over
      an interface ([PyLib]) and every general theorem holds for all its
      implementations. The same holds for the responses of
      [mitmproxy.http] ([HttpLib]).
    - A quotient of two numbers is a rational; [py_div] is the division
      that has no value where Python raises [ZeroDivisionError]. *)

From Stdlib Require Import ZArith QArith Ascii String Strings.Byte List Bool Lia.
From stdpp Require Import gmap strings list fin_maps.
Import ListNotations.
Open Scope string_scope.
Open Scope Z_scope.

(** ** Strings as Python uses them *)

Module Str.

Definition is_upper (c : ascii) : bool :=
  let n := nat_of_ascii c in (Nat.leb 65 n && Nat.leb n 90)%bool.

Definition is_lower (c : ascii) : bool :=
  let n := nat_of_ascii c in (Nat.leb 97 n && Nat.leb n 122)%bool.

Definition lower_char (c : ascii) : ascii :=
  if is_upper c then ascii_of_nat (nat_of_ascii c + 32) else c.

Definition upper_char (c : ascii) : ascii :=
  if is_lower c then ascii_of_nat (nat_of_ascii c - 32) else c.

(** [s.lower()] *)
Fixpoint lower (s : string) : string :=
  match s with
  | EmptyString => EmptyString
  | String c r => String (lower_char c) (lower r)
  end.

(** [s.upper()] *)
Fixpoint upper (s : string) : string :=
  match s with
  | EmptyString => EmptyString
  | String c r => String (upper_char c) (upper r)
  end.

(** some character of [s] is an upper-case letter *)
Fixpoint has_upper (s : string) : bool :=
  match s with
  | EmptyString => false
  | String c r => (is_upper c || has_upper r)%bool
  end.

(** [c in s] for a single character [c] *)
Fixpoint mem_char (c : ascii) (s : string) : bool :=
  match s with
  | EmptyString => false
  | String d r => (Ascii.eqb c d || mem_char c r)%bool
  end.

(** [p in s]: [p] occurs in [s] as a contiguous substring *)
Fixpoint contains (p s : string) : bool :=
  match s with
  | EmptyString => String.prefix p EmptyString
  | String _ r => (String.prefix p s || contains p r)%bool
  end.

(** truth value of a string: [bool(s)] *)
Definition truthy (s : string) : bool :=
  match s with EmptyString => false | _ => true end.

(** truth value of an [Optional[str]] *)
Definition truthy_opt (o : option string) : bool :=
  match o with Some s => truthy s | None => false end.

End Str.

(** ** The library interface: [re] and [urllib.parse] *)

Inductive re_flag : Type := RE_NOFLAG | RE_IGNORECASE.

Module urllib.
(** The six components of [urllib.parse.ParseResult]. *)
Record ParseResult : Type := mkParseResult {
  scheme : string;
  netloc : string;
  path : string;
  params : string;
  query : string;
  fragment : string
}.
End urllib.

(** [re_compile p f] is [re.compile(p, f)], [None] when it raises;
    [re_compile_escapes p f] tells whether what it raises is something else
    than [re.error] ([OverflowError] for a repetition count beyond the
    limit, say); [re_search r s] is the truth value of [r.search(s)];
    [urlparse u] is [urllib.parse.urlparse(u)], [None] when it raises
    [ValueError]; [str_lower s] is [s.lower()] and [str_upper s] is
    [s.upper()]. *)
Class PyLib : Type := {
  Pattern : Type;
  re_compile : string -> re_flag -> option Pattern;
  re_compile_escapes : string -> re_flag -> bool;
  re_search : Pattern -> string -> bool;
  urlparse : string -> option urllib.ParseResult;
  str_lower : string -> string;
  str_upper : string -> string
}.

(** ** Filter rules *)

(** [@dataclass FilterRule] *)
Record FilterRule : Type := mkFilterRule {
  pattern : string;
  action : string;
  domain : option string;
  path : option string;
  method : option string;
  content_type : option string;
  headers : option (gmap string string);
  priority : Z;
  enabled : bool;
  description : string
}.

(** [FilterRule(pattern, action, description=...)], the other fields at
    their defaults. *)
Definition FilterRule_default (p a d : string) : FilterRule :=
  mkFilterRule p a None None None None None 0 true d.

(** The rule with its [headers] attribute set to [None]. *)
Definition without_headers (r : FilterRule) : FilterRule :=
  mkFilterRule (pattern r) (action r) (domain r) (path r) (method r)
    (content_type r) None (priority r) (enabled r) (description r).

(** The characters of ['.*+?^${}()|[]\\'] . *)
Definition regex_metachars : string :=
  ".*+?^${}()|[]" ++ String (ascii_of_nat 92) EmptyString.

(** [any(char in pattern for char in '.*+?^${}()|[]\\')] *)
Definition has_regex_meta (p : string) : bool :=
  existsb (fun c => Str.mem_char c p) (list_ascii_of_string regex_metachars).

(** truth value of an [Optional[Dict]]: present and not empty *)
Definition truthy_dict (o : option (gmap string string)) : bool :=
  match o with
  | Some d => negb (bool_decide (d = ∅))
  | None => false
  end.

Section Engine.

Context `{Lib : PyLib}.

(** [FilterEngine._match_rule] *)
Definition _match_rule (rule : FilterRule) (url method_ : string)
    (hs : option (gmap string string)) (ct : option string) : bool :=
  if negb (enabled rule) then false
  else if (Str.truthy_opt (method rule) &&
           negb (String.eqb (str_upper (default "" (method rule)))
                            (str_upper method_)))%bool then false
  else if (Str.truthy_opt (content_type rule) && Str.truthy_opt ct &&
           negb (Str.contains (default "" (content_type rule))
                              (default "" ct)))%bool then false
  else if (truthy_dict (headers rule) && truthy_dict hs)%bool then
    forallb (fun kv : string * string =>
               bool_decide (default ∅ hs !! kv.1 = Some kv.2))
            (map_to_list (default ∅ (headers rule)))
  else true.

(** The attributes of a [FilterEngine] object. *)
Record FilterEngine : Type := mkFilterEngine {
  rules : list FilterRule;
  domain_rules : gmap string (list FilterRule);
  path_rules : gmap string (list FilterRule);
  regex_rules : list (Pattern * FilterRule);
  whitelist_domains : gset string;
  blacklist_domains : gset string;
  cache : gmap string bool;
  cache_ttl : Z;
  cache_expiry : gmap string Z
}.

(** The attribute values set at the start of [__init__]. *)
Definition FilterEngine_new : FilterEngine :=
  mkFilterEngine [] ∅ ∅ [] ∅ ∅ ∅ 300 ∅.

(** [d[k].append(r)], after [if k not in d: d[k] = []] *)
Definition index_append (k : string) (r : FilterRule)
    (d : gmap string (list FilterRule)) : gmap string (list FilterRule) :=
  <[k := (default [] (d !! k) ++ [r])%list]> d.

(** [FilterEngine.add_rule]: the engine when the call is left, by its end
    or by an exception of [re.compile] that [except re.error] does not
    catch; the rule is appended and indexed before [re.compile] is
    called. *)
Definition add_rule (rule : FilterRule) (e : FilterEngine) : FilterEngine :=
  let rules' := (rules e ++ [rule])%list in
  let domain_rules' :=
    if Str.truthy_opt (domain rule)
    then index_append (default "" (domain rule)) rule (domain_rules e)
    else domain_rules e in
  let path_rules' :=
    if Str.truthy_opt (path rule)
    then index_append (default "" (path rule)) rule (path_rules e)
    else path_rules e in
  let regex_rules' :=
    if has_regex_meta (pattern rule) then
      match re_compile (pattern rule) RE_IGNORECASE with
      | Some regex => (regex_rules e ++ [(regex, rule)])%list
      | None => regex_rules e
      end
    else regex_rules e in
  mkFilterEngine rules' domain_rules' path_rules' regex_rules'
    (whitelist_domains e) (blacklist_domains e)
    (cache e) (cache_ttl e) (cache_expiry e).

(** An exception leaves [add_rule]: [re.compile] is called and raises
    something else than [re.error]. *)
Definition add_rule_raises (rule : FilterRule) : bool :=
  (has_regex_meta (pattern rule) &&
   re_compile_escapes (pattern rule) RE_IGNORECASE)%bool.

(** [for rule in rs: self.add_rule(rule)], for rules at which [add_rule]
    returns (as it does at each of the default rules). *)
Definition add_rules (rs : list FilterRule) (e : FilterEngine) : FilterEngine :=
  fold_left (fun acc r => add_rule r acc) rs e.

(** [FilterEngine._update_cache]; [now] is its clock reading. *)
Definition _update_cache (key : string) (result : bool) (now : Z)
    (e : FilterEngine) : FilterEngine :=
  mkFilterEngine (rules e) (domain_rules e) (path_rules e) (regex_rules e)
    (whitelist_domains e) (blacklist_domains e)
    (<[key := result]> (cache e)) (cache_ttl e)
    (<[key := now + cache_ttl e]> (cache_expiry e)).

(** [f"{method}:{url}"] *)
Definition cache_key (method_ url : string) : string :=
  method_ ++ ":" ++ url.

(** The cache test at the head of [should_block]: the verdict stored for
    [key], when there is one and the clock reading [now] is before its
    expiry ([self.cache_expiry.get(key, 0)]). *)
Definition cache_fresh (e : FilterEngine) (key : string) (now : Z) : option bool :=
  match cache e !! key with
  | Some v => if now <? default 0 (cache_expiry e !! key) then Some v else None
  | None => None
  end.

(** The rule at which a loop [for rule in rs: if _match_rule(rule, ...):
    return ...] returns. *)
Definition first_match (rs : list FilterRule) (url method_ : string)
    (hs : option (gmap string string)) (ct : option string) : option FilterRule :=
  List.find (fun r => _match_rule r url method_ hs ct) rs.

(** The rule at which the loop over [self.regex_rules] returns. *)
Definition first_regex_match (rs : list (Pattern * FilterRule)) (url method_ : string)
    (hs : option (gmap string string)) (ct : option string) : option FilterRule :=
  snd <$> List.find (fun '(regex, r) =>
                       (re_search regex url && _match_rule r url method_ hs ct)%bool) rs.

(** The test of the last loop that skips a rule with [continue]. *)
Definition indexed_elsewhere (r : FilterRule) : bool :=
  (Str.truthy_opt (domain r) || Str.truthy_opt (path r) ||
   has_regex_meta (pattern r))%bool.

(** The rule at which the loop over [self.rules] returns. *)
Definition first_literal_match (rs : list FilterRule) (url method_ : string)
    (hs : option (gmap string string)) (ct : option string) : option FilterRule :=
  List.find (fun r => (negb (indexed_elsewhere r) &&
                       Str.contains (pattern r) url &&
                       _match_rule r url method_ hs ct)%bool) rs.

(** [rule.action == "block"] *)
Definition is_block (r : FilterRule) : bool := String.eqb (action r) "block".

(** [FilterEngine.should_block]. [t_check] is the clock reading of the
    cache test, [t_store] the one of [_update_cache]. The result is [None]
    when [urlparse] raises; otherwise the returned pair and the engine
    after the call. *)
Definition should_block (e : FilterEngine) (url method_ : string)
    (hs : option (gmap string string)) (ct : option string)
    (t_check t_store : Z)
  : option ((bool * option FilterRule) * FilterEngine) :=
  match urlparse url with
  | None => None
  | Some parsed =>
    let domain_ := str_lower (urllib.netloc parsed) in
    let path_ := urllib.path parsed in
    let key := cache_key method_ url in
    (* [self._update_cache(cache_key, v); return v, r] *)
    let answer (v : bool) (r : option FilterRule) :=
      Some ((v, r), _update_cache key v t_store e) in
    match cache_fresh e key t_check with
    | Some v => Some ((v, None), e)
    | None =>
      if bool_decide (domain_ ∈ whitelist_domains e) then answer false None
      else if bool_decide (domain_ ∈ blacklist_domains e) then answer true None
      else
        match first_match (default [] (domain_rules e !! domain_)) url method_ hs ct with
        | Some rule => answer (is_block rule) (Some rule)
        | None =>
        match first_match (default [] (path_rules e !! path_)) url method_ hs ct with
        | Some rule => answer (is_block rule) (Some rule)
        | None =>
        match first_regex_match (regex_rules e) url method_ hs ct with
        | Some rule => answer (is_block rule) (Some rule)
        | None =>
        match first_literal_match (rules e) url method_ hs ct with
        | Some rule => answer (is_block rule) (Some rule)
        | None => answer false None
        end end end end
    end
  end.

(** The list bound to [default_rules] in [load_default_rules]. *)
Definition default_rules : list FilterRule :=
  [ FilterRule_default "doubleclick.net" "block" "Google DoubleClick";
    FilterRule_default "googlesyndication.com" "block" "Google AdSense";
    FilterRule_default "googletagmanager.com" "block" "Google Tag Manager";
    FilterRule_default "google-analytics.com" "block" "Google Analytics";
    FilterRule_default "googleadservices.com" "block" "Google Ad Services";
    FilterRule_default "adsystem.com" "block" "Amazon Ad System";
    FilterRule_default "amazon-adsystem.com" "block" "Amazon Ads";
    FilterRule_default "facebook.com/tr" "block" "Facebook Tracking";
    FilterRule_default "facebook.com/plugins" "block" "Facebook Plugins";
    FilterRule_default "twitter.com/i/adsct" "block" "Twitter Ads";
    FilterRule_default "ads.yahoo.com" "block" "Yahoo Ads";
    FilterRule_default "bing.com/maps/traffic" "block" "Bing Tracking";
    FilterRule_default "connect.facebook.net" "block" "Facebook Connect";
    FilterRule_default "platform.twitter.com" "block" "Twitter Platform";
    FilterRule_default "platform.linkedin.com" "block" "LinkedIn Platform";
    FilterRule_default "apis.google.com/js/plusone" "block" "Google+ Button";
    FilterRule_default "hotjar.com" "block" "Hotjar Analytics";
    FilterRule_default "mixpanel.com" "block" "Mixpanel Analytics";
    FilterRule_default "segment.com" "block" "Segment Analytics";
    FilterRule_default "amplitude.com" "block" "Amplitude Analytics";
    FilterRule_default "fullstory.com" "block" "FullStory Analytics";
    FilterRule_default "loggly.com" "block" "Loggly Logging";
    FilterRule_default "newrelic.com" "block" "New Relic Monitoring";
    FilterRule_default "cdn.ampproject.org" "block" "AMP Project CDN";
    FilterRule_default "pagead2.googlesyndication.com" "block" "Google PageAd";
    FilterRule_default "tpc.googlesyndication.com" "block" "Google TPC";
    FilterRule_default "stats.wp.com" "block" "WordPress Stats";
    FilterRule_default "scorecardresearch.com" "block" "Scorecard Research";
    FilterRule_default "quantserve.com" "block" "Quantcast";
    FilterRule_default "outbrain.com" "block" "Outbrain Content";
    FilterRule_default "taboola.com" "block" "Taboola Content";
    FilterRule_default ".*\.tk$" "block" "Suspicious .tk domains";
    FilterRule_default ".*\.ml$" "block" "Suspicious .ml domains";
    FilterRule_default ".*\.ga$" "block" "Suspicious .ga domains";
    FilterRule_default ".*\.cf$" "block" "Suspicious .cf domains" ].

(** [FilterEngine.load_default_rules] *)
Definition load_default_rules (e : FilterEngine) : FilterEngine :=
  add_rules default_rules e.

(** A configuration file after [json.load] or [yaml.safe_load]: the values
    at the keys [whitelist_domains], [blacklist_domains] and [rules] (an
    absent key is the empty list). An entry of [cfg_rules] is [None] when
    the [FilterRule] constructor raises on its [rule_data]. *)
Record Config : Type := mkConfig {
  cfg_whitelist_domains : list string;
  cfg_blacklist_domains : list string;
  cfg_rules : list (option FilterRule)
}.

(** The loop [for rule_data in config.get('rules', [])] of [load_config]:
    the engine when the loop stops, and whether it ran to its end. An
    entry is [None] when the [FilterRule] constructor refuses it; the loop
    is left there, and also at a rule at which [add_rule] raises, after
    that rule has been appended. *)
Fixpoint load_rule_data (rds : list (option FilterRule)) (e : FilterEngine)
  : FilterEngine * bool :=
  match rds with
  | [] => (e, true)
  | Some rule :: rest =>
    if add_rule_raises rule then (add_rule rule e, false)
    else load_rule_data rest (add_rule rule e)
  | None :: _ => (e, false)
  end.

(** [FilterEngine.load_config]; [cfg] is [None] when the file cannot be
    opened or parsed. An exception at any point falls back to the default
    rules and keeps what was assigned before it. *)
Definition load_config (cfg : option Config) (e : FilterEngine) : FilterEngine :=
  match cfg with
  | None => load_default_rules e
  | Some c =>
    let e1 :=
      mkFilterEngine (rules e) (domain_rules e) (path_rules e) (regex_rules e)
        (list_to_set (cfg_whitelist_domains c))
        (list_to_set (cfg_blacklist_domains c))
        (cache e) (cache_ttl e) (cache_expiry e) in
    let '(e2, completed) := load_rule_data (cfg_rules c) e1 in
    if completed then e2 else load_default_rules e2
  end.

(** [FilterEngine.__init__]; [config_path] is [None] for no path, else the
    outcome of reading the file at that path. *)
Definition FilterEngine_init (config_path : option (option Config)) : FilterEngine :=
  match config_path with
  | Some cfg => load_config cfg FilterEngine_new
  | None => load_default_rules FilterEngine_new
  end.

(** The pair that a call of [should_block] returns. *)
Definition returned (res : option ((bool * option FilterRule) * FilterEngine))
  : option (bool * option FilterRule) := fst <$> res.

(** The Boolean that a call of [should_block] returns. *)
Definition verdict_of (res : option ((bool * option FilterRule) * FilterEngine))
  : option bool := (fun x => x.1.1) <$> res.

(** *** The tiers a rule is matched in *)

(** [r] is in one of the lists of [self.domain_rules]. *)
Definition in_domain_index (e : FilterEngine) (r : FilterRule) : Prop :=
  exists k l, domain_rules e !! k = Some l /\ r ∈ l.

(** [r] is in one of the lists of [self.path_rules]. *)
Definition in_path_index (e : FilterEngine) (r : FilterRule) : Prop :=
  exists k l, path_rules e !! k = Some l /\ r ∈ l.

(** [r] is paired with a compiled pattern in [self.regex_rules]. *)
Definition in_regex_index (e : FilterEngine) (r : FilterRule) : Prop :=
  exists regex, (regex, r) ∈ regex_rules e.

(** [r] is tried by the last loop of [should_block], the one over
    [self.rules] that matches the pattern as a literal. *)
Definition in_literal_tier (e : FilterEngine) (r : FilterRule) : Prop :=
  r ∈ rules e /\ indexed_elsewhere r = false.

(** Every list of an index holds rules of [self.rules] only, filed under
    the attribute the index is about; the compiled patterns are those of
    [re.compile(rule.pattern, re.IGNORECASE)]. *)
Definition index_inv (e : FilterEngine) : Prop :=
  forall r,
    (in_domain_index e r <-> r ∈ rules e /\ Str.truthy_opt (domain r) = true) /\
    (in_path_index e r <-> r ∈ rules e /\ Str.truthy_opt (path r) = true) /\
    (forall regex, (regex, r) ∈ regex_rules e <->
       r ∈ rules e /\ has_regex_meta (pattern r) = true /\
       re_compile (pattern r) RE_IGNORECASE = Some regex).

(** *** Engine states *)

(** The engines that the methods of the class produce. *)
Inductive reachable : FilterEngine -> Prop :=
| reach_init cfg : reachable (FilterEngine_init cfg)
| reach_add_rule r e : reachable e -> reachable (add_rule r e)
| reach_load_config cfg e : reachable e -> reachable (load_config cfg e)
| reach_should_block e url m hs ct t1 t2 res e' :
    reachable e ->
    should_block e url m hs ct t1 t2 = Some (res, e') ->
    reachable e'.

(** What may happen to an engine between two requests for the cache key
    [key]: rules are added, a configuration is loaded (which replaces the
    whitelist and the blacklist and adds rules), requests with another
    cache key are decided. *)
Inductive evolves (key : string) : FilterEngine -> FilterEngine -> Prop :=
| evolves_refl e : evolves key e e
| evolves_add_rule r e e' :
    evolves key e e' -> evolves key e (add_rule r e')
| evolves_load_config cfg e e' :
    evolves key e e' -> evolves key e (load_config cfg e')
| evolves_should_block e e' url m hs ct t1 t2 res e'' :
    evolves key e e' ->
    cache_key m url <> key ->
    should_block e' url m hs ct t1 t2 = Some (res, e'') ->
    evolves key e e''.

(** The engine without [entry] in its whitelist and its blacklist. *)
Definition without_entry (entry : string) (e : FilterEngine) : FilterEngine :=
  mkFilterEngine (rules e) (domain_rules e) (path_rules e) (regex_rules e)
    (whitelist_domains e ∖ {[entry]}) (blacklist_domains e ∖ {[entry]})
    (cache e) (cache_ttl e) (cache_expiry e).

End Engine.

(** ** A reference implementation of the library interface

    Used to run the engine on concrete requests. It follows CPython's
    [urllib.parse.urlparse] for URLs without control characters or white
    space, and [re] on the fragment of the pattern syntax made of literal
    characters, [.], [^], [$], a backslash before a character that is not
    alphanumeric, one of the greedy quantifiers [*], [+], [?] after a
    character, a dot or an escape, and a group [(?i:...)] or [(?-i:...)]
    around such items. A pattern outside the fragment is refused; every
    pattern compiled below is inside it. Its [str.lower] and [str.upper]
    are those of Python on texts whose characters outside ASCII have no
    lower-case and no upper-case form. *)

Module PyRef.

(** *** [urllib.parse] *)

Definition is_alpha (c : ascii) : bool := (Str.is_upper c || Str.is_lower c)%bool.

Definition is_digit (c : ascii) : bool :=
  let n := nat_of_ascii c in (Nat.leb 48 n && Nat.leb n 57)%bool.

(** membership in [scheme_chars] *)
Definition is_scheme_char (c : ascii) : bool :=
  (is_alpha c || is_digit c || Str.mem_char c "+-.")%bool.

Fixpoint all_chars (f : ascii -> bool) (s : string) : bool :=
  match s with
  | EmptyString => true
  | String c r => (f c && all_chars f r)%bool
  end.

(** [s.split(c, 1)] when [c] occurs in [s]: the text before the first [c]
    and the text after it. *)
Fixpoint split_first_char (c : ascii) (s : string) : option (string * string) :=
  match s with
  | EmptyString => None
  | String d r =>
    if Ascii.eqb c d then Some (EmptyString, r)
    else match split_first_char c r with
         | Some (a, b) => Some (String d a, b)
         | None => None
         end
  end.

(** [_splitnetloc(url, 2)] on the text after the two slashes: the
    authority runs up to the first of [/], [?], [#]. *)
Fixpoint splitnetloc (s : string) : string * string :=
  match s with
  | EmptyString => (EmptyString, EmptyString)
  | String c r =>
    if Str.mem_char c "/?#" then (EmptyString, s)
    else let '(a, b) := splitnetloc r in (String c a, b)
  end.

(** The scheme test of [urlsplit]: a colon at a position [i > 0] with only
    scheme characters before it, the first one a letter. *)
Definition split_scheme (url : string) : string * string :=
  match split_first_char ":" url with
  | Some (String c0 r0, rest) =>
    if (is_alpha c0 && all_chars is_scheme_char (String c0 r0))%bool
    then (Str.lower (String c0 r0), rest)
    else (EmptyString, url)
  | _ => (EmptyString, url)
  end.

(** [urlsplit]: scheme, authority, path, query, fragment; [None] for the
    [ValueError] raised on an authority with an unmatched square bracket.
    An authority with matched square brackets is outside the reference:
    Python also checks that they hold an IP literal. *)
Definition urlsplit (url : string)
  : option (string * string * string * string * string) :=
  let '(sch, rest) := split_scheme url in
  let '(loc, rest1) :=
    match rest with
    | String "/" (String "/" r) => splitnetloc r
    | _ => (EmptyString, rest)
    end in
  if xorb (Str.mem_char "[" loc) (Str.mem_char "]" loc) then None
  else
    let '(rest2, frag) :=
      match split_first_char "#" rest1 with
      | Some (a, b) => (a, b)
      | None => (rest1, EmptyString)
      end in
    let '(pth, qry) :=
      match split_first_char "?" rest2 with
      | Some (a, b) => (a, b)
      | None => (rest2, EmptyString)
      end in
    Some (sch, loc, pth, qry, frag).

(** The schemes of [uses_params]. *)
Definition uses_params : list string :=
  [ ""; "ftp"; "hdl"; "prospero"; "http"; "imap"; "https"; "shttp"; "rtsp";
    "rtspu"; "sip"; "sips"; "mms"; "sftp"; "tel" ].

(** The last path segment: the text after the last [/], with what comes
    before it (the slash included). *)
Fixpoint last_segment (s : string) : string * string :=
  match s with
  | EmptyString => (EmptyString, EmptyString)
  | String c r =>
    let '(a, b) := last_segment r in
    if (Ascii.eqb c "/" && negb (Str.mem_char "/" r))%bool then (String c EmptyString, r)
    else if Str.mem_char "/" s then (String c a, b)
    else (EmptyString, s)
  end.

(** [_splitparams]: the parameters start at the first [;] of the last path
    segment. *)
Definition splitparams (url : string) : string * string :=
  let '(dir, seg) := last_segment url in
  match split_first_char ";" seg with
  | Some (a, b) => (dir ++ a, b)
  | None => (url, EmptyString)
  end.

(** [urllib.parse.urlparse] *)
Definition urlparse (url : string) : option urllib.ParseResult :=
  match urlsplit url with
  | None => None
  | Some (sch, loc, pth, qry, frag) =>
    let '(pth', prm) :=
      if (bool_decide (sch ∈ uses_params) && Str.mem_char ";" pth)%bool
      then splitparams pth else (pth, EmptyString) in
    Some (urllib.mkParseResult sch loc pth' prm qry frag)
  end.

(** *** [re]

    A fragment of the pattern language: characters that stand for
    themselves, escaped punctuation, [.], [^], [$], the quantifiers [*],
    [+] and [?] on one character, and a group [(?-i:...)] or [(?i:...)]
    that switches [re.IGNORECASE] off or on for the items inside it.
    Patterns and subjects are ASCII texts. Where [compile] gives a
    pattern, [search] is [re.search]; [None] stands for [re.error], and
    also for a pattern outside the fragment: the reference is used on
    patterns that it compiles. *)

Inductive atom : Type :=
| Lit (c : ascii)        (* a character that stands for itself *)
| AnyChar                (* [.]: any character but a newline *)
| Bol                    (* [^] *)
| Eol.                   (* [$] *)

Inductive quant : Type := One | Star | Plus | Opt.

Inductive token : Type :=
| TAtom (a : atom)
| TQuant (q : quant)
| TOpen (ic : bool)      (* [(?i:] and [(?-i:] *)
| TClose                 (* [)] *)
| TRefused.

Definition backslash : ascii := ascii_of_nat 92.
Definition newline : ascii := ascii_of_nat 10.

(** One token per pattern character, two characters for an escape, four
    or five for the opening of a group. *)
Fixpoint tokenize (p : string) : list token :=
  match p with
  | EmptyString => []
  | String c r =>
    if Ascii.eqb c backslash then
      match r with
      | EmptyString => [TRefused]
      | String x r' =>
        (if (is_alpha x || is_digit x)%bool then TRefused else TAtom (Lit x))
          :: tokenize r'
      end
    else if Ascii.eqb c "." then TAtom AnyChar :: tokenize r
    else if Ascii.eqb c "^" then TAtom Bol :: tokenize r
    else if Ascii.eqb c "$" then TAtom Eol :: tokenize r
    else if Ascii.eqb c "*" then TQuant Star :: tokenize r
    else if Ascii.eqb c "+" then TQuant Plus :: tokenize r
    else if Ascii.eqb c "?" then TQuant Opt :: tokenize r
    else if Ascii.eqb c "(" then
      match r with
      | String "?" (String "i" (String ":" r')) => TOpen true :: tokenize r'
      | String "?" (String "-" (String "i" (String ":" r'))) =>
        TOpen false :: tokenize r'
      | _ => TRefused :: tokenize r
      end
    else if Ascii.eqb c ")" then TClose :: tokenize r
    else if Str.mem_char c "{}|[]" then TRefused :: tokenize r
    else TAtom (Lit c) :: tokenize r
  end.

Definition is_anchor (a : atom) : bool :=
  match a with Bol | Eol => true | _ => false end.

(** An item of a compiled pattern: an atom, its quantifier, and whether
    it is matched without regard to letter case. *)
Definition item : Type := atom * quant * bool.

(** The pattern as a sequence of quantified atoms; [g] is the flag of
    [compile], [grp] the flag of the group that is open, if one is. A
    quantifier with nothing before it, or after an anchor, is [re.error]
    ("nothing to repeat"); so are an escape at the end of the pattern, a
    group that is not closed and a [)] that closes nothing. A group inside
    a group and a quantifier on a group are outside the fragment. *)
Fixpoint parse (g : bool) (grp : option bool) (ts : list token)
  : option (list item) :=
  let ic := default g grp in
  match ts with
  | [] => match grp with None => Some [] | Some _ => None end
  | TRefused :: _ => None
  | TQuant _ :: _ => None
  | TOpen b :: rest =>
    match grp with
    | None => parse g (Some b) rest
    | Some _ => None
    end
  | TClose :: rest =>
    match grp with
    | Some _ =>
      match rest with
      | TQuant _ :: _ => None
      | _ => parse g None rest
      end
    | None => None
    end
  | TAtom a :: TQuant q :: rest =>
    if is_anchor a then None
    else match rest with
         | TQuant _ :: _ => None
         | _ => cons (a, q, ic) <$> parse g grp rest
         end
  | TAtom a :: rest => cons (a, One, ic) <$> parse g grp rest
  end.

(** A compiled pattern: its items and whether [re.IGNORECASE] was given
    to [compile]. *)
Record regex : Type := mkRegex {
  items : list item;
  ignorecase : bool
}.

Definition compile (p : string) (f : re_flag) : option regex :=
  let g := match f with RE_IGNORECASE => true | RE_NOFLAG => false end in
  match parse g None (tokenize p) with
  | Some its => Some (mkRegex its g)
  | None => None
  end.

(** [a] accepts the character [c]. *)
Definition accepts (ic : bool) (a : atom) (c : ascii) : bool :=
  match a with
  | Lit d => if ic then Ascii.eqb (Str.lower_char c) (Str.lower_char d)
             else Ascii.eqb c d
  | AnyChar => negb (Ascii.eqb c newline)
  | Bol | Eol => false
  end.

(** Zero or more characters accepted by [a], then the continuation [k];
    [k] is told whether it starts at the beginning of the subject. *)
Fixpoint match_star (ic : bool) (a : atom) (k : string -> bool -> bool)
    (s : string) (at_start : bool) : bool :=
  (k s at_start ||
   match s with
   | String c r => accepts ic a c && match_star ic a k r false
   | EmptyString => false
   end)%bool.

(** The items match a prefix of [s]. *)
Fixpoint match_items (its : list item) (s : string) (at_start : bool) : bool :=
  match its with
  | [] => true
  | (Bol, _, _) :: rest => (at_start && match_items rest s at_start)%bool
  | (Eol, _, _) :: rest =>
    ((String.eqb s EmptyString || String.eqb s (String newline EmptyString))
     && match_items rest s at_start)%bool
  | (a, One, ic) :: rest =>
    match s with
    | String c r => (accepts ic a c && match_items rest r false)%bool
    | EmptyString => false
    end
  | (a, Opt, ic) :: rest =>
    (match_items rest s at_start ||
     match s with
     | String c r => accepts ic a c && match_items rest r false
     | EmptyString => false
     end)%bool
  | (a, Star, ic) :: rest => match_star ic a (match_items rest) s at_start
  | (a, Plus, ic) :: rest =>
    match s with
    | String c r => (accepts ic a c && match_star ic a (match_items rest) r false)%bool
    | EmptyString => false
    end
  end.

(** The items match at some position of [s]. *)
Fixpoint search_from (its : list item) (s : string) (at_start : bool) : bool :=
  (match_items its s at_start ||
   match s with
   | String _ r => search_from its r false
   | EmptyString => false
   end)%bool.

(** the truth value of [r.search(s)] *)
Definition search (r : regex) (s : string) : bool :=
  search_from (items r) s true.

(** Every item of the pattern is matched without regard to letter case:
    the pattern was compiled with [re.IGNORECASE] and no group switches it
    off. *)
Definition all_ignorecase (r : regex) : bool :=
  forallb (fun it : item => it.2) (items r).

(** A matcher that gives the same answer for two subjects that differ by
    letter case only. *)
Definition case_blind (k : string -> bool -> bool) : Prop :=
  forall s s' st, Str.lower s = Str.lower s' -> k s st = k s' st.

(** The reference [str.lower] and [str.upper] fold the ASCII letters:
    they are [str.lower] and [str.upper] on the texts whose other
    characters have no lower-case and no upper-case form. No
    pattern of the fragment makes [re.compile] raise anything but
    [re.error]. *)
#[export] Instance lib : PyLib :=
  Build_PyLib regex compile (fun _ _ => false) search urlparse Str.lower Str.upper.

End PyRef.

(** ** Request headers

    [flow.request.headers] is a [mitmproxy.http.Headers] object: an
    ordered sequence of (name, value) fields in which a name is looked up
    without regard to letter case. *)

Module Headers.

Definition t : Type := list (string * string).

(** two header names are the same name *)
Definition same_name (a b : string) : bool :=
  String.eqb (Str.lower a) (Str.lower b).

(** [name in headers] *)
Definition contains (h : t) (name : string) : bool :=
  existsb (fun f => same_name f.1 name) h.

(** [headers.get_all(name)]: the values of the fields called [name], in
    order. *)
Definition get_all (h : t) (name : string) : list string :=
  snd <$> List.filter (fun f => same_name f.1 name) h.

(** [del headers[name]], for a name that is present: every field of that
    name goes. *)
Definition delete (h : t) (name : string) : t :=
  List.filter (fun f => negb (same_name f.1 name)) h.

(** The fields after the first one called [name] has been given [value]:
    later fields of that name are dropped. *)
Fixpoint replace_fields (h : t) (name value : string) (placed : bool) : t :=
  match h with
  | [] => []
  | f :: r =>
    if same_name f.1 name then
      if placed then replace_fields r name value true
      else (f.1, value) :: replace_fields r name value true
    else f :: replace_fields r name value placed
  end.

(** [headers[name] = value]: the first field of that name takes the value
    and keeps its place, the other ones are dropped; a new field is
    appended when there is none. *)
Definition set (h : t) (name value : string) : t :=
  if contains h name then replace_fields h name value false
  else (h ++ [(name, value)])%list.

End Headers.

(** [headers_to_remove] of [_add_stealth_headers] *)
Definition headers_to_remove : list string :=
  [ "proxy-connection"; "proxy-authorization"; "x-forwarded-for";
    "x-real-ip"; "via" ].

Definition default_user_agent : string :=
  "Mozilla/5.0 (Windows NT 10.0; Win64; x64) AppleWebKit/537.36 " ++
  "(KHTML, like Gecko) Chrome/120.0.0.0 Safari/537.36".

Definition default_accept : string :=
  "text/html,application/xhtml+xml,application/xml;q=0.9," ++
  "image/webp,*/*;q=0.8".

(** [if name not in headers: headers[name] = value] *)
Definition set_if_absent (name value : string) (h : Headers.t) : Headers.t :=
  if negb (Headers.contains h name) then Headers.set h name value else h.

(** [for header in headers_to_remove: if header in headers: del
    headers[header]] *)
Definition remove_headers (names : list string) (h : Headers.t) : Headers.t :=
  fold_left (fun acc name =>
               if Headers.contains acc name then Headers.delete acc name else acc)
            names h.

(** [OblivionFilterAddon._add_stealth_headers], as a function of
    [flow.request.headers]. *)
Definition _add_stealth_headers (h : Headers.t) : Headers.t :=
  let h := remove_headers headers_to_remove h in
  let h := set_if_absent "user-agent" default_user_agent h in
  let h := set_if_absent "accept" default_accept h in
  let h := set_if_absent "accept-language" "en-US,en;q=0.5" h in
  let h := set_if_absent "accept-encoding" "gzip, deflate" h in
  let h := Headers.set h "dnt" "1" in
  let h := Headers.set h "connection" "keep-alive" in
  let h := Headers.set h "upgrade-insecure-requests" "1" in
  h.

(** The headers that [_add_stealth_headers] sets when they are absent,
    with the values it gives them. *)
Definition filled_headers : list (string * string) :=
  [ ("user-agent", default_user_agent); ("accept", default_accept);
    ("accept-language", "en-US,en;q=0.5"); ("accept-encoding", "gzip, deflate") ].

(** The headers that [_add_stealth_headers] assigns without a test. *)
Definition forced_headers : list (string * string) :=
  [ ("dnt", "1"); ("connection", "keep-alive"); ("upgrade-insecure-requests", "1") ].

(** [name] is one of [names], letter case apart. *)
Definition name_in (name : string) (names : list string) : bool :=
  existsb (Headers.same_name name) names.

(** ** Response bodies: [bytes], decoded text and UTF-8

    A body is a list of bytes; the [str] that [decode] yields is the list
    of its code points. *)

Module Utf8.

Definition Z_of_byte (b : byte) : Z := Z.of_N (Byte.to_N b).

Definition byte_of_Z (z : Z) : byte := default x00 (Byte.of_N (Z.to_N z)).

Definition in_range (lo hi x : Z) : bool := ((lo <=? x) && (x <=? hi))%bool.

(** a continuation byte [10xxxxxx] *)
Definition is_cont (x : Z) : bool := in_range 0x80 0xBF x.

(** [bs.decode('utf-8')] with strict errors; [None] stands for
    [UnicodeDecodeError]. The accepted sequences are the well-formed ones:
    no overlong form, no surrogate, nothing above U+10FFFF. *)
Fixpoint decode (bs : list byte) : option (list Z) :=
  match bs with
  | [] => Some []
  | b0 :: r0 =>
    let x0 := Z_of_byte b0 in
    if x0 <? 0x80 then cons x0 <$> decode r0
    else if in_range 0xC2 0xDF x0 then
      match r0 with
      | b1 :: r1 =>
        let x1 := Z_of_byte b1 in
        if is_cont x1
        then cons ((x0 - 0xC0) * 64 + (x1 - 0x80)) <$> decode r1
        else None
      | _ => None
      end
    else if in_range 0xE0 0xEF x0 then
      match r0 with
      | b1 :: b2 :: r2 =>
        let x1 := Z_of_byte b1 in
        let x2 := Z_of_byte b2 in
        let lo := if x0 =? 0xE0 then 0xA0 else 0x80 in
        let hi := if x0 =? 0xED then 0x9F else 0xBF in
        if (in_range lo hi x1 && is_cont x2)%bool
        then cons (((x0 - 0xE0) * 64 + (x1 - 0x80)) * 64 + (x2 - 0x80))
               <$> decode r2
        else None
      | _ => None
      end
    else if in_range 0xF0 0xF4 x0 then
      match r0 with
      | b1 :: b2 :: b3 :: r3 =>
        let x1 := Z_of_byte b1 in
        let x2 := Z_of_byte b2 in
        let x3 := Z_of_byte b3 in
        let lo := if x0 =? 0xF0 then 0x90 else 0x80 in
        let hi := if x0 =? 0xF4 then 0x8F else 0xBF in
        if (in_range lo hi x1 && is_cont x2 && is_cont x3)%bool
        then cons ((((x0 - 0xF0) * 64 + (x1 - 0x80)) * 64 + (x2 - 0x80)) * 64
                   + (x3 - 0x80))
               <$> decode r3
        else None
      | _ => None
      end
    else None
  end.

(** The UTF-8 form of one code point; [None] for a surrogate or a number
    that is no code point. *)
Definition encode_char (c : Z) : option (list byte) :=
  if in_range 0 0x7F c then Some [byte_of_Z c]
  else if in_range 0x80 0x7FF c then
    Some [byte_of_Z (0xC0 + c / 64); byte_of_Z (0x80 + c mod 64)]
  else if in_range 0x800 0xFFFF c then
    if in_range 0xD800 0xDFFF c then None
    else Some [byte_of_Z (0xE0 + c / 4096);
               byte_of_Z (0x80 + (c / 64) mod 64);
               byte_of_Z (0x80 + c mod 64)]
  else if in_range 0x10000 0x10FFFF c then
    Some [byte_of_Z (0xF0 + c / 262144);
          byte_of_Z (0x80 + (c / 4096) mod 64);
          byte_of_Z (0x80 + (c / 64) mod 64);
          byte_of_Z (0x80 + c mod 64)]
  else None.

(** [s.encode('utf-8')]; [None] stands for [UnicodeEncodeError]. *)
Fixpoint encode (s : list Z) : option (list byte) :=
  match s with
  | [] => Some []
  | c :: r =>
    match encode_char c, encode r with
    | Some a, Some b => Some (a ++ b)%list
    | _, _ => None
    end
  end.

End Utf8.

(** Operations of [str] on decoded text. *)
Module Text.

Definition t : Type := list Z.

(** the text of an ASCII literal *)
Definition of_string (s : string) : t :=
  (fun c => Z.of_nat (nat_of_ascii c)) <$> list_ascii_of_string s.

(** [s.startswith(p)] *)
Fixpoint is_prefix (p s : t) : bool :=
  match p, s with
  | [], _ => true
  | a :: p', b :: s' => ((a =? b) && is_prefix p' s')%bool
  | _ :: _, [] => false
  end.

(** [p in s] *)
Fixpoint contains (p s : t) : bool :=
  (is_prefix p s ||
   match s with
   | [] => false
   | _ :: r => contains p r
   end)%bool.

(** [s.replace(old, new, 1)]: the leftmost occurrence of [old] is replaced. *)
Fixpoint replace_first (old new s : t) : t :=
  if is_prefix old s then (new ++ drop (length old) s)%list
  else match s with
       | [] => []
       | c :: r => c :: replace_first old new r
       end.

End Text.

(** ['\n'.join(parts)] *)
Fixpoint join_lines (parts : list string) : string :=
  match parts with
  | [] => EmptyString
  | [p] => p
  | p :: rest => p ++ String (ascii_of_nat 10) (join_lines rest)
  end.

Definition dquote : string := String (ascii_of_nat 34) EmptyString.

(** The attributes of a [ContentProcessor] object. *)
Record ContentProcessor : Type := mkContentProcessor {
  cosmetic_rules : list string;
  scriptlet_rules : list string
}.

(** [ContentProcessor.__init__] *)
Definition ContentProcessor_new : ContentProcessor :=
  mkContentProcessor
    [ ".advertisement"; ".ad-banner"; ".ad-container"; "[id*='ad']";
      "[class*='ad']"; "#ads"; ".ads"; ".adsystem"; ".googlesyndication";
      ".doubleclick"; ".googletagmanager"; ".facebook-tracking";
      ".twitter-tracking"; ".analytics" ]
    [ "window.google_tag_manager = undefined;";
      "window.ga = function(){};";
      "window.gtag = function(){};";
      "window._gaq = [];";
      "window.GoogleAnalyticsObject = undefined;";
      "window.fbq = function(){};";
      "window._fbq = function(){};";
      "window.twq = function(){};";
      "console.log('[OblivionFilter] Blocked tracking script');" ].

(** [ContentProcessor._generate_cosmetic_css] *)
Definition _generate_cosmetic_css (cp : ContentProcessor) : string :=
  join_lines ((fun rule => rule ++ " { display: none !important; }")
                <$> cosmetic_rules cp).

(** [ContentProcessor._generate_scriptlet_js] *)
Definition _generate_scriptlet_js (cp : ContentProcessor) : string :=
  join_lines (scriptlet_rules cp).

(** [style_tag] of [process_html] *)
Definition style_tag (cp : ContentProcessor) : Text.t :=
  Text.of_string ("<style type=" ++ dquote ++ "text/css" ++ dquote ++ ">"
                  ++ _generate_cosmetic_css cp ++ "</style>").

(** [script_tag] of [process_html] *)
Definition script_tag (cp : ContentProcessor) : Text.t :=
  Text.of_string ("<script type=" ++ dquote ++ "text/javascript" ++ dquote ++ ">"
                  ++ _generate_scriptlet_js cp ++ "</script>").

Definition close_head : Text.t := Text.of_string "</head>".
Definition open_body : Text.t := Text.of_string "<body".
Definition close_body : Text.t := Text.of_string "</body>".

(** The first half of [process_html]: the cosmetic CSS. *)
Definition inject_style (cp : ContentProcessor) (html : Text.t) : Text.t :=
  if Str.truthy (_generate_cosmetic_css cp) then
    if Text.contains close_head html then
      Text.replace_first close_head (style_tag cp ++ close_head)%list html
    else if Text.contains open_body html then
      Text.replace_first open_body (style_tag cp ++ open_body)%list html
    else html
  else html.

(** The second half of [process_html]: the anti-tracking script. *)
Definition inject_script (cp : ContentProcessor) (html : Text.t) : Text.t :=
  if Str.truthy (_generate_scriptlet_js cp) then
    if Text.contains close_body html then
      Text.replace_first close_body (script_tag cp ++ close_body)%list html
    else (html ++ script_tag cp)%list
  else html.

(** [ContentProcessor.process_html]. The result is [None] when an
    exception leaves the function ([UnicodeEncodeError] is not caught). *)
Definition process_html (cp : ContentProcessor) (content : list byte)
    (url : string) : option (list byte) :=
  match Utf8.decode content with
  | None => Some content
  | Some html => Utf8.encode (inject_script cp (inject_style cp html))
  end.

(** [old] occurs in [s] between [a] and [b], and at no earlier position. *)
Definition first_at (old s a b : Text.t) : Prop :=
  s = (a ++ old ++ b)%list /\
  forall i, (i < length a)%nat -> Text.is_prefix old (drop i s) = false.

(** The number of positions of [s] at which [p] occurs. *)
Fixpoint occurrences (p s : Text.t) : nat :=
  ((if Text.is_prefix p s then 1 else 0) +
   match s with
   | [] => 0
   | _ :: r => occurrences p r
   end)%nat.

(** One of [x] and [y] is a prefix of the other. *)
Definition compatible (x y : Text.t) : bool :=
  (Text.is_prefix x y || Text.is_prefix y x)%bool.

(** No occurrence of [y] can start inside a copy of [x], at an offset
    [from] or later. *)
Definition starts_nowhere_in (y x : Text.t) (from : nat) : bool :=
  forallb (fun k => negb (compatible y (drop k x))) (seq from (length x - from)).

(** No occurrence of [y] that starts earlier can run into a copy of [x]. *)
Definition runs_not_into (y x : Text.t) : bool :=
  forallb (fun m => negb (compatible (drop m y) x)) (seq 1 (length y - 1)).

(** ** Sample requests, configurations, rules and bodies *)

Module Examples.

(** A request for an advertisement host, written with capitals. *)
Definition ad_url : string := "http://Ads.Example.com/banner".

(** A configuration that blacklists the host. *)
Definition cfg_deny : Config :=
  mkConfig [] ["ads.example.com"] [].

(** A configuration that whitelists the host, and still has it in the
    blacklist and under a block rule. *)
Definition cfg_allow : Config :=
  mkConfig ["ads.example.com"] ["ads.example.com"]
    [Some (FilterRule_default "banner" "block" "banners")].

(** The whitelist names the host as the URL spells it; the blacklist
    names it in lower case. *)
Definition cfg_allow_capitals : Config :=
  mkConfig ["Ads.Example.com"] ["ads.example.com"] [].

(** The blacklist names the host as the URL spells it. *)
Definition cfg_deny_capitals : Config :=
  mkConfig [] ["Ads.Example.com"] [].

(** A configuration with no list entry and no rule. *)
Definition cfg_empty : Config := mkConfig [] [] [].

(** A host name that begins with U+2102, DOUBLE-STRUCK CAPITAL C, an
    upper-case letter ([str.isupper] holds for it) that has no lower-case
    form: the three bytes of its UTF-8 encoding, then [.example.com]. *)
Definition capital_c_host : string :=
  String (ascii_of_nat 226) (String (ascii_of_nat 132) (String (ascii_of_nat 130)
    ".example.com")).

Definition capital_c_url : string := "http://" ++ capital_c_host ++ "/banner".

(** A configuration that blacklists that host. *)
Definition cfg_deny_capital_c : Config := mkConfig [] [capital_c_host] [].

(** A rule with a domain, a path and a pattern that has a dot. *)
Definition banner_rule : FilterRule :=
  mkFilterRule "ads.example.com" "block" (Some "ads.example.com")
    (Some "/banner") None None None 0 true "banner host".

(** A rule that asks for a request header. *)
Definition xhr_rule : FilterRule :=
  mkFilterRule "track" "block" None None None None
    (Some {[ "X-Requested-With" := "XMLHttpRequest" ]}) 0 true "XHR tracking".

(** The bytes of an ASCII literal. *)
Definition bytes_of_string (s : string) : list byte :=
  byte_of_ascii <$> list_ascii_of_string s.

(** A small page, as text and as the bytes of a response body. *)
Definition page_text : string :=
  "<html><head><title>News</title></head><body><p>Hello</p></body></html>".

Definition page : list byte := bytes_of_string page_text.

End Examples.


(** ** The rule list behind the indices *)

Section EngineScan.

Context `{Lib : PyLib}.

(** The engine with nothing in its cache. *)
Definition without_cache (e : FilterEngine) : FilterEngine :=
  mkFilterEngine (rules e) (domain_rules e) (path_rules e) (regex_rules e)
    (whitelist_domains e) (blacklist_domains e) ∅ (cache_ttl e) ∅.

(** [rule] was added with the domain [k]. *)
Definition has_domain (k : string) (rule : FilterRule) : bool :=
  (Str.truthy_opt (domain rule) && String.eqb (default "" (domain rule)) k)%bool.

(** [rule] was added with the path [k]. *)
Definition has_path (k : string) (rule : FilterRule) : bool :=
  (Str.truthy_opt (path rule) && String.eqb (default "" (path rule)) k)%bool.

(** What [add_rule] appends to [self.regex_rules] for [rule]. *)
Definition compiled (rule : FilterRule) : list (Pattern * FilterRule) :=
  if has_regex_meta (pattern rule) then
    match re_compile (pattern rule) RE_IGNORECASE with
    | Some regex => [(regex, rule)]
    | None => []
    end
  else [].

(** The indices hold the rules of [self.rules], in the order of
    [self.rules] and as often as they are there: under a domain the rules
    added with that domain, under a path the rules added with that path,
    and in [self.regex_rules] the rules whose pattern has a metacharacter
    and compiles. *)
Definition index_exact (e : FilterEngine) : Prop :=
  (forall k, default [] (domain_rules e !! k) = List.filter (has_domain k) (rules e)) /\
  (forall k, default [] (path_rules e !! k) = List.filter (has_path k) (rules e)) /\
  regex_rules e = flat_map compiled (rules e).

(** The decision of [should_block] on a cache miss, read from the rule
    list alone: one pass over [rs] per tier. *)
Definition decide_by_scan (rs : list FilterRule) (whitelist blacklist : gset string)
    (parsed : urllib.ParseResult) (url method_ : string)
    (hs : option (gmap string string)) (ct : option string)
  : bool * option FilterRule :=
  let domain_ := str_lower (urllib.netloc parsed) in
  let answer (o : option FilterRule) (otherwise : bool * option FilterRule) :=
    match o with
    | Some rule => (is_block rule, Some rule)
    | None => otherwise
    end in
  if bool_decide (domain_ ∈ whitelist) then (false, None)
  else if bool_decide (domain_ ∈ blacklist) then (true, None)
  else
    answer (List.find (fun r => has_domain domain_ r && _match_rule r url method_ hs ct)%bool rs)
   (answer (List.find (fun r => has_path (urllib.path parsed) r
                                && _match_rule r url method_ hs ct)%bool rs)
   (answer (List.find (fun r => existsb (fun p => re_search p.1 url) (compiled r)
                                && _match_rule r url method_ hs ct)%bool rs)
   (answer (first_literal_match rs url method_ hs ct)
           (false, None)))).

(** The cache and the table of expiries have the same keys. *)
Definition cache_paired (e : FilterEngine) : Prop :=
  forall key, is_Some (cache e !! key) <-> is_Some (cache_expiry e !! key).





End EngineScan.

(** Two rules with the same pattern, action, domain, path, method,
    content type, headers and switch: they may differ in priority and in
    description. *)
Definition same_but_priority (r r' : FilterRule) : Prop :=
  pattern r = pattern r' /\ action r = action r' /\ domain r = domain r' /\
  path r = path r' /\ method r = method r' /\ content_type r = content_type r' /\
  headers r = headers r' /\ enabled r = enabled r'.

(** ** The security headers of responses *)

(** [security_headers] of [_add_security_headers], in the order of the
    dictionary. *)
Definition security_headers : list (string * string) :=
  [ ("X-Content-Type-Options", "nosniff");
    ("X-Frame-Options", "DENY");
    ("X-XSS-Protection", "1; mode=block");
    ("Referrer-Policy", "strict-origin-when-cross-origin");
    ("Permissions-Policy", "geolocation=(), microphone=(), camera=()") ].

(** [OblivionFilterAddon._add_security_headers], as a function of
    [flow.response.headers]. *)
Definition _add_security_headers (h : Headers.t) : Headers.t :=
  fold_left (fun acc kv => Headers.set acc kv.1 kv.2) security_headers h.

(** ** The network monitor *)

(** The dictionary kept for one request in [NetworkMonitor.connections].
    The last three keys are absent until [track_response] sets them. *)
Module Conn.

Record t : Type := mk {
  url : string;
  method : string;
  start_time : Z;
  bytes_sent : Z;
  bytes_received : Z;
  status : string;
  status_code : option Z;
  response_size : option Z;
  response_time : option Z
}.

(** [conn['status'] == 'completed'] *)
Definition completed (c : t) : bool := String.eqb (status c) "completed".

End Conn.

(** The attributes of a [NetworkMonitor] object. Clock readings are
    integers, as for the engine. *)
Record NetworkMonitor : Type := mkNetworkMonitor {
  connections : gmap string Conn.t;
  bandwidth_usage : list Z;
  response_times : list Z;
  error_rates : gmap string Z;
  start_time : Z
}.

(** [NetworkMonitor.__init__]; [now] is the reading of the clock. *)
Definition NetworkMonitor_new (now : Z) : NetworkMonitor :=
  mkNetworkMonitor ∅ [] [] ∅ now.

(** [NetworkMonitor.track_request] *)
Definition track_request (m : NetworkMonitor) (request_id url method_ : string)
    (now : Z) : NetworkMonitor :=
  mkNetworkMonitor
    (<[request_id := Conn.mk url method_ now 0 0 "pending" None None None]>
       (connections m))
    (bandwidth_usage m) (response_times m) (error_rates m) (start_time m).

(** [times[-1000:]] for a list of more than a thousand entries *)
Definition last_1000 (times : list Z) : list Z :=
  drop (length times - 1000) times.

(** [NetworkMonitor.track_response] *)
Definition track_response (m : NetworkMonitor) (request_id : string)
    (status_code response_size now : Z) : NetworkMonitor :=
  match connections m !! request_id with
  | Some conn =>
    let response_time := now - Conn.start_time conn in
    let conn' :=
      Conn.mk (Conn.url conn) (Conn.method conn) (Conn.start_time conn)
        (Conn.bytes_sent conn) (Conn.bytes_received conn) "completed"
        (Some status_code) (Some response_size) (Some response_time) in
    let times := (response_times m ++ [response_time])%list in
    mkNetworkMonitor
      (<[request_id := conn']> (connections m))
      (bandwidth_usage m)
      (if (1000 <? length times)%nat then last_1000 times else times)
      (error_rates m) (start_time m)
  | None => m
  end.

(** [a / b] for two integers; [None] is [ZeroDivisionError]. *)
Definition py_div (a b : Z) : option Q :=
  if b =? 0 then None else Some (inject_Z a / inject_Z b)%Q.

(** [sum(...)] of integers *)
Definition sum_Z (l : list Z) : Z := foldr Z.add 0 l.

(** [self.connections.values()] *)
Definition connection_values (m : NetworkMonitor) : list Conn.t :=
  (map_to_list (connections m)).*2.

(** The dictionary returned by [NetworkMonitor.get_stats]; the quotients
    are rationals, and [get_stats] divides by a number that it has found
    to be other than 0. *)
Module NetStats.

Record t : Type := mk {
  uptime : Z;
  total_requests : Z;
  completed_requests : Z;
  average_response_time : Q;
  total_bytes_transferred : Z;
  requests_per_second : Q
}.

End NetStats.

(** [NetworkMonitor.get_stats]; [now] is the reading of the clock. *)
Definition NetworkMonitor_get_stats (m : NetworkMonitor) (now : Z) : NetStats.t :=
  let uptime := now - start_time m in
  let total_requests := Z.of_nat (size (connections m)) in
  let completed_requests :=
    Z.of_nat (length (List.filter Conn.completed (connection_values m))) in
  let avg_response_time :=
    match response_times m with
    | [] => 0%Q
    | _ => (inject_Z (sum_Z (response_times m)) /
            inject_Z (Z.of_nat (length (response_times m))))%Q
    end in
  let total_bytes :=
    sum_Z ((fun conn => default 0 (Conn.response_size conn)) <$> connection_values m) in
  NetStats.mk uptime total_requests completed_requests avg_response_time total_bytes
    (if 0 <? uptime then (inject_Z completed_requests / inject_Z uptime)%Q else 0%Q).

(** The connections of a table, as [connection_values] lists them. *)
Definition table_values (conns : gmap string Conn.t) : list Conn.t := (map_to_list conns).*2.

(** The three counts of [get_stats], of a list of connections. *)
Definition count_completed (cs : list Conn.t) : Z :=
  Z.of_nat (length (List.filter Conn.completed cs)).

Definition count_bytes (cs : list Conn.t) : Z :=
  sum_Z ((fun conn => default 0 (Conn.response_size conn)) <$> cs).

(** The shape of an entry of the table. *)
Definition well_formed_connection (c : Conn.t) : Prop :=
  Conn.bytes_sent c = 0 /\ Conn.bytes_received c = 0 /\
  ((Conn.status c = "pending" /\ Conn.status_code c = None /\
    Conn.response_size c = None /\ Conn.response_time c = None) \/
   (Conn.status c = "completed" /\ is_Some (Conn.status_code c) /\
    is_Some (Conn.response_size c) /\
    exists t, Conn.response_time c = Some t)).

(** The monitors that [track_request] and [track_response] make of a new
    one. *)
Inductive monitored : NetworkMonitor -> Prop :=
| monitored_new now : monitored (NetworkMonitor_new now)
| monitored_request m request_id url method_ now :
    monitored m -> monitored (track_request m request_id url method_ now)
| monitored_response m request_id status_code response_size now :
    monitored m ->
    monitored (track_response m request_id status_code response_size now).

(** ** The request hook of the addon *)

(** [", ".join(values)] *)
Fixpoint join_comma (values : list string) : string :=
  match values with
  | [] => ""
  | [v] => v
  | v :: rest => v ++ ", " ++ join_comma rest
  end.

(** The names that iterating over a [Headers] object yields: the name of
    each field whose name, in lower case, was not seen before. *)
Fixpoint header_keys (h : Headers.t) (seen : list string) : list string :=
  match h with
  | [] => []
  | f :: rest =>
    if existsb (String.eqb (Str.lower f.1)) seen then header_keys rest seen
    else f.1 :: header_keys rest (Str.lower f.1 :: seen)
  end.

(** [dict(headers)]: under each name that the iteration yields, the values
    of the fields of that name, joined. *)
Definition headers_dict (h : Headers.t) : gmap string string :=
  fold_left (fun d key => <[key := join_comma (Headers.get_all h key)]> d)
            (header_keys h []) ∅.

(** The first field of [h] whose name is [key], letter case apart. *)
Definition first_field (h : Headers.t) (key : string) : option (string * string) :=
  List.find (fun f => Headers.same_name f.1 key) h.

(** What the addon uses of [mitmproxy.http]: the responses, and
    [http.Response.make(status_code, content, headers)]. *)
Class HttpLib : Type := {
  Response : Type;
  Response_make : Z -> list byte -> list (string * string) -> Response
}.

(** The body of the response to a blocked request. *)
Definition blocked_body : list byte :=
  list_byte_of_string "Request blocked by OblivionFilter".

(** How a hook ends: it returns, or an exception leaves it. *)
Inductive Outcome : Type := Returned | Raised.

Section Addon.

Context `{Lib : PyLib} `{Http : HttpLib}.

(** What the hooks use of [flow.request]. *)
Record Request : Type := mkRequest {
  pretty_url : string;
  req_method : string;
  req_headers : Headers.t
}.

(** What the hooks use of a flow; [flow_id] is [f"{id(flow)}"]. *)
Record HTTPFlow : Type := mkHTTPFlow {
  flow_id : string;
  request_ : Request;
  response_ : option Response
}.

(** The attributes of an [OblivionFilterAddon] object. *)
Record OblivionFilterAddon : Type := mkAddon {
  filter_engine : FilterEngine;
  content_processor : ContentProcessor;
  network_monitor : NetworkMonitor;
  blocked_requests : Z;
  total_requests : Z
}.

(** [OblivionFilterAddon.__init__] *)
Definition OblivionFilterAddon_new (e : FilterEngine) (cp : ContentProcessor)
    (m : NetworkMonitor) : OblivionFilterAddon :=
  mkAddon e cp m 0 0.

(** [headers.get('content-type', '')] on [dict(flow.request.headers)] *)
Definition request_content_type (flow : HTTPFlow) : string :=
  default "" (headers_dict (req_headers (request_ flow)) !! "content-type").

(** [OblivionFilterAddon.request]. [t_track] is the reading of the clock
    in [track_request], [t_check] and [t_store] the ones in
    [should_block]. When [should_block] raises, the hook is left with the
    request counted and tracked. *)
Definition request (a : OblivionFilterAddon) (flow : HTTPFlow)
    (t_track t_check t_store : Z) : Outcome * OblivionFilterAddon * HTTPFlow :=
  let total := total_requests a + 1 in
  let monitor :=
    track_request (network_monitor a) (flow_id flow)
      (pretty_url (request_ flow)) (req_method (request_ flow)) t_track in
  let headers_ := headers_dict (req_headers (request_ flow)) in
  let content_type_ := request_content_type flow in
  match should_block (filter_engine a) (pretty_url (request_ flow))
          (req_method (request_ flow)) (Some headers_) (Some content_type_)
          t_check t_store with
  | None =>
    (Raised,
     mkAddon (filter_engine a) (content_processor a) monitor
       (blocked_requests a) total,
     flow)
  | Some ((true, rule), e') =>
    (Returned,
     mkAddon e' (content_processor a) monitor (blocked_requests a + 1) total,
     mkHTTPFlow (flow_id flow) (request_ flow)
       (Some (Response_make 403 blocked_body [("Content-Type", "text/plain")])))
  | Some ((false, rule), e') =>
    (Returned,
     mkAddon e' (content_processor a) monitor (blocked_requests a) total,
     mkHTTPFlow (flow_id flow)
       (mkRequest (pretty_url (request_ flow)) (req_method (request_ flow))
          (_add_stealth_headers (req_headers (request_ flow))))
       (response_ flow))
  end.

(** What [OblivionFilterAddon.response] does to the attributes of the
    addon, for a flow with a response: the response is tracked. *)
Definition response_tracked (a : OblivionFilterAddon) (request_id : string)
    (status_code response_size now : Z) : OblivionFilterAddon :=
  mkAddon (filter_engine a) (content_processor a)
    (track_response (network_monitor a) request_id status_code response_size now)
    (blocked_requests a) (total_requests a).

(** ['block_rate'] of [OblivionProxy.get_stats]; [None] when the division
    raises. *)
Definition block_rate (a : OblivionFilterAddon) : option Q :=
  if 0 <? total_requests a
  then py_div (blocked_requests a) (total_requests a)
  else Some 0%Q.

(** The addons that the hooks make of the one that [OblivionProxy.__init__]
    builds: around an engine as [FilterEngine.__init__] and its callers
    leave it, and a new monitor. *)
Inductive serving : OblivionFilterAddon -> Prop :=
| serving_new e cp now :
    reachable e -> serving (OblivionFilterAddon_new e cp (NetworkMonitor_new now))
| serving_request a flow t_track t_check t_store :
    serving a -> serving (request a flow t_track t_check t_store).1.2
| serving_response a request_id status_code response_size now :
    serving a ->
    serving (response_tracked a request_id status_code response_size now).

End Addon.

(** A reference implementation of the interface to [mitmproxy.http]: a
    response is what [http.Response.make] was called with. *)
Module HttpRef.

#[export] Instance lib : HttpLib :=
  Build_HttpLib (Z * list byte * list (string * string))%type
                (fun status_code content headers_ => (status_code, content, headers_)).

End HttpRef.

(** ** More concrete data *)

Module MoreExamples.

Import Examples.
#[local] Existing Instance PyRef.lib.
#[local] Existing Instance HttpRef.lib.

(** A rule that is switched off. *)
Definition disabled_rule : FilterRule :=
  mkFilterRule "banner" "block" None None None None None 0 false "switched off".

(** The banner rule with another priority and another description. *)
Definition urgent_banner_rule : FilterRule :=
  mkFilterRule "ads.example.com" "block" (Some "ads.example.com")
    (Some "/banner") None None None 100 true "banner host, urgent".

(** A body that is no HTML. *)
Definition json_body : list byte := bytes_of_string "{}".

(** A page without a head. *)
Definition headless_page_text : string := "<body><p>Hello</p></body>".

Definition headless_page : list byte := bytes_of_string headless_page_text.

(** A request through a forwarding proxy, with its content type in
    capitals. *)
Definition forwarded_headers : Headers.t :=
  [ ("Host", "Ads.Example.com"); ("Content-Type", "text/plain");
    ("Via", "1.1 squid") ].

Definition ad_flow : HTTPFlow :=
  mkHTTPFlow "140031" (mkRequest ad_url "GET" forwarded_headers) None.

(** The addon of a proxy that was configured to deny the host. *)
Definition denying_addon : OblivionFilterAddon :=
  OblivionFilterAddon_new (FilterEngine_init (Some (Some cfg_deny)))
    ContentProcessor_new (NetworkMonitor_new 0).

(** The connection of a request that was tracked at time 1. *)
Definition pending_connection : Conn.t :=
  Conn.mk "http://example.com/" "GET" 1 0 0 "pending" None None None.

(** A monitor that has seen a thousand responses and tracks one more
    request. *)
Definition busy_monitor : NetworkMonitor :=
  mkNetworkMonitor {[ "140031" := pending_connection ]} [] (replicate 1000 5) ∅ 0.

End MoreExamples.

(** * Properties of rule matching and of letter case *)

Section RuleFacts.

Context `{Lib : PyLib}.

Lemma truthy_dict_true (o : option (gmap string string)) :
  truthy_dict o = true <-> exists d, o = Some d /\ d <> ∅.
Proof.
  destruct o as [d|]; cbn.
  - rewrite negb_true_iff, bool_decide_eq_false. split.
    + intros H. exists d. split; [reflexivity | exact H].
    + intros (d' & [= <-] & H). exact H.
  - split; [discriminate | intros (d & [=] & _)].
Qed.

Lemma truthy_dict_Some (d : gmap string string) :
  d <> ∅ -> truthy_dict (Some d) = true.
Proof. intros H. apply truthy_dict_true. eauto. Qed.

(** The value of [_match_rule] when none of the first three tests
    rejects and both header mappings are non-empty. *)
Lemma match_rule_headers_all rule url m (h rh : gmap string string) ct :
  headers rule = Some rh -> rh <> ∅ -> h <> ∅ ->
  _match_rule rule url m (Some h) ct = true ->
  forallb (fun kv : string * string => bool_decide (h !! kv.1 = Some kv.2))
          (map_to_list rh) = true.
Proof.
  intros Hrh Hne Hh. unfold _match_rule.
  rewrite Hrh, !truthy_dict_Some by assumption. cbn.
  repeat match goal with
         | |- context [if ?b then _ else _] => destruct b; try discriminate
         end.
  all: try (intros; assumption).
Qed.

(** C6 (amended). For a rule with a non-empty headers constraint:
    when the caller supplies a non-empty header mapping, the rule is
    accepted only if every header listed in the rule is in that mapping
    with an equal value; when the caller supplies no headers (none, or an
    empty mapping), the constraint is not examined and the rule is
    accepted exactly as the same rule without a headers constraint is. *)
Theorem headers_constraint_needs_supplied_headers
    (rule : FilterRule) (url m : string) (ct : option string)
    (rh : gmap string string) :
  headers rule = Some rh -> rh <> ∅ ->
  (forall h : gmap string string, h <> ∅ ->
     _match_rule rule url m (Some h) ct = true ->
     forall k v, rh !! k = Some v -> h !! k = Some v) /\
  (forall hs, truthy_dict hs = false ->
     _match_rule rule url m hs ct = _match_rule (without_headers rule) url m hs ct).
Proof.
  intros Hrh Hne. split.
  - intros h Hh Hm k v Hkv.
    pose proof (match_rule_headers_all _ _ _ _ _ _ Hrh Hne Hh Hm) as Hall.
    rewrite forallb_forall in Hall.
    specialize (Hall (k, v)). cbn in Hall.
    eapply bool_decide_eq_true_1, Hall.
    apply list_elem_of_In, elem_of_map_to_list. exact Hkv.
  - intros hs Hhs. unfold _match_rule, without_headers. cbn.
    rewrite Hhs, andb_false_r. reflexivity.
Qed.

End RuleFacts.

(** ** Letter case *)

Lemma lower_char_not_upper c : Str.is_upper (Str.lower_char c) = false.
Proof.
  destruct c as [[] [] [] [] [] [] [] []]; reflexivity.
Qed.

Lemma has_upper_lower s : Str.has_upper (Str.lower s) = false.
Proof.
  induction s as [|c s IH]; [reflexivity|].
  cbn. now rewrite lower_char_not_upper, IH.
Qed.

Lemma lower_fixes_lower_case s : Str.has_upper s = false -> Str.lower s = s.
Proof.
  induction s as [|c s IH]; [reflexivity|].
  cbn. intros [Hc Hs]%orb_false_iff.
  unfold Str.lower_char. now rewrite Hc, IH.
Qed.

Lemma lower_idempotent s : Str.lower (Str.lower s) = Str.lower s.
Proof. apply lower_fixes_lower_case, has_upper_lower. Qed.

(** No lower-cased string equals an entry that has an upper-case letter. *)
Lemma lower_ne_entry_with_upper entry s :
  Str.has_upper entry = true -> Str.lower s <> entry.
Proof.
  intros Hu <-. now rewrite has_upper_lower in Hu.
Qed.

(** * Properties of the filter engine *)

Section EngineFacts.

Context `{Lib : PyLib}.

Implicit Types (e : FilterEngine) (url m key : string)
  (hs : option (gmap string string)) (ct : option string).

(** ** The decision cache *)

Lemma should_block_hit e url m hs ct t1 t2 parsed v :
  urlparse url = Some parsed ->
  cache_fresh e (cache_key m url) t1 = Some v ->
  should_block e url m hs ct t1 t2 = Some ((v, None), e).
Proof.
  intros Hp Hc. unfold should_block. rewrite Hp. cbn zeta. now rewrite Hc.
Qed.

(** A call that returns either answered from the cache and left the engine
    as it was, or stored the verdict it returns. *)
Lemma should_block_inv e url m hs ct t1 t2 v r e' :
  should_block e url m hs ct t1 t2 = Some ((v, r), e') ->
  (cache_fresh e (cache_key m url) t1 = Some v /\ r = None /\ e' = e) \/
  (cache_fresh e (cache_key m url) t1 = None /\
   e' = _update_cache (cache_key m url) v t2 e).
Proof.
  unfold should_block. destruct (urlparse url) as [parsed|]; [|discriminate].
  cbn zeta. destruct (cache_fresh e (cache_key m url) t1) as [v0|].
  - intros [= -> <- <-]. left. easy.
  - intros H. right. split; [reflexivity|].
    repeat match type of H with
           | context [if ?b then _ else _] => destruct b
           | context [match ?o with Some _ => _ | None => _ end] => destruct o
           end; by simplify_eq.
Qed.

Lemma should_block_parses e url m hs ct t1 t2 res :
  should_block e url m hs ct t1 t2 = Some res -> is_Some (urlparse url).
Proof.
  unfold should_block. destruct (urlparse url); [eauto | discriminate].
Qed.

Lemma cache_fresh_Some e key t v :
  cache_fresh e key t = Some v <->
  cache e !! key = Some v /\ t < default 0 (cache_expiry e !! key).
Proof.
  unfold cache_fresh. destruct (cache e !! key) as [v0|];
    [|split; [discriminate | intros [? _]; discriminate]].
  destruct (Z.ltb_spec t (default 0 (cache_expiry e !! key))).
  - split; [intros [= ->]; easy | intros [[= ->] _]; easy].
  - split; [discriminate | intros [_ ?]; lia].
Qed.

(** After a call that returns [v], the cache holds [v] for the key. *)
Lemma should_block_cached e url m hs ct t1 t2 v r e' :
  should_block e url m hs ct t1 t2 = Some ((v, r), e') ->
  cache e' !! cache_key m url = Some v.
Proof.
  intros H. destruct (should_block_inv _ _ _ _ _ _ _ _ _ _ H)
    as [(Hc & _ & ->) | (_ & ->)].
  - now apply cache_fresh_Some in Hc.
  - cbn. apply lookup_insert_eq.
Qed.

Lemma add_rule_cache r e :
  cache (add_rule r e) = cache e /\ cache_expiry (add_rule r e) = cache_expiry e.
Proof. easy. Qed.

Lemma add_rules_cache rs e :
  cache (add_rules rs e) = cache e /\ cache_expiry (add_rules rs e) = cache_expiry e.
Proof.
  revert e. unfold add_rules. induction rs as [|r rs IH]; intros e; [easy|].
  cbn. destruct (IH (add_rule r e)) as [-> ->]. apply add_rule_cache.
Qed.

Lemma load_rule_data_cache rds e :
  cache (load_rule_data rds e).1 = cache e /\
  cache_expiry (load_rule_data rds e).1 = cache_expiry e.
Proof.
  revert e. induction rds as [|[r|] rds IH]; intros e; cbn; [easy| |easy].
  destruct (add_rule_raises r); [apply add_rule_cache|].
  destruct (IH (add_rule r e)) as [-> ->]. apply add_rule_cache.
Qed.

Lemma load_config_cache cfg e :
  cache (load_config cfg e) = cache e /\
  cache_expiry (load_config cfg e) = cache_expiry e.
Proof.
  destruct cfg as [c|]; unfold load_config; [|apply add_rules_cache].
  match goal with |- context [load_rule_data ?rds ?e1] =>
    pose proof (load_rule_data_cache rds e1) as H;
    destruct (load_rule_data rds e1) as [e2 [|]] end; cbn in H.
  - exact H.
  - unfold load_default_rules.
    destruct (add_rules_cache default_rules e2) as [-> ->]. exact H.
Qed.

(** Whatever happens between two requests for [key], the cache entry of
    [key] stays. *)
Lemma evolves_cache key e e' :
  evolves key e e' ->
  cache e' !! key = cache e !! key /\
  cache_expiry e' !! key = cache_expiry e !! key.
Proof.
  induction 1 as [e | r e e' _ IH | cfg e e' _ IH
                 | e e' url m hs ct t1 t2 [v r] e'' _ IH Hk Hs].
  - easy.
  - destruct (add_rule_cache r e') as [-> ->]. exact IH.
  - destruct (load_config_cache cfg e') as [-> ->]. exact IH.
  - destruct (should_block_inv _ _ _ _ _ _ _ _ _ _ Hs)
      as [(_ & _ & ->) | (_ & ->)]; [exact IH|].
    cbn. now rewrite !lookup_insert_ne.
Qed.

(** The time to live is 300 seconds in every engine that the methods of
    the class produce. *)
Lemma reachable_cache_ttl e : reachable e -> cache_ttl e = 300.
Proof.
  assert (Hadd : forall rs e0, cache_ttl (add_rules rs e0) = cache_ttl e0).
  { unfold add_rules. intros rs. induction rs as [|r rs IH]; intros e0; [reflexivity|].
    cbn. now rewrite IH. }
  assert (Hdata : forall rds e0, cache_ttl (load_rule_data rds e0).1 = cache_ttl e0).
  { intros rds. induction rds as [|[r|] rds IH]; intros e0; cbn; [reflexivity| |reflexivity].
    destruct (add_rule_raises r); [reflexivity | now rewrite IH]. }
  assert (Hload : forall cfg e0, cache_ttl (load_config cfg e0) = cache_ttl e0).
  { intros [c|] e0; unfold load_config, load_default_rules; [|apply Hadd].
    match goal with |- context [load_rule_data ?rds ?e1] =>
      pose proof (Hdata rds e1) as H;
      destruct (load_rule_data rds e1) as [e2 [|]] end; cbn in H.
    - exact H.
    - now rewrite Hadd. }
  induction 1 as [cfg | r e _ IH | cfg e _ IH
                 | e url m hs ct t1 t2 [v r] e' _ IH Hs].
  - destruct cfg as [cfg|]; unfold FilterEngine_init, load_default_rules.
    + now rewrite Hload.
    + now rewrite Hadd.
  - exact IH.
  - now rewrite Hload.
  - destruct (should_block_inv _ _ _ _ _ _ _ _ _ _ Hs)
      as [(_ & _ & ->) | (_ & ->)]; exact IH.
Qed.

(** ** Whitelist and blacklist *)

Lemma should_block_whitelisted e url m hs ct t1 t2 parsed :
  urlparse url = Some parsed ->
  cache_fresh e (cache_key m url) t1 = None ->
  str_lower (urllib.netloc parsed) ∈ whitelist_domains e ->
  should_block e url m hs ct t1 t2
  = Some ((false, None), _update_cache (cache_key m url) false t2 e).
Proof.
  intros Hp Hc Hw. unfold should_block. rewrite Hp. cbn zeta. rewrite Hc.
  now rewrite bool_decide_eq_true_2.
Qed.

Lemma should_block_blacklisted e url m hs ct t1 t2 parsed :
  urlparse url = Some parsed ->
  cache_fresh e (cache_key m url) t1 = None ->
  str_lower (urllib.netloc parsed) ∉ whitelist_domains e ->
  str_lower (urllib.netloc parsed) ∈ blacklist_domains e ->
  should_block e url m hs ct t1 t2
  = Some ((true, None), _update_cache (cache_key m url) true t2 e).
Proof.
  intros Hp Hc Hw Hb. unfold should_block. rewrite Hp. cbn zeta. rewrite Hc.
  rewrite bool_decide_eq_false_2 by assumption.
  now rewrite bool_decide_eq_true_2.
Qed.

(** C1 (amended). A request whose lower-cased authority is in the whitelist
    and for which the cache holds no fresh verdict is not blocked, and no
    rule is reported, whatever the blacklist and the rules of the engine
    are. *)
Theorem whitelisted_allowed_on_cache_miss e url m hs ct t1 t2 parsed :
  urlparse url = Some parsed ->
  str_lower (urllib.netloc parsed) ∈ whitelist_domains e ->
  cache_fresh e (cache_key m url) t1 = None ->
  should_block e url m hs ct t1 t2
  = Some ((false, None), _update_cache (cache_key m url) false t2 e).
Proof. intros Hp Hw Hc. now apply should_block_whitelisted with parsed. Qed.

(** C4 (amended). A request whose lower-cased authority is in the blacklist
    and not in the whitelist, and for which the cache holds no fresh
    verdict, is blocked. *)
Theorem blacklisted_blocked_on_cache_miss e url m hs ct t1 t2 parsed :
  urlparse url = Some parsed ->
  str_lower (urllib.netloc parsed) ∈ blacklist_domains e ->
  str_lower (urllib.netloc parsed) ∉ whitelist_domains e ->
  cache_fresh e (cache_key m url) t1 = None ->
  should_block e url m hs ct t1 t2
  = Some ((true, None), _update_cache (cache_key m url) true t2 e).
Proof. intros Hp Hb Hw Hc. now apply should_block_blacklisted with parsed. Qed.

(** C3 (amended). When a call for (method, url) has returned a verdict, a
    later call for the same pair returns the same verdict and reports no
    rule if it is made before the expiry that the cache holds for the pair
    after the first call, whatever rules and configurations were loaded in
    between and whatever headers and content type the later call carries.
    In particular it does so if the first call was not answered from the
    cache and less than 300 seconds pass between the moment the first call
    stores its verdict and the later call. *)
Theorem cached_verdict_stable
    e url m hs ct t1 t1' v r e1 e2 hs2 ct2 t2 t2' :
  should_block e url m hs ct t1 t1' = Some ((v, r), e1) ->
  evolves (cache_key m url) e1 e2 ->
  (t2 < default 0 (cache_expiry e1 !! cache_key m url) ->
   should_block e2 url m hs2 ct2 t2 t2' = Some ((v, None), e2)) /\
  (cache_fresh e (cache_key m url) t1 = None -> cache_ttl e = 300 ->
   t2 - t1' < 300 ->
   should_block e2 url m hs2 ct2 t2 t2' = Some ((v, None), e2)).
Proof.
  intros Hs Hev.
  assert (Hhit : t2 < default 0 (cache_expiry e1 !! cache_key m url) ->
                 should_block e2 url m hs2 ct2 t2 t2' = Some ((v, None), e2)).
  { intros Ht.
    destruct (should_block_parses _ _ _ _ _ _ _ _ Hs) as [parsed Hp].
    apply should_block_hit with parsed; [exact Hp|].
    apply cache_fresh_Some.
    destruct (evolves_cache _ _ _ Hev) as [-> ->].
    split; [|exact Ht]. exact (should_block_cached _ _ _ _ _ _ _ _ _ _ Hs). }
  split; [exact Hhit|].
  intros Hmiss Httl Ht. apply Hhit.
  destruct (should_block_inv _ _ _ _ _ _ _ _ _ _ Hs)
    as [(Hc & _) | (_ & ->)]; [congruence|].
  cbn. rewrite lookup_insert_eq, Httl. cbn. lia.
Qed.

(** ** The indices *)

Lemma index_append_elem (d : gmap string (list FilterRule)) k r0 r :
  (exists k' l, index_append k r0 d !! k' = Some l /\ r ∈ l) <->
  (exists k' l, d !! k' = Some l /\ r ∈ l) \/ r = r0.
Proof.
  unfold index_append. split.
  - intros (k' & l & Hl & Hr). destruct (decide (k = k')) as [<-|Hne].
    + rewrite lookup_insert_eq in Hl. injection Hl as <-.
      apply elem_of_app in Hr as [Hr | Hr].
      * left. destruct (d !! k) as [l0|] eqn:E; [eauto|]. now apply elem_of_nil in Hr.
      * right. now apply list_elem_of_singleton in Hr.
    + rewrite lookup_insert_ne in Hl by assumption. left. eauto.
  - intros [(k' & l & Hl & Hr) | ->].
    + destruct (decide (k = k')) as [<-|Hne].
      * exists k. eexists. rewrite lookup_insert_eq. split; [reflexivity|].
        rewrite Hl. cbn. apply elem_of_app. now left.
      * exists k', l. now rewrite lookup_insert_ne.
    + exists k. eexists. rewrite lookup_insert_eq. split; [reflexivity|].
      apply elem_of_app. right. now apply list_elem_of_singleton.
Qed.

Lemma index_inv_new : index_inv FilterEngine_new.
Proof.
  intros r. unfold in_domain_index, in_path_index. cbn.
  split; [|split; [|intros regex]];
    (split; [|intros [H _]; now apply elem_of_nil in H]).
  - intros (k & l & Hl & _). now rewrite lookup_empty in Hl.
  - intros (k & l & Hl & _). now rewrite lookup_empty in Hl.
  - intros H. now apply elem_of_nil in H.
Qed.

Lemma index_inv_add_rule r0 e : index_inv e -> index_inv (add_rule r0 e).
Proof.
  intros Hinv r. destruct (Hinv r) as (Hd & Hp & Hr).
  unfold in_domain_index, in_path_index in *. cbn.
  assert (Hin : r ∈ (rules e ++ [r0])%list <-> r ∈ rules e \/ r = r0).
  { rewrite elem_of_app, list_elem_of_singleton. reflexivity. }
  split; [|split].
  - destruct (Str.truthy_opt (domain r0)) eqn:E.
    + rewrite index_append_elem, Hd, Hin. intuition (subst; auto).
    + rewrite Hd, Hin. intuition (subst; auto; congruence).
  - destruct (Str.truthy_opt (path r0)) eqn:E.
    + rewrite index_append_elem, Hp, Hin. intuition (subst; auto).
    + rewrite Hp, Hin. intuition (subst; auto; congruence).
  - intros regex. rewrite Hin.
    destruct (has_regex_meta (pattern r0)) eqn:E;
      [destruct (re_compile (pattern r0) RE_IGNORECASE) as [rx0|] eqn:Ec|].
    + rewrite elem_of_app, list_elem_of_singleton, Hr.
      split.
      * intros [H | [= -> ->]]; [tauto | auto].
      * intros ([H | ->] & Hm & Hc); [left; auto | right; congruence].
    + rewrite Hr. intuition (subst; auto; congruence).
    + rewrite Hr. intuition (subst; auto; congruence).
Qed.

Lemma index_inv_add_rules rs e : index_inv e -> index_inv (add_rules rs e).
Proof.
  revert e. unfold add_rules. induction rs as [|r rs IH]; intros e He; [exact He|].
  cbn. apply IH. now apply index_inv_add_rule.
Qed.

(** Assigning the whitelist, the blacklist or the cache leaves the indices
    as they are. *)
Lemma index_inv_same_indices e e' :
  rules e' = rules e -> domain_rules e' = domain_rules e ->
  path_rules e' = path_rules e -> regex_rules e' = regex_rules e ->
  index_inv e -> index_inv e'.
Proof.
  intros H1 H2 H3 H4 Hinv r. unfold in_domain_index, in_path_index.
  rewrite H1, H2, H3, H4. apply Hinv.
Qed.

Lemma index_inv_load_rule_data rds e :
  index_inv e -> index_inv (load_rule_data rds e).1.
Proof.
  revert e. induction rds as [|[r|] rds IH]; intros e He; cbn; [exact He| |exact He].
  destruct (add_rule_raises r); [now apply index_inv_add_rule|].
  apply IH. now apply index_inv_add_rule.
Qed.

Lemma index_inv_load_config cfg e : index_inv e -> index_inv (load_config cfg e).
Proof.
  intros He. destruct cfg as [c|]; unfold load_config;
    [|now apply index_inv_add_rules].
  match goal with |- context [load_rule_data ?rds ?e1] =>
    pose proof (index_inv_load_rule_data rds e1) as H;
    destruct (load_rule_data rds e1) as [e2 [|]] end; cbn in H.
  - apply H. now apply (index_inv_same_indices e).
  - apply index_inv_add_rules, H. now apply (index_inv_same_indices e).
Qed.

Lemma index_inv_reachable e : reachable e -> index_inv e.
Proof.
  induction 1 as [cfg | r e _ IH | cfg e _ IH
                 | e url m hs ct t1 t2 [v r] e' _ IH Hs].
  - destruct cfg as [cfg|]; unfold FilterEngine_init, load_default_rules.
    + apply index_inv_load_config, index_inv_new.
    + apply index_inv_add_rules, index_inv_new.
  - now apply index_inv_add_rule.
  - now apply index_inv_load_config.
  - destruct (should_block_inv _ _ _ _ _ _ _ _ _ _ Hs)
      as [(_ & _ & ->) | (_ & ->)]; [exact IH|].
    now apply (index_inv_same_indices e).
Qed.

(** C2 (amended). In every engine that the methods of the class produce, a
    rule is in the domain index exactly when it was added with a domain,
    in the path index exactly when it was added with a path, and in the
    regex index exactly when it was added with a pattern that has a regex
    metacharacter and compiles; the three memberships are independent of
    one another. The literal tier holds the added rules with no domain, no
    path and no metacharacter, and membership in it excludes membership
    in each of the three indices. *)
Theorem rule_tiers_of_reachable_engine e r :
  reachable e ->
  (in_domain_index e r <-> r ∈ rules e /\ Str.truthy_opt (domain r) = true) /\
  (in_path_index e r <-> r ∈ rules e /\ Str.truthy_opt (path r) = true) /\
  (in_regex_index e r <->
     r ∈ rules e /\ has_regex_meta (pattern r) = true /\
     is_Some (re_compile (pattern r) RE_IGNORECASE)) /\
  (in_literal_tier e r <->
     r ∈ rules e /\ Str.truthy_opt (domain r) = false /\
     Str.truthy_opt (path r) = false /\ has_regex_meta (pattern r) = false) /\
  (in_literal_tier e r ->
     ~ in_domain_index e r /\ ~ in_path_index e r /\ ~ in_regex_index e r).
Proof.
  intros Hreach. destruct (index_inv_reachable e Hreach r) as (Hd & Hp & Hr).
  assert (Hx : in_regex_index e r <->
     r ∈ rules e /\ has_regex_meta (pattern r) = true /\
     is_Some (re_compile (pattern r) RE_IGNORECASE)).
  { unfold in_regex_index. split.
    - intros (regex & H). apply Hr in H as (? & ? & ->). eauto.
    - intros (H1 & H2 & regex & H3). exists regex. apply Hr. auto. }
  assert (Hl : in_literal_tier e r <->
     r ∈ rules e /\ Str.truthy_opt (domain r) = false /\
     Str.truthy_opt (path r) = false /\ has_regex_meta (pattern r) = false).
  { unfold in_literal_tier, indexed_elsewhere.
    rewrite !orb_false_iff. tauto. }
  split; [exact Hd|]. split; [exact Hp|]. split; [exact Hx|]. split; [exact Hl|].
  intros H. apply Hl in H. destruct H as (_ & H1 & H2 & H3).
  split; [|split]; intros Hin.
  - apply Hd in Hin. destruct Hin. congruence.
  - apply Hp in Hin. destruct Hin. congruence.
  - apply Hx in Hin. destruct Hin as (_ & ? & _). congruence.
Qed.

End EngineFacts.

Section EngineCaseFacts.

Context `{Lib : PyLib}.

Implicit Types (e : FilterEngine) (url m key : string)
  (hs : option (gmap string string)) (ct : option string).

Lemma load_config_lists c e :
  whitelist_domains (load_config (Some c) e) = list_to_set (cfg_whitelist_domains c) /\
  blacklist_domains (load_config (Some c) e) = list_to_set (cfg_blacklist_domains c).
Proof.
  assert (Hadd : forall rs e0, whitelist_domains (add_rules rs e0) = whitelist_domains e0 /\
                               blacklist_domains (add_rules rs e0) = blacklist_domains e0).
  { unfold add_rules. intros rs. induction rs as [|r rs IH]; intros e0; [easy|].
    cbn. destruct (IH (add_rule r e0)) as [-> ->]. easy. }
  assert (Hload : forall rds e0,
             whitelist_domains (load_rule_data rds e0).1 = whitelist_domains e0 /\
             blacklist_domains (load_rule_data rds e0).1 = blacklist_domains e0).
  { intros rds. induction rds as [|[r|] rds IH]; intros e0; cbn; [easy| |easy].
    destruct (add_rule_raises r); [easy|].
    destruct (IH (add_rule r e0)) as [-> ->]. easy. }
  unfold load_config.
  match goal with |- context [load_rule_data ?rds ?e1] =>
    pose proof (Hload rds e1) as H;
    destruct (load_rule_data rds e1) as [e2 [|]] end; cbn in H.
  - exact H.
  - unfold load_default_rules. destruct (Hadd default_rules e2) as [-> ->]. exact H.
Qed.

(** An entry that no lower-cased authority equals can be taken out of both
    lists without changing what [should_block] returns. *)
Lemma should_block_without_entry e entry url m hs ct t1 t2 :
  (forall parsed, urlparse url = Some parsed ->
                  str_lower (urllib.netloc parsed) <> entry) ->
  returned (should_block (without_entry entry e) url m hs ct t1 t2)
  = returned (should_block e url m hs ct t1 t2).
Proof.
  intros Hne. unfold returned, should_block.
  destruct (urlparse url) as [parsed|] eqn:Hp; [|reflexivity].
  specialize (Hne parsed eq_refl). cbn zeta.
  change (cache_fresh (without_entry entry e) (cache_key m url) t1)
    with (cache_fresh e (cache_key m url) t1).
  destruct (cache_fresh e (cache_key m url) t1); [reflexivity|].
  set (d := str_lower (urllib.netloc parsed)) in *.
  assert (Hw : bool_decide (d ∈ whitelist_domains (without_entry entry e))
               = bool_decide (d ∈ whitelist_domains e)).
  { apply bool_decide_ext. cbn. rewrite elem_of_difference, elem_of_singleton.
    tauto. }
  assert (Hb : bool_decide (d ∈ blacklist_domains (without_entry entry e))
               = bool_decide (d ∈ blacklist_domains e)).
  { apply bool_decide_ext. cbn. rewrite elem_of_difference, elem_of_singleton.
    tauto. }
  rewrite Hw, Hb. cbn [domain_rules path_rules regex_rules rules without_entry].
  repeat match goal with
         | |- context [if ?b then _ else _] => destruct b; try reflexivity
         | |- context [match ?o with Some _ => _ | None => _ end] =>
             destruct o; try reflexivity
         end.
Qed.

(** C9 (amended). [load_config] stores the whitelist and blacklist entries
    as they are in the configuration, and [should_block] compares them
    with the authority after [str.lower]. Of [str.lower] two facts are
    used: lower-casing twice is lower-casing once, and no lower-cased text
    has one of the letters A to Z. So an entry that [str.lower] would
    change, an entry with a letter A to Z in particular, is never matched:
    with or without it in the lists, every request gets the same answer.
    And an entry that [str.lower] leaves as it is, is matched by every
    authority that has the same lower-casing: on a cache miss the request
    is allowed when the entry is in the whitelist, and blocked when it is
    in the blacklist and not in the whitelist. *)
Theorem list_entries_compared_with_lowercased_authority
    e entry url m hs ct t1 t2 :
  (forall s, str_lower (str_lower s) = str_lower s) ->
  (forall s, Str.has_upper (str_lower s) = false) ->
  (forall c e0,
     whitelist_domains (load_config (Some c) e0)
       = list_to_set (cfg_whitelist_domains c) /\
     blacklist_domains (load_config (Some c) e0)
       = list_to_set (cfg_blacklist_domains c)) /\
  (Str.has_upper entry = true -> str_lower entry <> entry) /\
  (str_lower entry <> entry ->
     (forall parsed, urlparse url = Some parsed ->
        str_lower (urllib.netloc parsed) <> entry) /\
     returned (should_block (without_entry entry e) url m hs ct t1 t2)
     = returned (should_block e url m hs ct t1 t2)) /\
  (str_lower entry = entry ->
     forall parsed, urlparse url = Some parsed ->
     str_lower (urllib.netloc parsed) = str_lower entry ->
     str_lower (urllib.netloc parsed) = entry /\
     (cache_fresh e (cache_key m url) t1 = None ->
      (entry ∈ whitelist_domains e ->
         returned (should_block e url m hs ct t1 t2) = Some (false, None)) /\
      (entry ∈ blacklist_domains e -> entry ∉ whitelist_domains e ->
         returned (should_block e url m hs ct t1 t2) = Some (true, None)))).
Proof.
  intros Hidem Hlow.
  split; [apply load_config_lists|]. split; [|split].
  - intros Hu Heq. specialize (Hlow entry). rewrite Heq in Hlow. congruence.
  - intros Hch.
    assert (Hne : forall parsed, urlparse url = Some parsed ->
                    str_lower (urllib.netloc parsed) <> entry).
    { intros parsed _ Heq. apply Hch. rewrite <- Heq. apply Hidem. }
    split; [exact Hne|]. now apply should_block_without_entry.
  - intros Hfix parsed Hp Heq.
    rewrite Hfix in Heq.
    split; [exact Heq|]. intros Hc. split.
    + intros Hw. rewrite <- Heq in Hw.
      unfold returned. now rewrite (should_block_whitelisted _ _ _ _ _ _ _ _ Hp Hc Hw).
    + intros Hb Hw. rewrite <- Heq in Hb, Hw.
      unfold returned. now rewrite (should_block_blacklisted _ _ _ _ _ _ _ _ Hp Hc Hw Hb).
Qed.

(** ** The tier of a single rule *)

Lemma regex_rules_compiled e regex r :
  reachable e -> (regex, r) ∈ regex_rules e ->
  has_regex_meta (pattern r) = true /\
  re_compile (pattern r) RE_IGNORECASE = Some regex.
Proof.
  intros Hreach Hin.
  destruct (index_inv_reachable e Hreach r) as (_ & _ & Hr).
  apply Hr in Hin. tauto.
Qed.

Lemma match_rule_default p a d url m hs ct :
  _match_rule (FilterRule_default p a d) url m hs ct = true.
Proof. reflexivity. Qed.

(** An engine that holds one block rule made of a pattern only decides by
    that pattern: by [search] on the pattern compiled with
    [re.IGNORECASE] when the pattern has a metacharacter, by substring
    containment when it has none. *)
Lemma single_rule_verdict p d url m hs ct t1 t2 parsed :
  urlparse url = Some parsed ->
  verdict_of (should_block (add_rule (FilterRule_default p "block" d) FilterEngine_new)
                           url m hs ct t1 t2)
  = Some (if has_regex_meta p then
            match re_compile p RE_IGNORECASE with
            | Some regex => re_search regex url
            | None => false
            end
          else Str.contains p url).
Proof.
  intros Hp. unfold should_block, verdict_of. rewrite Hp. cbn zeta.
  unfold cache_fresh. cbn [cache add_rule FilterEngine_new].
  rewrite lookup_empty.
  rewrite !bool_decide_eq_false_2 by (cbn; set_solver).
  cbn [domain_rules path_rules add_rule FilterEngine_new domain path
       FilterRule_default Str.truthy_opt].
  rewrite !lookup_empty. cbn [default first_match find].
  cbn [regex_rules rules add_rule FilterEngine_new pattern FilterRule_default app].
  unfold first_literal_match, indexed_elsewhere.
  cbn [find domain path pattern FilterRule_default Str.truthy_opt orb].
  destruct (has_regex_meta p) eqn:Hm.
  - destruct (re_compile p RE_IGNORECASE) as [regex|] eqn:Hc.
    + unfold first_regex_match. cbn [find app].
      rewrite match_rule_default, andb_true_r.
      destruct (re_search regex url); reflexivity.
    + reflexivity.
  - unfold first_regex_match. cbn [find fmap option_fmap option_map negb andb].
    rewrite match_rule_default, andb_true_r.
    destruct (Str.contains p url); reflexivity.
Qed.

End EngineCaseFacts.

(** * Properties of the stealth headers *)

Module HeadersFacts.
Import Headers.

Lemma same_name_spec a b : same_name a b = true <-> Str.lower a = Str.lower b.
Proof. unfold same_name. apply String.eqb_eq. Qed.

Lemma same_name_sym a b : same_name a b = same_name b a.
Proof. unfold same_name. apply String.eqb_sym. Qed.

(** Two names that are the same name are the same name as the same
    names. *)
Lemma same_name_trans_l a b x :
  same_name a b = true -> same_name a x = same_name b x.
Proof.
  intros H%same_name_spec. unfold same_name. now rewrite H.
Qed.

Lemma contains_get_all h name :
  contains h name = match get_all h name with [] => false | _ => true end.
Proof.
  unfold contains, get_all. induction h as [|f h IH]; [reflexivity|].
  cbn. destruct (same_name f.1 name); [reflexivity | exact IH].
Qed.

Lemma get_all_nil x : get_all [] x = [].
Proof. reflexivity. Qed.

Lemma get_all_cons f h x :
  get_all (f :: h) x = if same_name f.1 x then f.2 :: get_all h x else get_all h x.
Proof. unfold get_all. cbn. now destruct (same_name f.1 x). Qed.

Lemma get_all_delete h name x :
  get_all (delete h name) x = if same_name x name then [] else get_all h x.
Proof.
  induction h as [|f h IH].
  - cbn. now destruct (same_name x name).
  - unfold delete in *. cbn [List.filter]. rewrite get_all_cons.
    destruct (same_name f.1 name) eqn:E; cbn [negb].
    + rewrite IH, (same_name_trans_l _ _ x E), (same_name_sym name x).
      now destruct (same_name x name).
    + rewrite get_all_cons, IH.
      destruct (same_name f.1 x) eqn:E'; destruct (same_name x name) eqn:E'';
        try reflexivity.
      rewrite (same_name_trans_l _ _ name E') in E. congruence.
Qed.

Lemma get_all_replace_fields h name value placed x :
  get_all (replace_fields h name value placed) x =
  if same_name x name then
    (if placed then [] else if contains h name then [value] else [])
  else get_all h x.
Proof.
  revert placed. induction h as [|f h IH]; intros placed.
  - cbn. now destruct (same_name x name), placed.
  - cbn [replace_fields]. unfold contains. cbn [existsb]. fold (contains h name).
    rewrite (get_all_cons f h).
    destruct (same_name f.1 name) eqn:E; cbn [orb].
    + rewrite (same_name_trans_l _ _ x E), (same_name_sym name x).
      destruct placed.
      * rewrite IH. now destruct (same_name x name).
      * rewrite get_all_cons, IH. cbn [fst snd].
        rewrite (same_name_trans_l _ _ x E), (same_name_sym name x).
        now destruct (same_name x name).
    + rewrite get_all_cons, IH.
      destruct (same_name f.1 x) eqn:E'; destruct (same_name x name) eqn:E'';
        try reflexivity.
      rewrite (same_name_trans_l _ _ name E') in E. congruence.
Qed.

Lemma get_all_app (h1 h2 : t) x :
  get_all (h1 ++ h2)%list x = (get_all h1 x ++ get_all h2 x)%list.
Proof.
  induction h1 as [|f h1 IH]; [reflexivity|].
  cbn [app]. rewrite !get_all_cons, IH. now destruct (same_name f.1 x).
Qed.

Lemma get_all_same_name h a b :
  same_name a b = true -> get_all h a = get_all h b.
Proof.
  intros H. induction h as [|f h IH]; [reflexivity|].
  rewrite !get_all_cons, IH, !(same_name_sym f.1), (same_name_trans_l _ _ _ H).
  reflexivity.
Qed.

(** After [headers[name] = value] the header [name] has the single value
    [value], and every other header is as before. *)
Lemma get_all_set h name value x :
  get_all (set h name value) x = if same_name x name then [value] else get_all h x.
Proof.
  unfold set. destruct (contains h name) eqn:E.
  - rewrite get_all_replace_fields, E. reflexivity.
  - rewrite get_all_app, get_all_cons, get_all_nil. cbn [fst snd].
    rewrite (same_name_sym name x).
    destruct (same_name x name) eqn:E'; [|apply app_nil_r].
    rewrite contains_get_all in E.
    rewrite (get_all_same_name h x name E').
    now destruct (get_all h name).
Qed.

Lemma contains_same_name h a b :
  same_name a b = true -> contains h a = contains h b.
Proof. intros H. now rewrite !contains_get_all, (get_all_same_name h a b H). Qed.

Lemma contains_set h name value x :
  contains (set h name value) x = (same_name x name || contains h x)%bool.
Proof.
  rewrite !contains_get_all, get_all_set. now destruct (same_name x name).
Qed.

Lemma get_all_absent h a x :
  contains h a = false -> same_name x a = true -> get_all h x = [].
Proof.
  intros Hc Hs. rewrite (get_all_same_name h x a Hs).
  rewrite contains_get_all in Hc. now destruct (get_all h a).
Qed.

Lemma get_all_set_if_absent name value h x :
  get_all (set_if_absent name value h) x =
  if same_name x name then (if contains h name then get_all h x else [value])
  else get_all h x.
Proof.
  unfold set_if_absent. destruct (contains h name) eqn:E; cbn [negb].
  - now destruct (same_name x name).
  - apply get_all_set.
Qed.

Lemma contains_set_if_absent name value h x :
  contains (set_if_absent name value h) x = (same_name x name || contains h x)%bool.
Proof.
  unfold set_if_absent. destruct (contains h name) eqn:E; cbn [negb].
  - destruct (same_name x name) eqn:E'; [|reflexivity].
    now rewrite (contains_same_name h x name E'), E.
  - apply contains_set.
Qed.

Lemma get_all_remove_headers names h x :
  get_all (remove_headers names h) x = if name_in x names then [] else get_all h x.
Proof.
  unfold remove_headers, name_in. revert h.
  induction names as [|n names IH]; intros h; [reflexivity|].
  cbn [fold_left existsb]. rewrite IH.
  destruct (existsb (same_name x) names); [now rewrite orb_true_r|].
  rewrite orb_false_r. destruct (contains h n) eqn:E.
  - apply get_all_delete.
  - destruct (same_name x n) eqn:E'; [|reflexivity].
    now apply get_all_absent with n.
Qed.

Lemma contains_remove_headers names h x :
  contains (remove_headers names h) x = (negb (name_in x names) && contains h x)%bool.
Proof.
  rewrite !contains_get_all, get_all_remove_headers. now destruct (name_in x names).
Qed.

(** The values of a header after [_add_stealth_headers], from the headers
    before it. *)
Lemma get_all_stealth h name :
  get_all (_add_stealth_headers h) name =
  if same_name name "upgrade-insecure-requests" then ["1"]
  else if same_name name "connection" then ["keep-alive"]
  else if same_name name "dnt" then ["1"]
  else if same_name name "accept-encoding" then
    (if contains h name then get_all h name else ["gzip, deflate"])
  else if same_name name "accept-language" then
    (if contains h name then get_all h name else ["en-US,en;q=0.5"])
  else if same_name name "accept" then
    (if contains h name then get_all h name else [default_accept])
  else if same_name name "user-agent" then
    (if contains h name then get_all h name else [default_user_agent])
  else if name_in name headers_to_remove then [] else get_all h name.
Proof.
  unfold _add_stealth_headers.
  rewrite !get_all_set.
  destruct (same_name name "upgrade-insecure-requests"); [reflexivity|].
  destruct (same_name name "connection"); [reflexivity|].
  destruct (same_name name "dnt"); [reflexivity|].
  rewrite !get_all_set_if_absent, !contains_set_if_absent, !contains_remove_headers,
    !get_all_remove_headers.
  change (name_in "accept-encoding" headers_to_remove) with false.
  change (name_in "accept-language" headers_to_remove) with false.
  change (name_in "accept" headers_to_remove) with false.
  change (name_in "user-agent" headers_to_remove) with false.
  repeat match goal with
         | |- context [same_name ?a ?b] =>
             lazymatch a with
             | String _ _ => change (same_name a b) with false
             end
         end.
  cbn [negb andb orb].
  destruct (same_name name "accept-encoding") eqn:E1.
  { rewrite <- (contains_same_name h _ _ E1).
    destruct (contains h name) eqn:Ec; [|reflexivity].
    apply same_name_spec in E1. unfold same_name, name_in.
    cbn [existsb headers_to_remove]. unfold same_name. rewrite !E1. reflexivity. }
  destruct (same_name name "accept-language") eqn:E2.
  { rewrite <- (contains_same_name h _ _ E2).
    destruct (contains h name) eqn:Ec; [|reflexivity].
    apply same_name_spec in E2. unfold same_name, name_in.
    cbn [existsb headers_to_remove]. unfold same_name. rewrite !E2. reflexivity. }
  destruct (same_name name "accept") eqn:E3.
  { rewrite <- (contains_same_name h _ _ E3).
    destruct (contains h name) eqn:Ec; [|reflexivity].
    apply same_name_spec in E3. unfold same_name, name_in.
    cbn [existsb headers_to_remove]. unfold same_name. rewrite !E3. reflexivity. }
  destruct (same_name name "user-agent") eqn:E4.
  { rewrite <- (contains_same_name h _ _ E4).
    destruct (contains h name) eqn:Ec; [|reflexivity].
    apply same_name_spec in E4. unfold same_name, name_in.
    cbn [existsb headers_to_remove]. unfold same_name. rewrite !E4. reflexivity. }
  reflexivity.
Qed.

End HeadersFacts.

Section StealthFacts.
Import Headers HeadersFacts.

Lemma name_in_false_cons x n names :
  name_in x (n :: names) = false -> same_name x n = false /\ name_in x names = false.
Proof. unfold name_in. cbn. apply orb_false_iff. Qed.

(** C5 (amended). After the stealth-header step: each of the five
    proxy-identifying headers is gone; [dnt], [connection] and
    [upgrade-insecure-requests] have the fixed values ["1"], ["keep-alive"]
    and ["1"], whether or not the request had them; [user-agent], [accept],
    [accept-language] and [accept-encoding] have their default value only
    when the request did not have them; and every header of the original
    request that is neither one of the five stripped ones nor one of the
    three assigned ones has its original values. No other header is
    added. *)
Theorem stealth_headers_effect (h : Headers.t) (name : string) :
  (name_in name headers_to_remove = true ->
     get_all (_add_stealth_headers h) name = []) /\
  (forall n v, In (n, v) forced_headers -> same_name name n = true ->
     get_all (_add_stealth_headers h) name = [v]) /\
  (forall n v, In (n, v) filled_headers -> same_name name n = true ->
     get_all (_add_stealth_headers h) name =
       if contains h name then get_all h name else [v]) /\
  (name_in name headers_to_remove = false ->
   name_in name (fst <$> forced_headers) = false ->
   contains h name = true \/ name_in name (fst <$> filled_headers) = false ->
     get_all (_add_stealth_headers h) name = get_all h name).
Proof.
  rewrite get_all_stealth. split; [|split; [|split]].
  - intros Hin. unfold name_in, same_name in *. cbn [existsb headers_to_remove] in Hin.
    cbn [Str.lower Str.lower_char Str.is_upper] in *.
    repeat match type of Hin with
           | (String.eqb ?a ?b || _)%bool = true =>
               destruct (String.eqb_spec a b) as [->|_]; [reflexivity|];
               cbn [orb] in Hin
           end.
    discriminate.
  - intros n v Hin Hs.
    cbn in Hin. destruct Hin as [[= <- <-] | [[= <- <-] | [[= <- <-] | []]]];
      apply same_name_spec in Hs; unfold same_name; rewrite Hs; reflexivity.
  - intros n v Hin Hs.
    cbn in Hin.
    destruct Hin as [[= <- <-] | [[= <- <-] | [[= <- <-] | [[= <- <-] | []]]]];
      apply same_name_spec in Hs; unfold same_name; rewrite Hs; reflexivity.
  - intros Hr Hf Hc. rewrite Hr.
    cbn [fmap list_fmap forced_headers fst] in Hf.
    apply name_in_false_cons in Hf as [-> Hf].
    apply name_in_false_cons in Hf as [-> Hf].
    apply name_in_false_cons in Hf as [-> _].
    destruct Hc as [Hc | Hc].
    + rewrite Hc.
      repeat match goal with
             | |- context [if ?b then _ else _] => destruct b; try reflexivity
             end.
    + cbn [fmap list_fmap filled_headers fst] in Hc.
      apply name_in_false_cons in Hc as [H1 Hc].
      apply name_in_false_cons in Hc as [H2 Hc].
      apply name_in_false_cons in Hc as [H3 Hc].
      apply name_in_false_cons in Hc as [H4 _].
      rewrite H1, H2, H3, H4. reflexivity.
Qed.

Lemma stealth_headers_effect_witness :
  let h := [("Via", "1.1 proxy"); ("User-Agent", "curl/8.0"); ("X-Trace", "abc")] in
  get_all (_add_stealth_headers h) "via" = [] /\
  get_all (_add_stealth_headers h) "DNT" = ["1"] /\
  get_all (_add_stealth_headers h) "user-agent" = ["curl/8.0"] /\
  get_all (_add_stealth_headers h) "accept" = [default_accept] /\
  get_all (_add_stealth_headers h) "x-trace" = ["abc"].
Proof.
  intros h. split; [|split; [|split; [|split]]].
  - destruct (stealth_headers_effect h "via") as (H & _). apply H. reflexivity.
  - destruct (stealth_headers_effect h "DNT") as (_ & H & _).
    apply (H "dnt" "1"); [cbn; tauto | reflexivity].
  - destruct (stealth_headers_effect h "user-agent") as (_ & _ & H & _).
    apply (H "user-agent" default_user_agent); [cbn; tauto | reflexivity].
  - destruct (stealth_headers_effect h "accept") as (_ & _ & H & _).
    apply (H "accept" default_accept); [cbn; tauto | reflexivity].
  - destruct (stealth_headers_effect h "x-trace") as (_ & _ & _ & H).
    apply H; [reflexivity | reflexivity | left; reflexivity].
Defined.

(** C5, as stated, fails: a [connection] header of the original request,
    which is none of the five stripped headers, does not keep its value. *)
Lemma present_connection_header_overwritten :
  let h := [("connection", "close")] in
  contains h "connection" = true /\
  name_in "connection" headers_to_remove = false /\
  get_all h "connection" = ["close"] /\
  get_all (_add_stealth_headers h) "connection" = ["keep-alive"].
Proof. repeat split. Qed.

End StealthFacts.

(** * Properties of the UTF-8 codec *)

Module Utf8Facts.
Import Utf8.

Lemma Z_of_byte_range b : 0 <= Z_of_byte b <= 255.
Proof.
  unfold Z_of_byte. pose proof (Byte.to_N_bounded b). lia.
Qed.

Lemma byte_of_Z_of_byte b : byte_of_Z (Z_of_byte b) = b.
Proof.
  unfold byte_of_Z, Z_of_byte. now rewrite N2Z.id, Byte.of_to_N.
Qed.

Lemma in_range_true lo hi x : lo <= x <= hi -> in_range lo hi x = true.
Proof. unfold in_range. intros. apply andb_true_iff. split; lia. Qed.

Lemma in_range_false lo hi x : x < lo \/ hi < x -> in_range lo hi x = false.
Proof. unfold in_range. intros. apply andb_false_iff. lia. Qed.

Lemma in_range_spec lo hi x : in_range lo hi x = true <-> lo <= x <= hi.
Proof. unfold in_range. rewrite andb_true_iff. lia. Qed.

(** One step of the decoder: the first character, the bytes it was read
    from, which are its UTF-8 form, and the bytes left. *)
Lemma decode_step bs s :
  decode bs = Some s ->
  (bs = [] /\ s = []) \/
  exists c chunk rest s',
    bs = (chunk ++ rest)%list /\ s = c :: s' /\ chunk <> [] /\
    decode rest = Some s' /\ encode_char c = Some chunk.
Proof.
  destruct bs as [|b0 r0]; [intros [= <-]; now left|].
  intros H. right. cbn [decode] in H.
  pose proof (Z_of_byte_range b0) as R0.
  set (x0 := Z_of_byte b0) in *.
  destruct (Z.ltb_spec x0 0x80) as [L0|L0].
  { (* one byte *)
    destruct (decode r0) as [s'|] eqn:E; [|discriminate]. injection H as <-.
    exists x0, [b0], r0, s'.
    split; [reflexivity|]. split; [reflexivity|]. split; [discriminate|].
    split; [exact E|].
    unfold encode_char. rewrite in_range_true by lia.
    subst x0. now rewrite byte_of_Z_of_byte. }
  destruct (in_range 0xC2 0xDF x0) eqn:T2.
  { (* two bytes *)
    apply in_range_spec in T2.
    destruct r0 as [|b1 r1]; [discriminate|].
    pose proof (Z_of_byte_range b1) as R1. set (x1 := Z_of_byte b1) in *.
    unfold is_cont in H. destruct (in_range 0x80 0xBF x1) eqn:C1; [|discriminate].
    apply in_range_spec in C1.
    destruct (decode r1) as [s'|] eqn:E; [|discriminate]. injection H as <-.
    exists ((x0 - 0xC0) * 64 + (x1 - 0x80)), [b0; b1], r1, s'.
    split; [reflexivity|]. split; [reflexivity|]. split; [discriminate|].
    split; [exact E|].
    unfold encode_char.
    rewrite in_range_false by lia. rewrite in_range_true by lia.
    replace (0xC0 + ((x0 - 0xC0) * 64 + (x1 - 0x80)) / 64) with x0
      by (Z.div_mod_to_equations; lia).
    replace (0x80 + ((x0 - 0xC0) * 64 + (x1 - 0x80)) mod 64) with x1
      by (Z.div_mod_to_equations; lia).
    subst x0 x1. now rewrite !byte_of_Z_of_byte. }
  destruct (in_range 0xE0 0xEF x0) eqn:T3.
  { (* three bytes *)
    apply in_range_spec in T3.
    destruct r0 as [|b1 [|b2 r2]]; [discriminate|discriminate|].
    pose proof (Z_of_byte_range b1) as R1. set (x1 := Z_of_byte b1) in *.
    pose proof (Z_of_byte_range b2) as R2. set (x2 := Z_of_byte b2) in *.
    unfold is_cont in H.
    match type of H with
    | (if (in_range ?lo ?hi x1 && _)%bool then _ else _) = _ =>
        destruct (in_range lo hi x1) eqn:C1; [|discriminate]
    end.
    destruct (in_range 0x80 0xBF x2) eqn:C2; [|discriminate].
    apply in_range_spec in C1, C2. cbn [andb] in H.
    destruct (decode r2) as [s'|] eqn:E; [|discriminate]. injection H as <-.
    exists (((x0 - 0xE0) * 64 + (x1 - 0x80)) * 64 + (x2 - 0x80)), [b0; b1; b2], r2, s'.
    split; [reflexivity|]. split; [reflexivity|]. split; [discriminate|].
    split; [exact E|].
    assert (Hlo : (if x0 =? 0xE0 then 0xA0 else 0x80) <= x1) by lia.
    assert (Hhi : x1 <= (if x0 =? 0xED then 0x9F else 0xBF)) by lia.
    clear C1.
    destruct (Z.eqb_spec x0 0xE0) as [E0|E0]; destruct (Z.eqb_spec x0 0xED) as [ED|ED];
      try lia.
    all: unfold encode_char.
    all: rewrite (in_range_false 0 0x7F) by lia.
    all: rewrite (in_range_false 0x80 0x7FF) by lia.
    all: rewrite (in_range_true 0x800 0xFFFF) by lia.
    all: rewrite (in_range_false 0xD800 0xDFFF) by lia.
    all: replace (0xE0 + (((x0 - 0xE0) * 64 + (x1 - 0x80)) * 64 + (x2 - 0x80)) / 4096)
           with x0 by (Z.div_mod_to_equations; lia).
    all: replace (0x80 + ((((x0 - 0xE0) * 64 + (x1 - 0x80)) * 64 + (x2 - 0x80)) / 64) mod 64)
           with x1 by (Z.div_mod_to_equations; lia).
    all: replace (0x80 + (((x0 - 0xE0) * 64 + (x1 - 0x80)) * 64 + (x2 - 0x80)) mod 64)
           with x2 by (Z.div_mod_to_equations; lia).
    all: subst x0 x1 x2; now rewrite !byte_of_Z_of_byte. }
  destruct (in_range 0xF0 0xF4 x0) eqn:T4; [|discriminate].
  { (* four bytes *)
    apply in_range_spec in T4.
    destruct r0 as [|b1 [|b2 [|b3 r3]]]; [discriminate|discriminate|discriminate|].
    pose proof (Z_of_byte_range b1) as R1. set (x1 := Z_of_byte b1) in *.
    pose proof (Z_of_byte_range b2) as R2. set (x2 := Z_of_byte b2) in *.
    pose proof (Z_of_byte_range b3) as R3. set (x3 := Z_of_byte b3) in *.
    unfold is_cont in H.
    match type of H with
    | (if (in_range ?lo ?hi x1 && _ && _)%bool then _ else _) = _ =>
        destruct (in_range lo hi x1) eqn:C1; [|discriminate]
    end.
    destruct (in_range 0x80 0xBF x2) eqn:C2; [|discriminate].
    destruct (in_range 0x80 0xBF x3) eqn:C3; [|discriminate].
    apply in_range_spec in C1, C2, C3. cbn [andb] in H.
    destruct (decode r3) as [s'|] eqn:E; [|discriminate]. injection H as <-.
    exists ((((x0 - 0xF0) * 64 + (x1 - 0x80)) * 64 + (x2 - 0x80)) * 64 + (x3 - 0x80)),
      [b0; b1; b2; b3], r3, s'.
    split; [reflexivity|]. split; [reflexivity|]. split; [discriminate|].
    split; [exact E|].
    assert (Hlo : (if x0 =? 0xF0 then 0x90 else 0x80) <= x1) by lia.
    assert (Hhi : x1 <= (if x0 =? 0xF4 then 0x8F else 0xBF)) by lia.
    clear C1.
    destruct (Z.eqb_spec x0 0xF0) as [E0|E0]; destruct (Z.eqb_spec x0 0xF4) as [E4|E4];
      try lia.
    all: unfold encode_char.
    all: rewrite (in_range_false 0 0x7F) by lia.
    all: rewrite (in_range_false 0x80 0x7FF) by lia.
    all: rewrite (in_range_false 0x800 0xFFFF) by lia.
    all: rewrite (in_range_true 0x10000 0x10FFFF) by lia.
    all: replace (0xF0 + ((((x0 - 0xF0) * 64 + (x1 - 0x80)) * 64 + (x2 - 0x80)) * 64
                          + (x3 - 0x80)) / 262144)
           with x0 by (Z.div_mod_to_equations; lia).
    all: replace (0x80 + (((((x0 - 0xF0) * 64 + (x1 - 0x80)) * 64 + (x2 - 0x80)) * 64
                           + (x3 - 0x80)) / 4096) mod 64)
           with x1 by (Z.div_mod_to_equations; lia).
    all: replace (0x80 + (((((x0 - 0xF0) * 64 + (x1 - 0x80)) * 64 + (x2 - 0x80)) * 64
                           + (x3 - 0x80)) / 64) mod 64)
           with x2 by (Z.div_mod_to_equations; lia).
    all: replace (0x80 + ((((x0 - 0xF0) * 64 + (x1 - 0x80)) * 64 + (x2 - 0x80)) * 64
                          + (x3 - 0x80)) mod 64)
           with x3 by (Z.div_mod_to_equations; lia).
    all: subst x0 x1 x2 x3; now rewrite !byte_of_Z_of_byte. }
Qed.

(** Encoding what was decoded gives the bytes back. *)
Lemma encode_decode bs s : decode bs = Some s -> encode s = Some bs.
Proof.
  remember (length bs) as n eqn:Hn. revert bs s Hn.
  induction n as [n IH] using lt_wf_ind. intros bs s Hn H.
  destruct (decode_step bs s H) as [[-> ->] | (c & chunk & rest & s' & -> & -> & Hne & Hd & He)];
    [reflexivity|].
  cbn [encode]. rewrite He.
  rewrite (IH (length rest)) with (bs := rest) (s := s'); [reflexivity| |reflexivity|exact Hd].
  subst n. rewrite length_app. destruct chunk; [congruence | cbn; lia].
Qed.

Lemma encode_app a b :
  encode (a ++ b) =
  match encode a, encode b with
  | Some x, Some y => Some (x ++ y)%list
  | _, _ => None
  end.
Proof.
  induction a as [|c a IH]; cbn [app encode].
  - now destruct (encode b).
  - rewrite IH. destruct (encode_char c), (encode a), (encode b); try reflexivity.
    now rewrite app_assoc.
Qed.

(** Inserting text into a text that encodes adds the bytes of the
    inserted text. *)
Lemma encode_insert x y ins bs ib :
  encode (x ++ y) = Some bs -> encode ins = Some ib ->
  exists out, encode (x ++ ins ++ y) = Some out /\
              length out = (length bs + length ib)%nat.
Proof.
  rewrite !encode_app. intros H Hi. rewrite Hi.
  destruct (encode x) as [ex|]; [|discriminate].
  destruct (encode y) as [ey|]; [|discriminate].
  injection H as <-. eexists. split; [reflexivity|].
  rewrite !length_app. lia.
Qed.

Lemma encode_char_length c chunk :
  encode_char c = Some chunk -> (1 <= length chunk)%nat.
Proof.
  unfold encode_char.
  repeat match goal with
         | |- context [if ?b then _ else _] => destruct b
         end; intros [= <-]; cbn; lia.
Qed.

(** The text of a literal encodes, in at least one byte per character. *)
Lemma encode_of_string lit :
  exists bs, encode (Text.of_string lit) = Some bs /\
             (String.length lit <= length bs)%nat.
Proof.
  unfold Text.of_string. induction lit as [|ch lit (bs & IH & Hl)].
  - exists []. split; [reflexivity | cbn; lia].
  - cbn [list_ascii_of_string fmap list_fmap encode]. fold (@fmap list _ _ _ (fun c => Z.of_nat (nat_of_ascii c)) (list_ascii_of_string lit)).
    rewrite IH.
    assert (Hr : 0 <= Z.of_nat (nat_of_ascii ch) <= 255).
    { pose proof (nat_ascii_bounded ch). lia. }
    destruct (encode_char (Z.of_nat (nat_of_ascii ch))) as [chunk|] eqn:E.
    + exists (chunk ++ bs)%list. split; [reflexivity|].
      apply encode_char_length in E. rewrite length_app. cbn. lia.
    + exfalso. unfold encode_char in E.
      destruct (Z.le_gt_cases (Z.of_nat (nat_of_ascii ch)) 0x7F).
      * rewrite in_range_true in E by lia. discriminate.
      * rewrite in_range_false, in_range_true in E by lia. discriminate.
Qed.

End Utf8Facts.

(** * Properties of the text operations *)

Module TextFacts.
Import Text.

Lemma is_prefix_spec p s : is_prefix p s = true <-> exists b, s = (p ++ b)%list.
Proof.
  revert s. induction p as [|x p IH]; intros s.
  - cbn. split; [eauto | reflexivity].
  - destruct s as [|y s]; cbn.
    + split; [discriminate | intros (b & [=])].
    + rewrite andb_true_iff, Z.eqb_eq, IH. split.
      * intros (-> & b & ->). eauto.
      * intros (b & [= -> ->]). eauto.
Qed.

Lemma is_prefix_drop p s : is_prefix p s = true -> s = (p ++ drop (length p) s)%list.
Proof.
  intros (b & ->)%is_prefix_spec. now rewrite drop_app_length.
Qed.

(** Where [old] occurs in [s], [replace_first] puts [new] in place of its
    leftmost occurrence. *)
Lemma contains_split old s :
  contains old s = true ->
  exists a b, first_at old s a b /\
              forall new, replace_first old new s = (a ++ new ++ b)%list.
Proof.
  induction s as [|c r IH].
  - cbn. rewrite orb_false_r. intros H. exists [], (drop (length old) []).
    split; [split|].
    + now apply is_prefix_drop.
    + cbn. lia.
    + intros new. cbn. now rewrite H.
  - cbn [contains]. destruct (is_prefix old (c :: r)) eqn:E.
    + intros _. exists [], (drop (length old) (c :: r)). split; [split|].
      * now apply is_prefix_drop.
      * cbn. lia.
      * intros new. cbn [replace_first]. now rewrite E.
    + cbn [orb]. intros H. destruct (IH H) as (a & b & [Hs Hf] & Hr).
      exists (c :: a), b. split; [split|].
      * cbn. now rewrite <- Hs.
      * intros [|i] Hi; [exact E|]. cbn. apply Hf. cbn in Hi. lia.
      * intros new. cbn [replace_first]. rewrite E, Hr. reflexivity.
Qed.

Lemma contains_app_l (p a y : t) :
  contains p a = true -> contains p (a ++ y)%list = true.
Proof.
  induction a as [|c a IH].
  - destruct p; [intros _; destruct y; reflexivity | discriminate].
  - cbn [contains app]. intros [H|H]%orb_true_iff; apply orb_true_iff.
    + left. apply is_prefix_spec in H as (b & Hb).
      apply is_prefix_spec. exists (b ++ y)%list.
      change (c :: a ++ y)%list with ((c :: a) ++ y)%list.
      now rewrite Hb, app_assoc.
    + right. now apply IH.
Qed.

Lemma contains_app_r (p x b : t) :
  contains p b = true -> contains p (x ++ b)%list = true.
Proof.
  intros H. induction x as [|c x IH]; [exact H|].
  cbn [contains app]. rewrite IH. apply orb_true_r.
Qed.

End TextFacts.

Module Utf8Inverse.
Import Utf8 Utf8Facts.

Lemma Z_of_byte_of_Z z : 0 <= z <= 255 -> Z_of_byte (byte_of_Z z) = z.
Proof.
  intros Hz. unfold Z_of_byte, byte_of_Z.
  destruct (Byte.of_N (Z.to_N z)) as [b|] eqn:E.
  - cbn. apply Byte.to_of_N in E. rewrite E. lia.
  - apply Byte.of_N_None_iff in E. lia.
Qed.

(** The decoder reads the UTF-8 form of a character back as that
    character. *)
Lemma decode_chunk c chunk rest :
  encode_char c = Some chunk ->
  decode (chunk ++ rest) = cons c <$> decode rest.
Proof.
  unfold encode_char.
  destruct (in_range 0 0x7F c) eqn:R1.
  { apply in_range_spec in R1. intros [= <-]. cbn [app decode].
    rewrite Z_of_byte_of_Z by lia.
    destruct (Z.ltb_spec c 0x80); [reflexivity | lia]. }
  destruct (in_range 0x80 0x7FF c) eqn:R2.
  { apply in_range_spec in R2. intros [= <-]. cbn [app decode].
    rewrite !Z_of_byte_of_Z by (Z.div_mod_to_equations; lia).
    destruct (Z.ltb_spec (0xC0 + c / 64) 0x80); [Z.div_mod_to_equations; lia|].
    rewrite (in_range_true 0xC2 0xDF) by (Z.div_mod_to_equations; lia).
    unfold is_cont. rewrite in_range_true by (Z.div_mod_to_equations; lia).
    replace ((0xC0 + c / 64 - 0xC0) * 64 + (0x80 + c mod 64 - 0x80)) with c
      by (Z.div_mod_to_equations; lia).
    reflexivity. }
  destruct (in_range 0x800 0xFFFF c) eqn:R3.
  { apply in_range_spec in R3.
    destruct (in_range 0xD800 0xDFFF c) eqn:RS; [discriminate|].
    assert (HS : c < 0xD800 \/ 0xDFFF < c).
    { unfold in_range in RS. apply andb_false_iff in RS. lia. }
    intros [= <-]. cbn [app decode].
    rewrite !Z_of_byte_of_Z by (Z.div_mod_to_equations; lia).
    destruct (Z.ltb_spec (0xE0 + c / 4096) 0x80); [Z.div_mod_to_equations; lia|].
    rewrite (in_range_false 0xC2 0xDF) by (Z.div_mod_to_equations; lia).
    rewrite (in_range_true 0xE0 0xEF) by (Z.div_mod_to_equations; lia).
    unfold is_cont.
    rewrite (in_range_true _ _ (0x80 + (c / 64) mod 64)).
    2:{ destruct (Z.eqb_spec (0xE0 + c / 4096) 0xE0);
          destruct (Z.eqb_spec (0xE0 + c / 4096) 0xED);
          Z.div_mod_to_equations; lia. }
    rewrite in_range_true by (Z.div_mod_to_equations; lia).
    cbn [andb].
    replace (((0xE0 + c / 4096 - 0xE0) * 64 + (0x80 + (c / 64) mod 64 - 0x80)) * 64
             + (0x80 + c mod 64 - 0x80)) with c
      by (Z.div_mod_to_equations; lia).
    reflexivity. }
  destruct (in_range 0x10000 0x10FFFF c) eqn:R4; [|discriminate].
  { apply in_range_spec in R4. intros [= <-]. cbn [app decode].
    rewrite !Z_of_byte_of_Z by (Z.div_mod_to_equations; lia).
    destruct (Z.ltb_spec (0xF0 + c / 262144) 0x80); [Z.div_mod_to_equations; lia|].
    rewrite (in_range_false 0xC2 0xDF) by (Z.div_mod_to_equations; lia).
    rewrite (in_range_false 0xE0 0xEF) by (Z.div_mod_to_equations; lia).
    rewrite (in_range_true 0xF0 0xF4) by (Z.div_mod_to_equations; lia).
    unfold is_cont.
    rewrite (in_range_true _ _ (0x80 + (c / 4096) mod 64)).
    2:{ destruct (Z.eqb_spec (0xF0 + c / 262144) 0xF0);
          destruct (Z.eqb_spec (0xF0 + c / 262144) 0xF4);
          Z.div_mod_to_equations; lia. }
    rewrite !in_range_true by (Z.div_mod_to_equations; lia).
    cbn [andb].
    replace ((((0xF0 + c / 262144 - 0xF0) * 64 + (0x80 + (c / 4096) mod 64 - 0x80)) * 64
              + (0x80 + (c / 64) mod 64 - 0x80)) * 64 + (0x80 + c mod 64 - 0x80))
      with c by (Z.div_mod_to_equations; lia).
    reflexivity. }
Qed.

(** Decoding what was encoded gives the text back. *)
Lemma decode_encode s bs : encode s = Some bs -> decode bs = Some s.
Proof.
  revert bs. induction s as [|c s IH]; intros bs; cbn [encode].
  - now intros [= <-].
  - destruct (encode_char c) as [chunk|] eqn:Ec; [|discriminate].
    destruct (encode s) as [rest|] eqn:Es; [|discriminate].
    intros [= <-]. rewrite (decode_chunk _ _ _ Ec), (IH rest eq_refl). reflexivity.
Qed.

(** The decoder refuses exactly the byte sequences that are the UTF-8
    form of no text. *)
Lemma decode_None_iff bs : decode bs = None <-> forall s, encode s <> Some bs.
Proof.
  split.
  - intros H s Hs. apply decode_encode in Hs. congruence.
  - intros H. destruct (decode bs) as [s|] eqn:E; [|reflexivity].
    exfalso. apply (H s). now apply encode_decode.
Qed.

End Utf8Inverse.

(** * Counting occurrences across an insertion *)

Module OccurrenceFacts.
Import Text TextFacts.
Local Open Scope list_scope.
Local Open Scope nat_scope.

Lemma is_prefix_app_compatible (y x w : t) :
  is_prefix y (x ++ w) = true -> compatible y x = true.
Proof.
  unfold compatible. revert x. induction y as [|c y IH]; intros x; [reflexivity|].
  destruct x as [|d x]; [intros _; apply orb_true_r|].
  cbn. intros [Hc H]%andb_true_iff. apply Z.eqb_eq in Hc as ->.
  rewrite Z.eqb_refl. cbn. now apply IH.
Qed.

Lemma is_prefix_within (y w z : t) :
  length y <= length w -> is_prefix y (w ++ z) = is_prefix y w.
Proof.
  revert w. induction y as [|c y IH]; intros w Hl; [reflexivity|].
  destruct w as [|d w]; [cbn in Hl; lia|].
  cbn. rewrite IH by (cbn in Hl; lia). reflexivity.
Qed.

Lemma is_prefix_beyond (y w z : t) :
  length w < length y -> is_prefix y (w ++ z) = true ->
  is_prefix (drop (length w) y) z = true.
Proof.
  revert y. induction w as [|d w IH]; intros y Hl H; [exact H|].
  destruct y as [|c y]; [cbn in Hl; lia|].
  cbn in H. apply andb_true_iff in H as [_ H].
  cbn. apply IH; [cbn in Hl; lia | exact H].
Qed.

Lemma starts_nowhere_in_spec (y x : t) from k :
  starts_nowhere_in y x from = true -> from <= k < length x ->
  compatible y (drop k x) = false.
Proof.
  unfold starts_nowhere_in. rewrite forallb_forall. intros H Hk.
  apply negb_true_iff, H, in_seq. lia.
Qed.

Lemma runs_not_into_spec (y x : t) m :
  runs_not_into y x = true -> 0 < m < length y ->
  compatible (drop m y) x = false.
Proof.
  unfold runs_not_into. rewrite forallb_forall. intros H Hm.
  apply negb_true_iff, H, in_seq. lia.
Qed.

(** The occurrences of [y] in [x ++ v] that start after an offset [from]
    of [x], when none can start there, are those of [v]. *)
Lemma occurrences_over_block (y x v : t) from :
  starts_nowhere_in y x from = true ->
  forall k, from <= k <= length x ->
  occurrences y (drop k x ++ v) = occurrences y v.
Proof.
  intros Hs k Hk. remember (length x - k) as n eqn:Hn.
  revert k Hk Hn. induction n as [|n IH]; intros k Hk Hn.
  - now rewrite drop_ge by lia.
  - assert (Hlt : k < length x) by lia.
    destruct (lookup_lt_is_Some_2 x k Hlt) as [c Hc].
    destruct (is_prefix y (drop k x ++ v)) eqn:P.
    + apply is_prefix_app_compatible in P.
      rewrite (starts_nowhere_in_spec y x from k Hs) in P by lia. discriminate.
    + rewrite (drop_S x c k Hc) in P |- *.
      change ((c :: drop (S k) x) ++ v) with (c :: (drop (S k) x ++ v)) in P |- *.
      cbn [occurrences]. rewrite P. cbn. apply IH; lia.
Qed.

(** Inserting a block [x] in front of [v] changes the number of
    occurrences of [y] by the occurrence that starts the block, if there
    is one, when no occurrence of [y] can start later in the block, run
    into the block, or run into the text [v0] that [v] begins with. *)
Lemma occurrences_insert (y x v0 u v : t) :
  x <> [] ->
  starts_nowhere_in y x 1 = true ->
  runs_not_into y x = true ->
  runs_not_into y v0 = true ->
  is_prefix v0 v = true ->
  occurrences y (u ++ x ++ v)
  = (if is_prefix y (x ++ v) then 1 else 0) + occurrences y (u ++ v).
Proof.
  intros Hx Hs Hrx Hrv Hv. induction u as [|d u IH].
  - destruct x as [|c x]; [congruence|].
    change ([] ++ (c :: x) ++ v) with (c :: (x ++ v)). cbn [occurrences app].
    change (c :: (x ++ v)) with ((c :: x) ++ v).
    f_equal.
    apply (occurrences_over_block y (c :: x) v 1 Hs 1). cbn. lia.
  - change ((d :: u) ++ x ++ v) with (d :: (u ++ x ++ v)).
    change ((d :: u) ++ v) with (d :: (u ++ v)).
    cbn [occurrences]. rewrite IH.
    change (d :: (u ++ x ++ v)) with ((d :: u) ++ x ++ v).
    change (d :: (u ++ v)) with ((d :: u) ++ v).
    assert (Hp : is_prefix y ((d :: u) ++ x ++ v) = is_prefix y ((d :: u) ++ v)).
    { destruct (le_lt_dec (length y) (length (d :: u))) as [Hl|Hl].
      - now rewrite !is_prefix_within by exact Hl.
      - assert (Hm : 0 < length (d :: u) < length y) by (cbn in *; lia).
        destruct (is_prefix y ((d :: u) ++ x ++ v)) eqn:P1.
        { apply is_prefix_beyond in P1; [|exact Hl].
          apply is_prefix_app_compatible in P1.
          now rewrite (runs_not_into_spec y x _ Hrx Hm) in P1. }
        destruct (is_prefix y ((d :: u) ++ v)) eqn:P2; [|reflexivity].
        apply is_prefix_beyond in P2; [|exact Hl].
        apply is_prefix_spec in Hv as (v' & ->).
        apply is_prefix_app_compatible in P2.
        now rewrite (runs_not_into_spec y v0 _ Hrv Hm) in P2. }
    rewrite Hp. lia.
Qed.

End OccurrenceFacts.

(** * Properties of the content rewriter *)

Section RewriterFacts.
Import Utf8 Utf8Facts Text TextFacts.
Local Open Scope list_scope.

(** An occurrence of [</body>] never overlaps an occurrence of [</head>]:
    it starts at a position of [a ++ </head> ++ b] only if it lies within
    [a]. *)
Lemma is_prefix_close_body_before_close_head (a b : Text.t) :
  is_prefix close_body (a ++ close_head ++ b)%list = is_prefix close_body a.
Proof.
  do 7 (destruct a as [|? a]; [cbn; rewrite ?andb_false_r; reflexivity|]).
  reflexivity.
Qed.

Lemma contains_close_body_around_close_head (a b : Text.t) :
  contains close_body (a ++ close_head ++ b)%list
  = (contains close_body a || contains close_body b)%bool.
Proof.
  induction a as [|x a IH].
  - reflexivity.
  - change (contains close_body ((x :: a) ++ close_head ++ b))
      with (is_prefix close_body ((x :: a) ++ close_head ++ b)
            || contains close_body (a ++ close_head ++ b))%bool.
    rewrite is_prefix_close_body_before_close_head, IH.
    cbn [contains]. now rewrite orb_assoc.
Qed.

(** C7. A body that is not well-formed UTF-8 is returned as it is: the
    result of [process_html] is the input, byte for byte, and no exception
    leaves the function. *)
Theorem undecodable_body_returned_unchanged
    (cp : ContentProcessor) (content : list byte) (url : string) :
  Utf8.decode content = None ->
  process_html cp content url = Some content.
Proof. intros H. unfold process_html. now rewrite H. Qed.

Lemma style_tag_encodes cp :
  exists sb, encode (style_tag cp) = Some sb /\ (1 <= length sb)%nat.
Proof.
  unfold style_tag.
  match goal with |- context [of_string ?lit] =>
    destruct (encode_of_string lit) as (sb & Hsb & Hl) end.
  exists sb. split; [exact Hsb|]. simpl in Hl. lia.
Qed.

Lemma script_tag_encodes cp :
  exists tb, encode (script_tag cp) = Some tb /\ (1 <= length tb)%nat.
Proof.
  unfold script_tag.
  match goal with |- context [of_string ?lit] =>
    destruct (encode_of_string lit) as (tb & Htb & Hl) end.
  exists tb. split; [exact Htb|]. simpl in Hl. lia.
Qed.

(** What [process_html] does to a body that decodes and contains
    [</head>] and [</body>], for any processor that has selectors and
    scriptlets: two insertions, and as many bytes more as the two blocks
    have. *)
Lemma process_html_two_insertions
    (cp : ContentProcessor) (content : list byte) (url : string) (html : Text.t) :
  Utf8.decode content = Some html ->
  Str.truthy (_generate_cosmetic_css cp) = true ->
  Str.truthy (_generate_scriptlet_js cp) = true ->
  contains close_head html = true ->
  contains close_body html = true ->
  exists a b c d out sb tb,
    first_at close_head html a b /\
    first_at close_body (a ++ style_tag cp ++ close_head ++ b) c d /\
    encode (c ++ script_tag cp ++ close_body ++ d) = Some out /\
    process_html cp content url = Some out /\
    encode (style_tag cp) = Some sb /\
    encode (script_tag cp) = Some tb /\
    length out = (length content + length sb + length tb)%nat.
Proof.
  intros Hd Hcss Hjs Hh Hb.
  destruct (contains_split _ _ Hh) as (a & b & Hfa & Hra).
  destruct (style_tag_encodes cp) as (sb & Hsb & Hlsb).
  destruct (script_tag_encodes cp) as (tb & Htb & Hltb).
  assert (Hb1 : contains close_body (a ++ style_tag cp ++ close_head ++ b) = true).
  { destruct Hfa as [Hs _]. rewrite Hs, contains_close_body_around_close_head in Hb.
    apply orb_true_iff in Hb as [Hb|Hb].
    - now apply contains_app_l.
    - rewrite !app_assoc. now apply contains_app_r. }
  destruct (contains_split _ _ Hb1) as (c & d & Hfc & Hrc).
  assert (Hstyle : inject_style cp html = a ++ style_tag cp ++ close_head ++ b).
  { unfold inject_style. rewrite Hcss, Hh, Hra. now rewrite <- app_assoc. }
  assert (Hscript : inject_script cp (inject_style cp html)
                    = c ++ script_tag cp ++ close_body ++ d).
  { unfold inject_script. rewrite Hjs, Hstyle, Hb1, Hrc. now rewrite <- app_assoc. }
  pose proof (encode_decode _ _ Hd) as He.
  destruct Hfa as [Hs Hfa]. rewrite Hs in He.
  destruct (encode_insert _ _ _ _ _ He Hsb) as (out1 & Ho1 & Hl1).
  destruct Hfc as [Hs1 Hfc]. rewrite Hs1 in Ho1.
  destruct (encode_insert _ _ _ _ _ Ho1 Htb) as (out & Ho & Hl).
  exists a, b, c, d, out, sb, tb.
  split; [split; assumption|]. split; [split; assumption|].
  split; [exact Ho|]. split.
  - unfold process_html. now rewrite Hd, Hscript.
  - split; [exact Hsb|]. split; [exact Htb|]. lia.
Qed.

Lemma is_prefix_app_self (x v : Text.t) : is_prefix x (x ++ v) = true.
Proof. apply is_prefix_spec. eauto. Qed.

Lemma is_prefix_incompatible (y x v : Text.t) :
  compatible y x = false -> is_prefix y (x ++ v) = false.
Proof.
  intros Hc. destruct (is_prefix y (x ++ v)) eqn:E; [|reflexivity].
  apply OccurrenceFacts.is_prefix_app_compatible in E. congruence.
Qed.

(** C8 (amended). For a body that decodes as UTF-8 and contains [</head>]
    and [</body>], the rewriter makes exactly two insertions: the style
    block before the first [</head>], then the script block before the
    first [</body>]. The text of the output has exactly one occurrence of
    the style block and one of the script block more than the text of the
    input, hence exactly one of each when the input has none; and the
    output is longer than the input by the lengths of the two blocks. *)
Theorem rewriter_inserts_one_style_and_one_script
    (content : list byte) (url : string) (html : Text.t) :
  Utf8.decode content = Some html ->
  contains close_head html = true ->
  contains close_body html = true ->
  exists a b c d out,
    first_at close_head html a b /\
    first_at close_body (a ++ style_tag ContentProcessor_new ++ close_head ++ b) c d /\
    process_html ContentProcessor_new content url = Some out /\
    Utf8.decode out = Some (c ++ script_tag ContentProcessor_new ++ close_body ++ d) /\
    occurrences (style_tag ContentProcessor_new)
                (c ++ script_tag ContentProcessor_new ++ close_body ++ d)
      = S (occurrences (style_tag ContentProcessor_new) html) /\
    occurrences (script_tag ContentProcessor_new)
                (c ++ script_tag ContentProcessor_new ++ close_body ++ d)
      = S (occurrences (script_tag ContentProcessor_new) html) /\
    length out = (length content + length (style_tag ContentProcessor_new)
                  + length (script_tag ContentProcessor_new))%nat /\
    (length content < length out)%nat.
Proof.
  intros Hd Hh Hb.
  destruct (process_html_two_insertions ContentProcessor_new content url html
              Hd eq_refl eq_refl Hh Hb)
    as (a & b & c & d & out & sb & tb & Hfa & Hfc & Ho & Hp & Hsb & Htb & Hl).
  set (S_ := style_tag ContentProcessor_new) in *.
  set (T_ := script_tag ContentProcessor_new) in *.
  exists a, b, c, d, out.
  split; [exact Hfa|]. split; [exact Hfc|]. split; [exact Hp|].
  split; [now apply Utf8Inverse.decode_encode|].
  destruct Hfa as [Hs _]. destruct Hfc as [Hs1 _].
  assert (HS1 : occurrences S_ (a ++ S_ ++ close_head ++ b) = S (occurrences S_ html)).
  { rewrite (OccurrenceFacts.occurrences_insert S_ S_ close_head a (close_head ++ b));
      [ | discriminate | vm_compute; reflexivity | vm_compute; reflexivity
        | vm_compute; reflexivity | apply is_prefix_app_self ].
    rewrite is_prefix_app_self, Hs. reflexivity. }
  assert (HT1 : occurrences T_ (a ++ S_ ++ close_head ++ b) = occurrences T_ html).
  { rewrite (OccurrenceFacts.occurrences_insert T_ S_ close_head a (close_head ++ b));
      [ | discriminate | vm_compute; reflexivity | vm_compute; reflexivity
        | vm_compute; reflexivity | apply is_prefix_app_self ].
    rewrite is_prefix_incompatible by (vm_compute; reflexivity).
    rewrite Hs. reflexivity. }
  assert (HS2 : occurrences S_ (c ++ T_ ++ close_body ++ d)
                = occurrences S_ (c ++ close_body ++ d)).
  { rewrite (OccurrenceFacts.occurrences_insert S_ T_ close_body c (close_body ++ d));
      [ | discriminate | vm_compute; reflexivity | vm_compute; reflexivity
        | vm_compute; reflexivity | apply is_prefix_app_self ].
    rewrite is_prefix_incompatible by (vm_compute; reflexivity). reflexivity. }
  assert (HT2 : occurrences T_ (c ++ T_ ++ close_body ++ d)
                = S (occurrences T_ (c ++ close_body ++ d))).
  { rewrite (OccurrenceFacts.occurrences_insert T_ T_ close_body c (close_body ++ d));
      [ | discriminate | vm_compute; reflexivity | vm_compute; reflexivity
        | vm_compute; reflexivity | apply is_prefix_app_self ].
    rewrite is_prefix_app_self. reflexivity. }
  rewrite HS2, HT2, <- Hs1, HS1, HT1.
  split; [reflexivity|]. split; [reflexivity|].
  assert (Hlen : length sb = length S_ /\ length tb = length T_).
  { assert (E1 : encode S_ = Some (default [] (encode S_))) by (vm_compute; reflexivity).
    assert (E2 : encode T_ = Some (default [] (encode T_))) by (vm_compute; reflexivity).
    rewrite E1 in Hsb. rewrite E2 in Htb.
    injection Hsb as <-. injection Htb as <-.
    split; vm_compute; reflexivity. }
  destruct Hlen as [Hl1 Hl2]. rewrite Hl1, Hl2 in Hl.
  split; [exact Hl|].
  assert (0 < length S_)%nat by (vm_compute; lia). lia.
Qed.

End RewriterFacts.

(** * The reference [re] under [re.IGNORECASE] *)

Module PyRefFacts.
Import PyRef.

Lemma lower_char_newline c : Str.lower_char c = newline -> c = newline.
Proof.
  destruct c as [[] [] [] [] [] [] [] []]; cbv; intros H; congruence.
Qed.

Lemma eqb_newline_lower c c' :
  Str.lower_char c = Str.lower_char c' ->
  Ascii.eqb c newline = Ascii.eqb c' newline.
Proof.
  intros H. destruct (Ascii.eqb_spec c newline) as [->|Hc];
    destruct (Ascii.eqb_spec c' newline) as [->|Hc']; try reflexivity.
  - exfalso. apply Hc'. apply lower_char_newline. now rewrite <- H.
  - exfalso. apply Hc. apply lower_char_newline. now rewrite H.
Qed.

Lemma accepts_ignorecase a c c' :
  Str.lower_char c = Str.lower_char c' -> accepts true a c = accepts true a c'.
Proof.
  intros H. destruct a; cbn; [now rewrite H | | reflexivity | reflexivity].
  now rewrite (eqb_newline_lower c c' H).
Qed.

Lemma lower_eq_inv s s' :
  Str.lower s = Str.lower s' ->
  (s = EmptyString /\ s' = EmptyString) \/
  exists c r c' r', s = String c r /\ s' = String c' r' /\
                    Str.lower_char c = Str.lower_char c' /\
                    Str.lower r = Str.lower r'.
Proof.
  destruct s as [|c r], s' as [|c' r']; cbn; try discriminate.
  - now left.
  - intros [= H1 H2]. right. exists c, r, c', r'. easy.
Qed.

(** The test for the end of the subject does not depend on letter case. *)
Lemma at_end_ignorecase s s' :
  Str.lower s = Str.lower s' ->
  (String.eqb s EmptyString || String.eqb s (String newline EmptyString))%bool
  = (String.eqb s' EmptyString || String.eqb s' (String newline EmptyString))%bool.
Proof.
  intros H. destruct (lower_eq_inv _ _ H)
    as [[-> ->] | (c & r & c' & r' & -> & -> & Hc & Hr)]; [reflexivity|].
  cbn. rewrite (eqb_newline_lower c c' Hc).
  destruct (lower_eq_inv _ _ Hr)
    as [[-> ->] | (d & t & d' & t' & -> & -> & _ & _)]; reflexivity.
Qed.

Lemma match_star_ignorecase a k :
  case_blind k -> case_blind (match_star true a k).
Proof.
  intros Hk s. induction s as [|c r IH]; intros s' st H;
    destruct (lower_eq_inv _ _ H)
      as [[E1 ->] | (c0 & r0 & c' & r' & E1 & -> & Hc & Hr)]; try discriminate.
  - reflexivity.
  - injection E1 as <- <-. cbn [match_star].
    rewrite (Hk _ _ st H), (accepts_ignorecase a c c' Hc), (IH r' false Hr).
    reflexivity.
Qed.

Lemma match_items_ignorecase its :
  forallb (fun it : item => it.2) its = true -> case_blind (match_items its).
Proof.
  induction its as [|[[a q] ic] its IH]; intros Hall s s' st H; [reflexivity|].
  cbn [forallb snd] in Hall. apply andb_true_iff in Hall as [-> Hall].
  specialize (IH Hall).
  assert (Hone : match s with
                 | String c r => (accepts true a c && match_items its r false)%bool
                 | EmptyString => false
                 end
                 = match s' with
                   | String c r => (accepts true a c && match_items its r false)%bool
                   | EmptyString => false
                   end).
  { destruct (lower_eq_inv _ _ H)
      as [[-> ->] | (c & r & c' & r' & -> & -> & Hc & Hr)]; [reflexivity|].
    now rewrite (accepts_ignorecase a c c' Hc), (IH r r' false Hr). }
  assert (Hplus : match s with
                  | String c r =>
                      (accepts true a c && match_star true a (match_items its) r false)%bool
                  | EmptyString => false
                  end
                  = match s' with
                    | String c r =>
                        (accepts true a c && match_star true a (match_items its) r false)%bool
                    | EmptyString => false
                    end).
  { destruct (lower_eq_inv _ _ H)
      as [[-> ->] | (c & r & c' & r' & -> & -> & Hc & Hr)]; [reflexivity|].
    now rewrite (accepts_ignorecase a c c' Hc),
      (match_star_ignorecase a _ IH r r' false Hr). }
  destruct a, q; cbn [match_items];
    rewrite ?(IH s s' st H), ?(at_end_ignorecase s s' H), ?Hone, ?Hplus;
    try reflexivity.
  all: try (apply (match_star_ignorecase _ _ IH); exact H).
  all: try (cbn [accepts] in Hone; rewrite Hone; reflexivity).
Qed.

Lemma search_from_ignorecase its :
  forallb (fun it : item => it.2) its = true -> case_blind (search_from its).
Proof.
  intros Hall s. induction s as [|c r IH]; intros s' st H;
    destruct (lower_eq_inv _ _ H)
      as [[E1 ->] | (c0 & r0 & c' & r' & E1 & -> & Hc & Hr)]; try discriminate.
  - reflexivity.
  - injection E1 as <- <-. cbn [search_from].
    rewrite (match_items_ignorecase its Hall _ _ st H), (IH r' false Hr). reflexivity.
Qed.

(** A pattern whose items all ignore letter case is found in a subject
    exactly when it is found in the subject written in another letter
    case. *)
Lemma search_ignorecase regex u u' :
  all_ignorecase regex = true ->
  Str.lower u = Str.lower u' ->
  search regex u = search regex u'.
Proof.
  intros Hall H. unfold search. now apply search_from_ignorecase.
Qed.

End PyRefFacts.

(** * The engine on concrete requests *)

Section Concrete.

Import Examples.
#[local] Existing Instance PyRef.lib.

Lemma whitelisted_allowed_on_cache_miss_witness :
  should_block (FilterEngine_init (Some (Some cfg_allow))) ad_url "GET" None None 0 0
  = Some ((false, None),
          _update_cache (cache_key "GET" ad_url) false 0
            (FilterEngine_init (Some (Some cfg_allow)))).
Proof.
  apply (whitelisted_allowed_on_cache_miss _ _ _ _ _ _ _
           (urllib.mkParseResult "http" "Ads.Example.com" "/banner" "" "" "")).
  - reflexivity.
  - vm_compute. reflexivity.
  - reflexivity.
Defined.

(** C1, as stated, fails. The host is blocked while it is blacklisted;
    after a reload that whitelists it, the same request within the next
    300 seconds is answered from the cache and is still blocked. And with
    an empty cache, an authority that is in the whitelist as the URL
    spells it, capitals included, is not found there once it is
    lower-cased, and the blacklist applies. *)
Lemma whitelisted_request_blocked_from_cache :
  let e0 := FilterEngine_init (Some (Some cfg_deny)) in
  let e1 := _update_cache (cache_key "GET" ad_url) true 0 e0 in
  let e2 := load_config (Some cfg_allow) e1 in
  let parsed := urllib.mkParseResult "http" "Ads.Example.com" "/banner" "" "" "" in
  let e3 := load_config (Some cfg_allow_capitals) FilterEngine_new in
  (should_block e0 ad_url "GET" None None 0 0 = Some ((true, None), e1) /\
   urlparse ad_url = Some parsed /\
   str_lower (urllib.netloc parsed) ∈ whitelist_domains e2 /\
   returned (should_block e2 ad_url "GET" None None 10 10) = Some (true, None)) /\
  (urllib.netloc parsed ∈ whitelist_domains e3 /\
   returned (should_block e3 ad_url "GET" None None 0 0) = Some (true, None)).
Proof.
  intros e0 e1 e2 parsed e3. split.
  - split; [reflexivity|]. split; [reflexivity|]. split.
    + vm_compute. reflexivity.
    + vm_compute. reflexivity.
  - split; vm_compute; reflexivity.
Qed.

Lemma blacklisted_blocked_on_cache_miss_witness :
  should_block (FilterEngine_init (Some (Some cfg_deny))) ad_url "GET" None None 0 0
  = Some ((true, None),
          _update_cache (cache_key "GET" ad_url) true 0
            (FilterEngine_init (Some (Some cfg_deny)))).
Proof.
  apply (blacklisted_blocked_on_cache_miss _ _ _ _ _ _ _
           (urllib.mkParseResult "http" "Ads.Example.com" "/banner" "" "" "")).
  - reflexivity.
  - vm_compute. reflexivity.
  - vm_compute. discriminate.
  - reflexivity.
Defined.

(** C4, as stated, fails. The host is allowed while no list names it;
    after a reload that blacklists it, the same request within the next
    300 seconds is answered from the cache and is still allowed. And with
    an empty cache, an authority that is in the blacklist as the URL
    spells it, capitals included, is not found there once it is
    lower-cased, and the request is allowed. *)
Lemma blacklisted_request_allowed_from_cache :
  let e0 := FilterEngine_init (Some (Some cfg_empty)) in
  let e1 := _update_cache (cache_key "GET" ad_url) false 0 e0 in
  let e2 := load_config (Some cfg_deny) e1 in
  let parsed := urllib.mkParseResult "http" "Ads.Example.com" "/banner" "" "" "" in
  let e3 := load_config (Some cfg_deny_capitals) FilterEngine_new in
  (should_block e0 ad_url "GET" None None 0 0 = Some ((false, None), e1) /\
   urlparse ad_url = Some parsed /\
   str_lower (urllib.netloc parsed) ∈ blacklist_domains e2 /\
   (str_lower (urllib.netloc parsed) ∉ whitelist_domains e2) /\
   returned (should_block e2 ad_url "GET" None None 10 10) = Some (false, None)) /\
  (urllib.netloc parsed ∈ blacklist_domains e3 /\
   (urllib.netloc parsed ∉ whitelist_domains e3) /\
   returned (should_block e3 ad_url "GET" None None 0 0) = Some (false, None)).
Proof.
  intros e0 e1 e2 parsed e3. split.
  - split; [reflexivity|]. split; [reflexivity|].
    split; [vm_compute; reflexivity|]. split; [vm_compute; discriminate|].
    vm_compute. reflexivity.
  - split; [vm_compute; reflexivity|]. split; [vm_compute; discriminate|].
    vm_compute. reflexivity.
Qed.

Lemma cached_verdict_stable_witness :
  let e := FilterEngine_init (Some (Some cfg_deny)) in
  let e1 := _update_cache (cache_key "GET" ad_url) true 0 e in
  let e2 := load_config (Some cfg_allow) e1 in
  should_block e2 ad_url "GET" None None 299 299 = Some ((true, None), e2).
Proof.
  intros e e1 e2.
  destruct (cached_verdict_stable e ad_url "GET" None None 0 0 true None e1 e2
              None None 299 299) as [_ H].
  - reflexivity.
  - apply evolves_load_config, evolves_refl.
  - apply H; [reflexivity | reflexivity | lia].
Defined.

(** C3, as stated, fails: a call that is itself answered from the cache
    does not renew the entry. The verdict stored at time 0 expires at 300;
    the calls at 200 and at 400 are 200 seconds apart, the blacklist
    changes in between, and the second one gets a new verdict. *)
Lemma verdict_changes_within_300_seconds :
  let e0 := FilterEngine_init (Some (Some cfg_empty)) in
  let e1 := _update_cache (cache_key "GET" ad_url) false 0 e0 in
  should_block e0 ad_url "GET" None None 0 0 = Some ((false, None), e1) /\
  should_block e1 ad_url "GET" None None 200 200 = Some ((false, None), e1) /\
  returned (should_block (load_config (Some cfg_deny) e1) ad_url "GET" None None 400 400)
    = Some (true, None) /\
  400 - 200 < 300.
Proof.
  intros e0 e1. split; [reflexivity|]. split.
  - apply (should_block_hit (Lib := PyRef.lib) e1 ad_url "GET" None None 200 200
             (urllib.mkParseResult "http" "Ads.Example.com" "/banner" "" "" ""));
      reflexivity.
  - split; [vm_compute; reflexivity | lia].
Qed.

Lemma rule_tiers_of_reachable_engine_witness :
  let e := FilterEngine_init None in
  let r := FilterRule_default "hotjar.com" "block" "Hotjar Analytics" in
  in_regex_index e r /\ ~ in_literal_tier e r.
Proof.
  intros e r.
  destruct (rule_tiers_of_reachable_engine e r (reach_init None))
    as (_ & _ & Hx & _ & Hl).
  assert (Hin : in_regex_index e r).
  { apply Hx. split; [|split].
    - apply list_elem_of_In. vm_compute. tauto.
    - reflexivity.
    - vm_compute. eauto. }
  split; [exact Hin|]. intros H. apply Hl in H. tauto.
Defined.

(** C2, as stated, fails: a rule added with a domain, a path and a dotted
    pattern is in the domain index, in the path index and in the regex
    index at once. *)
Lemma rule_in_three_indices :
  let e := add_rule banner_rule FilterEngine_new in
  reachable e /\
  in_domain_index e banner_rule /\ in_path_index e banner_rule /\
  in_regex_index e banner_rule.
Proof.
  intros e. split; [|split; [|split]].
  - apply reach_add_rule.
    change (reachable (FilterEngine_init (Some (Some cfg_empty)))).
    apply reach_init.
  - exists "ads.example.com", [banner_rule]. split; [reflexivity|].
    apply list_elem_of_singleton. reflexivity.
  - exists "/banner", [banner_rule]. split; [reflexivity|].
    apply list_elem_of_singleton. reflexivity.
  - eexists. apply list_elem_of_singleton. reflexivity.
Qed.

Lemma headers_constraint_needs_supplied_headers_witness :
  (forall h : gmap string string, h <> ∅ ->
     _match_rule xhr_rule "http://example.com/track" "GET" (Some h) None = true ->
     h !! "X-Requested-With" = Some "XMLHttpRequest") /\
  _match_rule xhr_rule "http://example.com/track" "GET" (Some ∅) None
  = _match_rule (without_headers xhr_rule) "http://example.com/track" "GET" (Some ∅) None.
Proof.
  destruct (headers_constraint_needs_supplied_headers xhr_rule
              "http://example.com/track" "GET" None
              {[ "X-Requested-With" := "XMLHttpRequest" ]}) as [H1 H2].
  - reflexivity.
  - apply insert_non_empty.
  - split.
    + intros h Hh Hm. apply (H1 h Hh Hm). apply lookup_singleton_eq.
    + apply H2. reflexivity.
Defined.

(** C6, as stated, fails: a request that supplies no headers satisfies a
    rule that lists a required header. *)
Lemma rule_with_headers_accepts_request_without_headers :
  headers xhr_rule = Some {[ "X-Requested-With" := "XMLHttpRequest" ]} /\
  _match_rule xhr_rule "http://example.com/track" "GET" None None = true /\
  _match_rule xhr_rule "http://example.com/track" "GET" (Some ∅) None = true.
Proof. repeat split. Qed.

Lemma list_entries_compared_with_lowercased_authority_witness :
  let e_upper := load_config (Some cfg_deny_capitals) FilterEngine_new in
  let e_lower := load_config (Some cfg_deny) FilterEngine_new in
  str_lower "Ads.Example.com" <> "Ads.Example.com" /\
  (returned (should_block (without_entry "Ads.Example.com" e_upper) ad_url "GET" None None 0 0)
   = returned (should_block e_upper ad_url "GET" None None 0 0)) /\
  returned (should_block e_lower ad_url "GET" None None 0 0) = Some (true, None).
Proof.
  intros e_upper e_lower.
  destruct (list_entries_compared_with_lowercased_authority
              e_upper "Ads.Example.com" ad_url "GET" None None 0 0
              lower_idempotent has_upper_lower)
    as (_ & Hcap & Hnever & _).
  split; [apply Hcap; reflexivity|]. split.
  - apply Hnever, Hcap. reflexivity.
  - destruct (list_entries_compared_with_lowercased_authority
                e_lower "ads.example.com" ad_url "GET" None None 0 0
                lower_idempotent has_upper_lower)
      as (_ & _ & _ & H).
    destruct (H eq_refl
                (urllib.mkParseResult "http" "Ads.Example.com" "/banner" "" "" "")
                eq_refl eq_refl) as [_ H'].
    apply H'.
    + reflexivity.
    + vm_compute. reflexivity.
    + vm_compute. discriminate.
Defined.

(** C9, as stated, fails: an entry may hold an upper-case letter and be
    matched all the same. U+2102 is an upper-case letter that [str.lower]
    leaves as it is; the host that begins with it is blacklisted as the
    URL has it, the request for it is blocked by that entry, and without
    the entry it is allowed. *)
Lemma entry_with_capital_letter_is_matched :
  let e := load_config (Some cfg_deny_capital_c) FilterEngine_new in
  Utf8.decode (bytes_of_string capital_c_host)
    = Some (0x2102 :: Text.of_string ".example.com") /\
  urlparse capital_c_url
    = Some (urllib.mkParseResult "http" capital_c_host "/banner" "" "" "") /\
  str_lower capital_c_host = capital_c_host /\
  capital_c_host ∈ blacklist_domains e /\
  returned (should_block e capital_c_url "GET" None None 0 0) = Some (true, None) /\
  returned (should_block (without_entry capital_c_host e) capital_c_url "GET" None None 0 0)
    = Some (false, None).
Proof.
  intros e. repeat split; vm_compute; reflexivity.
Qed.

End Concrete.

(** * The engine and the rewriter on concrete inputs, continued *)

Section ConcreteRewriter.

Import Examples.
#[local] Existing Instance PyRef.lib.

Lemma undecodable_body_returned_unchanged_witness :
  process_html ContentProcessor_new [xff; xfe; x3c; x70; x3e] "http://example.com/"
  = Some [xff; xfe; x3c; x70; x3e].
Proof. apply undecodable_body_returned_unchanged. reflexivity. Defined.

Lemma rewriter_inserts_one_style_and_one_script_witness :
  exists a b c d out,
    first_at close_head (Text.of_string page_text) a b /\
    first_at close_body
      (a ++ style_tag ContentProcessor_new ++ close_head ++ b)%list c d /\
    process_html ContentProcessor_new page "http://example.com/" = Some out /\
    Utf8.decode out
      = Some (c ++ script_tag ContentProcessor_new ++ close_body ++ d)%list /\
    occurrences (style_tag ContentProcessor_new)
                (c ++ script_tag ContentProcessor_new ++ close_body ++ d)%list
      = S (occurrences (style_tag ContentProcessor_new) (Text.of_string page_text)) /\
    occurrences (script_tag ContentProcessor_new)
                (c ++ script_tag ContentProcessor_new ++ close_body ++ d)%list
      = S (occurrences (script_tag ContentProcessor_new) (Text.of_string page_text)) /\
    length out = (length page + length (style_tag ContentProcessor_new)
                  + length (script_tag ContentProcessor_new))%nat /\
    (length page < length out)%nat.
Proof.
  apply rewriter_inserts_one_style_and_one_script; vm_compute; reflexivity.
Defined.

(** C8, as stated, fails: a body that has been through the rewriter once
    decodes, contains [</head>] and [</body>], and comes out of a second
    pass with two style blocks and two script blocks. *)
Lemma rewritten_body_gets_second_blocks :
  exists out1 text1 out2 text2,
    process_html ContentProcessor_new page "http://example.com/" = Some out1 /\
    Utf8.decode out1 = Some text1 /\
    Text.contains close_head text1 = true /\
    Text.contains close_body text1 = true /\
    process_html ContentProcessor_new out1 "http://example.com/" = Some out2 /\
    Utf8.decode out2 = Some text2 /\
    occurrences (style_tag ContentProcessor_new) text2 = 2%nat /\
    occurrences (script_tag ContentProcessor_new) text2 = 2%nat.
Proof.
  pose (out1 := default [] (process_html ContentProcessor_new page "http://example.com/")).
  pose (out2 := default [] (process_html ContentProcessor_new out1 "http://example.com/")).
  exists out1, (default [] (Utf8.decode out1)), out2, (default [] (Utf8.decode out2)).
  repeat split; vm_compute; reflexivity.
Qed.

(** C10 (amended). A rule is put in the regex index with its pattern
    compiled under [re.IGNORECASE]; an engine with a single rule made of a
    pattern decides by [search] on that compiled pattern when the pattern
    has a metacharacter, and by case-sensitive substring containment when
    it has none. So the regex tier ignores letter case as far as the
    compiled pattern does: two URLs that the compiled pattern does not
    tell apart get the same verdict. With the reference [re], a compiled
    pattern all of whose items ignore letter case is found in a URL
    exactly when it is found in the same URL in another letter case. And
    two rules whose patterns differ in one character, a dot in one and a
    hyphen in the other, give different verdicts for the URL that is their
    own pattern in capitals: the regex-tier rule blocks it (and does not
    block a URL of another host), the literal-tier rule does not, though
    it blocks the URL written as the pattern is. *)
Theorem regex_tier_ignores_case_literal_tier_does_not :
  (forall (Lib : PyLib) (e : FilterEngine) regex r,
     reachable e -> (regex, r) ∈ regex_rules e ->
     has_regex_meta (pattern r) = true /\
     re_compile (pattern r) RE_IGNORECASE = Some regex) /\
  (forall (Lib : PyLib) p d url m hs ct t1 t2 parsed,
     urlparse url = Some parsed ->
     verdict_of (should_block (add_rule (FilterRule_default p "block" d) FilterEngine_new)
                              url m hs ct t1 t2)
     = Some (if has_regex_meta p then
               match re_compile p RE_IGNORECASE with
               | Some regex => re_search regex url
               | None => false
               end
             else Str.contains p url)) /\
  (forall (Lib : PyLib) p d regex u u' m hs ct t1 t2,
     has_regex_meta p = true ->
     re_compile p RE_IGNORECASE = Some regex ->
     is_Some (urlparse u) -> is_Some (urlparse u') ->
     re_search regex u = re_search regex u' ->
     verdict_of (should_block (add_rule (FilterRule_default p "block" d) FilterEngine_new)
                              u m hs ct t1 t2)
     = verdict_of (should_block (add_rule (FilterRule_default p "block" d) FilterEngine_new)
                                u' m hs ct t1 t2)) /\
  (forall regex u u',
     PyRef.all_ignorecase regex = true ->
     Str.lower u = Str.lower u' ->
     PyRef.search regex u = PyRef.search regex u') /\
  (exists p_re p_lit u_re u_lit u_other : string,
     has_regex_meta p_re = true /\ has_regex_meta p_lit = false /\
     (exists regex, PyRef.compile p_re RE_IGNORECASE = Some regex /\
                    PyRef.all_ignorecase regex = true) /\
     Str.lower u_re = Str.lower p_re /\ u_re <> p_re /\
     Str.lower u_lit = Str.lower p_lit /\ u_lit <> p_lit /\
     verdict_of (should_block (add_rule (FilterRule_default p_re "block" "") FilterEngine_new)
                              u_re "GET" None None 0 0) = Some true /\
     verdict_of (should_block (add_rule (FilterRule_default p_re "block" "") FilterEngine_new)
                              u_other "GET" None None 0 0) = Some false /\
     verdict_of (should_block (add_rule (FilterRule_default p_lit "block" "") FilterEngine_new)
                              u_lit "GET" None None 0 0) = Some false /\
     verdict_of (should_block (add_rule (FilterRule_default p_lit "block" "") FilterEngine_new)
                              p_lit "GET" None None 0 0) = Some true).
Proof.
  split; [|split; [|split; [|split]]].
  - intros Lib e regex r. apply regex_rules_compiled.
  - intros Lib p d url m hs ct t1 t2 parsed. apply single_rule_verdict.
  - intros Lib p d regex u u' m hs ct t1 t2 Hm Hc [parsed Hp] [parsed' Hp'] Hs.
    rewrite (single_rule_verdict p d u m hs ct t1 t2 parsed Hp).
    rewrite (single_rule_verdict p d u' m hs ct t1 t2 parsed' Hp').
    now rewrite Hm, Hc, Hs.
  - apply PyRefFacts.search_ignorecase.
  - exists "http://ads.example/t", "http://ads-example/t",
      "HTTP://ADS.EXAMPLE/T", "HTTP://ADS-EXAMPLE/T", "http://example.org/".
    split; [reflexivity|]. split; [reflexivity|].
    split; [eexists; split; reflexivity|].
    repeat split; try discriminate; vm_compute; reflexivity.
Qed.

Lemma regex_tier_ignores_case_literal_tier_does_not_witness :
  verdict_of (should_block (add_rule (FilterRule_default ".*\.tk$" "block" "") FilterEngine_new)
                           "HTTP://FREE.TK" "GET" None None 0 0)
  = verdict_of (should_block (add_rule (FilterRule_default ".*\.tk$" "block" "") FilterEngine_new)
                             "http://free.tk" "GET" None None 0 0) /\
  verdict_of (should_block (add_rule (FilterRule_default ".*\.tk$" "block" "") FilterEngine_new)
                           "HTTP://FREE.TK" "GET" None None 0 0) = Some true /\
  verdict_of (should_block (add_rule (FilterRule_default ".*\.tk$" "block" "") FilterEngine_new)
                           "http://free.tk/x" "GET" None None 0 0) = Some false.
Proof.
  destruct regex_tier_ignores_case_literal_tier_does_not as (_ & HB & HC & HD & _).
  pose (regex := default (PyRef.mkRegex [] true) (PyRef.compile ".*\.tk$" RE_IGNORECASE)).
  split; [|split].
  - apply (HC PyRef.lib ".*\.tk$" "" regex "HTTP://FREE.TK" "http://free.tk"
              "GET" None None 0 0).
    + reflexivity.
    + reflexivity.
    + eexists. reflexivity.
    + eexists. reflexivity.
    + apply HD; reflexivity.
  - rewrite (HB PyRef.lib ".*\.tk$" "" "HTTP://FREE.TK" "GET" None None 0 0
               (urllib.mkParseResult "http" "FREE.TK" "" "" "" "")); reflexivity.
  - rewrite (HB PyRef.lib ".*\.tk$" "" "http://free.tk/x" "GET" None None 0 0
               (urllib.mkParseResult "http" "free.tk" "/x" "" "" "")); reflexivity.
Defined.

(** C10, as stated, fails: a rule of the regex index need not ignore letter
    case. The pattern [(?-i:ads)] has a metacharacter and compiles under
    [re.IGNORECASE], but its group switches the flag off: the rule blocks
    the URL that has [ads] in lower case and does not block the URL that
    differs from it by letter case only. *)
Lemma scoped_flag_rule_is_case_sensitive :
  let p := "(?-i:ads)" in
  let e := add_rule (FilterRule_default p "block" "") FilterEngine_new in
  has_regex_meta p = true /\
  (exists regex, re_compile p RE_IGNORECASE = Some regex /\
                 (regex, FilterRule_default p "block" "") ∈ regex_rules e) /\
  Str.lower "http://ADS.example/" = Str.lower "http://ads.example/" /\
  verdict_of (should_block e "http://ads.example/" "GET" None None 0 0) = Some true /\
  verdict_of (should_block e "http://ADS.example/" "GET" None None 0 0) = Some false.
Proof.
  intros p e. split; [reflexivity|]. split.
  - eexists. split; [reflexivity|]. apply list_elem_of_In. left. reflexivity.
  - repeat split; vm_compute; reflexivity.
Qed.

End ConcreteRewriter.

(** * More properties of the filter engine *)

Section EngineMoreFacts.

Context `{Lib : PyLib}.

Implicit Types (e : FilterEngine) (url m key : string)
  (hs : option (gmap string string)) (ct : option string).

Lemma find_app_miss {A} (f : A -> bool) (l : list A) (x : A) :
  f x = false -> List.find f (l ++ [x])%list = List.find f l.
Proof.
  intros Hx. induction l as [|y l IH]; cbn; [now rewrite Hx|].
  destruct (f y); [reflexivity | exact IH].
Qed.

Lemma find_filter {A} (f g : A -> bool) (l : list A) :
  List.find f (List.filter g l) = List.find (fun x => g x && f x)%bool l.
Proof.
  induction l as [|y l IH]; [reflexivity|].
  cbn. destruct (g y); cbn; [|exact IH].
  destruct (f y); [reflexivity | exact IH].
Qed.

Lemma find_ext_eq {A} (f g : A -> bool) (l : list A) :
  (forall x, f x = g x) -> List.find f l = List.find g l.
Proof.
  intros H. induction l as [|y l IH]; [reflexivity|].
  cbn. rewrite H, IH. reflexivity.
Qed.

(** What [should_block] returns on a cache miss depends on the engine
    through the lists [first_match] and its companions scan. *)
Lemma should_block_miss e url m hs ct t1 t2 parsed :
  urlparse url = Some parsed ->
  cache_fresh e (cache_key m url) t1 = None ->
  returned (should_block e url m hs ct t1 t2) =
  Some (
    let d := str_lower (urllib.netloc parsed) in
    if bool_decide (d ∈ whitelist_domains e) then (false, None)
    else if bool_decide (d ∈ blacklist_domains e) then (true, None)
    else match first_match (default [] (domain_rules e !! d)) url m hs ct with
         | Some r => (is_block r, Some r)
         | None =>
         match first_match (default [] (path_rules e !! urllib.path parsed)) url m hs ct with
         | Some r => (is_block r, Some r)
         | None =>
         match first_regex_match (regex_rules e) url m hs ct with
         | Some r => (is_block r, Some r)
         | None =>
         match first_literal_match (rules e) url m hs ct with
         | Some r => (is_block r, Some r)
         | None => (false, None)
         end end end end).
Proof.
  intros Hp Hc. unfold returned, should_block. rewrite Hp. cbn zeta. rewrite Hc.
  repeat match goal with
         | |- context [if ?b then _ else _] => destruct b; try reflexivity
         | |- context [match ?o with Some _ => _ | None => _ end] =>
             destruct o; try reflexivity
         end.
Qed.

(** What [should_block] returns is the same for two engines that agree on
    the cache entry of the request, on the two lists, and on the rule at
    which each of the four loops stops. *)
Lemma returned_same e e' url m hs ct t1 t2 :
  cache_fresh e' (cache_key m url) t1 = cache_fresh e (cache_key m url) t1 ->
  whitelist_domains e' = whitelist_domains e ->
  blacklist_domains e' = blacklist_domains e ->
  (forall k, first_match (default [] (domain_rules e' !! k)) url m hs ct
             = first_match (default [] (domain_rules e !! k)) url m hs ct) ->
  (forall k, first_match (default [] (path_rules e' !! k)) url m hs ct
             = first_match (default [] (path_rules e !! k)) url m hs ct) ->
  first_regex_match (regex_rules e') url m hs ct
    = first_regex_match (regex_rules e) url m hs ct ->
  first_literal_match (rules e') url m hs ct
    = first_literal_match (rules e) url m hs ct ->
  returned (should_block e' url m hs ct t1 t2)
  = returned (should_block e url m hs ct t1 t2).
Proof.
  intros Hc Hw Hb Hd Hp Hr Hl. unfold returned, should_block.
  destruct (urlparse url) as [parsed|]; [|reflexivity]. cbn zeta.
  rewrite Hc, Hw, Hb, Hd, Hp, Hr, Hl.
  destruct (cache_fresh e (cache_key m url) t1); [reflexivity|].
  repeat match goal with
         | |- context [if ?b then _ else _] => destruct b; try reflexivity
         | |- context [match ?o with Some _ => _ | None => _ end] =>
             destruct o; try reflexivity
         end.
Qed.

Lemma first_match_index_append (d : gmap string (list FilterRule)) k0 rule k url m hs ct :
  _match_rule rule url m hs ct = false ->
  first_match (default [] (index_append k0 rule d !! k)) url m hs ct
  = first_match (default [] (d !! k)) url m hs ct.
Proof.
  intros Hm. unfold index_append. destruct (decide (k0 = k)) as [->|Hne].
  - rewrite lookup_insert_eq. cbn. unfold first_match. now apply find_app_miss.
  - now rewrite lookup_insert_ne.
Qed.

(** X1. A rule that does not pass [_match_rule] for a request, a disabled
    rule in particular, has no part in the answer to that request: with
    or without it in the engine, [should_block] returns the same. *)
Theorem unmatched_rule_is_inert e rule url m hs ct t1 t2 :
  enabled rule = false \/ _match_rule rule url m hs ct = false ->
  returned (should_block (add_rule rule e) url m hs ct t1 t2)
  = returned (should_block e url m hs ct t1 t2).
Proof.
  intros H.
  assert (Hm : _match_rule rule url m hs ct = false).
  { destruct H as [H|H]; [|exact H]. unfold _match_rule. now rewrite H. }
  clear H. apply returned_same; try reflexivity.
  - intros k. cbn [domain_rules add_rule].
    destruct (Str.truthy_opt (domain rule)); [|reflexivity].
    now apply first_match_index_append.
  - intros k. cbn [path_rules add_rule].
    destruct (Str.truthy_opt (path rule)); [|reflexivity].
    now apply first_match_index_append.
  - cbn [regex_rules add_rule].
    destruct (has_regex_meta (pattern rule)); [|reflexivity].
    destruct (re_compile (pattern rule) RE_IGNORECASE) as [regex|]; [|reflexivity].
    unfold first_regex_match. f_equal. apply find_app_miss.
    now rewrite Hm, andb_false_r.
  - cbn [rules add_rule]. unfold first_literal_match. apply find_app_miss.
    now rewrite Hm, andb_false_r.
Qed.

(** ** The indices and the rule list *)

Lemma filter_app_one {A} (f : A -> bool) (l : list A) (x : A) :
  List.filter f (l ++ [x])%list
  = (List.filter f l ++ if f x then [x] else [])%list.
Proof.
  induction l as [|y l IH]; cbn; [now destruct (f x)|].
  rewrite IH. now destruct (f y).
Qed.

Lemma index_append_filter (d : gmap string (list FilterRule)) rs rule
    (tier : string -> FilterRule -> bool) k0 :
  (forall k, tier k rule = String.eqb k0 k) ->
  (forall k, default [] (d !! k) = List.filter (tier k) rs) ->
  forall k, default [] (index_append k0 rule d !! k)
            = List.filter (tier k) (rs ++ [rule])%list.
Proof.
  intros Ht Hd k. rewrite filter_app_one, Ht. unfold index_append.
  destruct (String.eqb_spec k0 k) as [->|Hne].
  - rewrite lookup_insert_eq. cbn. now rewrite Hd.
  - rewrite lookup_insert_ne by exact Hne. now rewrite Hd, app_nil_r.
Qed.

Lemma index_exact_new : index_exact FilterEngine_new.
Proof. split; [|split]; try reflexivity; intros k; cbn; now rewrite lookup_empty. Qed.

Lemma index_exact_add_rule rule e : index_exact e -> index_exact (add_rule rule e).
Proof.
  intros (Hd & Hp & Hr). split; [|split]; cbn [domain_rules path_rules regex_rules rules add_rule].
  - destruct (Str.truthy_opt (domain rule)) eqn:E.
    + apply index_append_filter; [|exact Hd].
      intros k. unfold has_domain. now rewrite E.
    + intros k. assert (Hk : has_domain k rule = false)
        by (unfold has_domain; now rewrite E).
      now rewrite filter_app_one, Hd, Hk, app_nil_r.
  - destruct (Str.truthy_opt (path rule)) eqn:E.
    + apply index_append_filter; [|exact Hp].
      intros k. unfold has_path. now rewrite E.
    + intros k. assert (Hk : has_path k rule = false)
        by (unfold has_path; now rewrite E).
      now rewrite filter_app_one, Hp, Hk, app_nil_r.
  - rewrite flat_map_app, <- Hr. cbn [flat_map]. rewrite app_nil_r. unfold compiled.
    destruct (has_regex_meta (pattern rule)); [|now rewrite app_nil_r].
    destruct (re_compile (pattern rule) RE_IGNORECASE); [reflexivity | now rewrite app_nil_r].
Qed.

Lemma index_exact_add_rules rs e : index_exact e -> index_exact (add_rules rs e).
Proof.
  revert e. unfold add_rules. induction rs as [|r rs IH]; intros e He; [exact He|].
  cbn. apply IH. now apply index_exact_add_rule.
Qed.

Lemma index_exact_same_indices e e' :
  rules e' = rules e -> domain_rules e' = domain_rules e ->
  path_rules e' = path_rules e -> regex_rules e' = regex_rules e ->
  index_exact e -> index_exact e'.
Proof. intros H1 H2 H3 H4. unfold index_exact. now rewrite H1, H2, H3, H4. Qed.

Lemma index_exact_load_rule_data rds e :
  index_exact e -> index_exact (load_rule_data rds e).1.
Proof.
  revert e. induction rds as [|[r|] rds IH]; intros e He; cbn; [exact He| |exact He].
  destruct (add_rule_raises r); [now apply index_exact_add_rule|].
  apply IH. now apply index_exact_add_rule.
Qed.

Lemma index_exact_load_config cfg e : index_exact e -> index_exact (load_config cfg e).
Proof.
  intros He. destruct cfg as [c|]; unfold load_config;
    [|now apply index_exact_add_rules].
  match goal with |- context [load_rule_data ?rds ?e1] =>
    pose proof (index_exact_load_rule_data rds e1) as H;
    destruct (load_rule_data rds e1) as [e2 [|]] end; cbn in H.
  - apply H. now apply (index_exact_same_indices e).
  - apply index_exact_add_rules, H. now apply (index_exact_same_indices e).
Qed.

Lemma index_exact_reachable e : reachable e -> index_exact e.
Proof.
  induction 1 as [cfg | r e _ IH | cfg e _ IH
                 | e url m hs ct t1 t2 [v r] e' _ IH Hs].
  - destruct cfg as [cfg|]; unfold FilterEngine_init, load_default_rules.
    + apply index_exact_load_config, index_exact_new.
    + apply index_exact_add_rules, index_exact_new.
  - now apply index_exact_add_rule.
  - now apply index_exact_load_config.
  - destruct (should_block_inv _ _ _ _ _ _ _ _ _ _ Hs)
      as [(_ & _ & ->) | (_ & ->)]; [exact IH|].
    now apply (index_exact_same_indices e).
Qed.

(** X2. In every engine that the methods of the class produce, the three
    indices are views of the rule list: each list of the domain index is
    the rules added with that domain, each list of the path index the
    rules added with that path, and the regex index the rules whose
    pattern has a metacharacter and compiles, all in insertion order and
    with the multiplicity they have in the rule list. *)
Theorem indices_are_views_of_rule_list e :
  reachable e ->
  (forall k, default [] (domain_rules e !! k) = List.filter (has_domain k) (rules e)) /\
  (forall k, default [] (path_rules e !! k) = List.filter (has_path k) (rules e)) /\
  regex_rules e = flat_map compiled (rules e).
Proof. apply index_exact_reachable. Qed.

Lemma first_regex_match_compiled rs url m hs ct :
  first_regex_match (flat_map compiled rs) url m hs ct
  = List.find (fun r => existsb (fun p => re_search p.1 url) (compiled r)
                        && _match_rule r url m hs ct)%bool rs.
Proof.
  unfold first_regex_match. induction rs as [|r rs IH]; [reflexivity|].
  cbn [flat_map List.find]. unfold compiled at 1 3.
  destruct (has_regex_meta (pattern r)); [|exact IH].
  destruct (re_compile (pattern r) RE_IGNORECASE) as [regex|]; [|exact IH].
  cbn. rewrite orb_false_r.
  destruct (re_search regex url && _match_rule r url m hs ct)%bool; [reflexivity | exact IH].
Qed.

Lemma should_block_agrees_with_scan_lemma e url m hs ct t1 t2 parsed :
  reachable e ->
  urlparse url = Some parsed ->
  cache_fresh e (cache_key m url) t1 = None ->
  returned (should_block e url m hs ct t1 t2)
  = Some (decide_by_scan (rules e) (whitelist_domains e) (blacklist_domains e)
            parsed url m hs ct).
Proof.
  intros Hreach Hp Hc.
  destruct (index_exact_reachable e Hreach) as (Hd & Hpa & Hr).
  rewrite (should_block_miss _ _ _ _ _ _ _ _ Hp Hc). f_equal.
  unfold decide_by_scan. cbn zeta.
  rewrite Hd, Hpa, Hr. unfold first_match.
  rewrite !find_filter, first_regex_match_compiled. reflexivity.
Qed.

(** X3. The indices change nothing to the answers: in every engine that
    the methods of the class produce, what [should_block] returns on a
    cache miss is what one pass per tier over the rule list gives, in
    the order whitelist, blacklist, rules with the request's domain, rules
    with the request's path, rules with a compiled pattern, literal
    rules. *)
Theorem should_block_agrees_with_scan e url m hs ct t1 t2 parsed :
  reachable e ->
  urlparse url = Some parsed ->
  cache_fresh e (cache_key m url) t1 = None ->
  returned (should_block e url m hs ct t1 t2)
  = Some (decide_by_scan (rules e) (whitelist_domains e) (blacklist_domains e)
            parsed url m hs ct).
Proof. apply should_block_agrees_with_scan_lemma. Qed.

(** ** What a call changes *)

(** X4. A call of [should_block] that returns leaves the rules, the three
    indices, the two lists and the time to live as they are, and changes
    the cache at most under the key of the request: after the call the
    cache holds the returned verdict under that key, and every other key
    has the verdict and the expiry it had. *)
Theorem should_block_touches_one_cache_entry e url m hs ct t1 t2 v r e' :
  should_block e url m hs ct t1 t2 = Some ((v, r), e') ->
  rules e' = rules e /\ domain_rules e' = domain_rules e /\
  path_rules e' = path_rules e /\ regex_rules e' = regex_rules e /\
  whitelist_domains e' = whitelist_domains e /\
  blacklist_domains e' = blacklist_domains e /\
  cache_ttl e' = cache_ttl e /\
  cache e' !! cache_key m url = Some v /\
  (forall key, key <> cache_key m url ->
     cache e' !! key = cache e !! key /\
     cache_expiry e' !! key = cache_expiry e !! key).
Proof.
  intros Hs.
  pose proof (should_block_cached _ _ _ _ _ _ _ _ _ _ Hs) as Hv.
  destruct (should_block_inv _ _ _ _ _ _ _ _ _ _ Hs)
    as [(_ & _ & ->) | (_ & ->)].
  - do 7 (split; [reflexivity|]). split; [exact Hv|]. intros key _. split; reflexivity.
  - do 7 (split; [reflexivity|]). split; [exact Hv|]. intros key Hne.
    cbn. rewrite !lookup_insert_ne by congruence. split; reflexivity.
Qed.

Lemma cache_paired_same e e' :
  cache e' = cache e -> cache_expiry e' = cache_expiry e ->
  cache_paired e -> cache_paired e'.
Proof. intros H1 H2. unfold cache_paired. now rewrite H1, H2. Qed.

Lemma cache_paired_reachable e : reachable e -> cache_paired e.
Proof.
  induction 1 as [cfg | r e _ IH | cfg e _ IH
                 | e url m hs ct t1 t2 [v r] e' _ IH Hs].
  - assert (Hnew : cache_paired FilterEngine_new).
    { intros key. split; intros [x Hx]; cbn in Hx; now rewrite lookup_empty in Hx. }
    destruct cfg as [cfg|]; unfold FilterEngine_init.
    + destruct (load_config_cache cfg FilterEngine_new) as [H1 H2].
      now apply (cache_paired_same FilterEngine_new).
    + destruct (add_rules_cache default_rules FilterEngine_new) as [H1 H2].
      now apply (cache_paired_same FilterEngine_new).
  - exact IH.
  - destruct (load_config_cache cfg e) as [H1 H2].
    now apply (cache_paired_same e).
  - destruct (should_block_inv _ _ _ _ _ _ _ _ _ _ Hs)
      as [(_ & _ & ->) | (_ & ->)]; [exact IH|].
    intros key. cbn. destruct (decide (cache_key m url = key)) as [->|Hne].
    + rewrite !lookup_insert_eq. split; eauto.
    + rewrite !lookup_insert_ne by exact Hne. apply IH.
Qed.

(** X5. In every engine that the methods of the class produce, a key is
    in the cache exactly when it has an expiry, so the default of
    [self.cache_expiry.get(cache_key, 0)] is never used; and no method
    takes a key out of the cache: after [add_rule], [load_config] or a
    call of [should_block] every key that was cached still is. *)
Theorem cache_keys_paired_and_kept e :
  reachable e ->
  (forall key, is_Some (cache e !! key) <-> is_Some (cache_expiry e !! key)) /\
  (forall key v, cache e !! key = Some v ->
     (forall rule, is_Some (cache (add_rule rule e) !! key)) /\
     (forall cfg, is_Some (cache (load_config cfg e) !! key)) /\
     (forall url m hs ct t1 t2 res e',
        should_block e url m hs ct t1 t2 = Some (res, e') ->
        is_Some (cache e' !! key))).
Proof.
  intros Hreach. split; [now apply cache_paired_reachable|].
  intros key v Hk. split; [|split].
  - intros rule. cbn. eauto.
  - intros cfg. destruct (load_config_cache cfg e) as [-> _]. eauto.
  - intros url m hs ct t1 t2 [v' r] e' Hs.
    destruct (should_block_inv _ _ _ _ _ _ _ _ _ _ Hs)
      as [(_ & _ & ->) | (_ & ->)]; [eauto|].
    cbn. destruct (decide (cache_key m url = key)) as [->|Hne].
    + rewrite lookup_insert_eq. eauto.
    + rewrite lookup_insert_ne by exact Hne. eauto.
Qed.

(** X6. When [should_block] reports a rule, the answer was computed and
    not read from the cache, the rule is enabled and passes [_match_rule]
    for the request, and the verdict is the truth of [rule.action ==
    "block"]; and in an engine that the methods of the class produce the
    rule is one of [self.rules]. *)
Theorem reported_rule_is_a_matching_rule e url m hs ct t1 t2 v rule e' :
  should_block e url m hs ct t1 t2 = Some ((v, Some rule), e') ->
  cache_fresh e (cache_key m url) t1 = None /\
  enabled rule = true /\
  _match_rule rule url m hs ct = true /\
  v = is_block rule /\
  (reachable e -> rule ∈ rules e).
Proof.
  intros Hs.
  destruct (should_block_parses _ _ _ _ _ _ _ _ Hs) as [parsed Hp].
  destruct (should_block_inv _ _ _ _ _ _ _ _ _ _ Hs)
    as [(_ & [=] & _) | (Hc & _)].
  split; [exact Hc|].
  pose proof (should_block_miss e url m hs ct t1 t2 parsed Hp Hc) as Hm.
  rewrite Hs in Hm. cbn in Hm. injection Hm as Hm.
  assert (Hfind : _match_rule rule url m hs ct = true /\ v = is_block rule /\
                  (index_exact e -> rule ∈ rules e)).
  { set (d := str_lower (urllib.netloc parsed)) in *.
    destruct (bool_decide (d ∈ whitelist_domains e)); [discriminate|].
    destruct (bool_decide (d ∈ blacklist_domains e)); [discriminate|].
    destruct (first_match (default [] (domain_rules e !! d)) url m hs ct) as [r1|] eqn:E1.
    { injection Hm as -> ->. apply find_some in E1 as [Hin Hmr].
      repeat split; [exact Hmr|]. intros (Hd & _). rewrite Hd in Hin.
      apply filter_In in Hin as [Hin _]. now apply list_elem_of_In. }
    destruct (first_match (default [] (path_rules e !! urllib.path parsed)) url m hs ct)
      as [r2|] eqn:E2.
    { injection Hm as -> ->. apply find_some in E2 as [Hin Hmr].
      repeat split; [exact Hmr|]. intros (_ & Hpa & _). rewrite Hpa in Hin.
      apply filter_In in Hin as [Hin _]. now apply list_elem_of_In. }
    destruct (first_regex_match (regex_rules e) url m hs ct) as [r3|] eqn:E3.
    { injection Hm as -> ->. unfold first_regex_match in E3.
      destruct (List.find _ (regex_rules e)) as [[regex r3']|] eqn:E3'; [|discriminate].
      cbn in E3. injection E3 as ->.
      apply find_some in E3' as [Hin Hmr]. apply andb_true_iff in Hmr as [_ Hmr].
      repeat split; [exact Hmr|]. intros (_ & _ & Hr). rewrite Hr in Hin.
      apply in_flat_map in Hin as (r0 & Hin0 & Hc0). unfold compiled in Hc0.
      destruct (has_regex_meta (pattern r0)); [|destruct Hc0].
      destruct (re_compile (pattern r0) RE_IGNORECASE); [|destruct Hc0].
      destruct Hc0 as [[= _ ->]|[]]. now apply list_elem_of_In. }
    destruct (first_literal_match (rules e) url m hs ct) as [r4|] eqn:E4; [|discriminate].
    injection Hm as -> ->. apply find_some in E4 as [Hin Hmr].
    apply andb_true_iff in Hmr as [_ Hmr].
    repeat split; [exact Hmr|]. intros _. now apply list_elem_of_In. }
  destruct Hfind as (Hmr & Hv & Hin).
  split; [|split; [exact Hmr | split; [exact Hv|]]].
  - unfold _match_rule in Hmr. destruct (enabled rule); [reflexivity | discriminate].
  - intros Hreach. now apply Hin, index_exact_reachable.
Qed.

(** X10. A cache entry at or past its expiry has no part in the answer:
    when the key of the request is not in the cache, or the clock reading
    of the cache test is not before its expiry, [should_block] returns
    what it returns with an empty cache. *)
Theorem stale_entry_is_ignored e url m hs ct t1 t2 :
  cache e !! cache_key m url = None \/
  default 0 (cache_expiry e !! cache_key m url) <= t1 ->
  returned (should_block e url m hs ct t1 t2)
  = returned (should_block (without_cache e) url m hs ct t1 t2).
Proof.
  intros H. symmetry. apply returned_same; try reflexivity.
  unfold cache_fresh at 1. cbn [cache without_cache]. rewrite lookup_empty.
  unfold cache_fresh. destruct H as [-> | H]; [reflexivity|].
  destruct (cache e !! cache_key m url); [|reflexivity].
  destruct (Z.ltb_spec t1 (default 0 (cache_expiry e !! cache_key m url)));
    [lia | reflexivity].
Qed.

(** ** Loading a configuration *)




(** ** The method of a request *)

Lemma match_rule_method rule url m m' hs ct :
  str_upper m = str_upper m' ->
  _match_rule rule url m hs ct = _match_rule rule url m' hs ct.
Proof. intros H. unfold _match_rule. now rewrite H. Qed.

(** X8. Rules compare the method of a request without regard to letter
    case, after [str.upper], but the cache key is made of the method as it
    is written. So two requests for one URL whose methods differ by letter
    case only, and have the same upper-casing, get the same answer when
    neither is answered from the cache, and they never share a cache entry
    unless the methods are equal. *)
Theorem method_case_matters_to_the_cache_only e url m m' hs ct t1 t2 :
  str_upper m = str_upper m' ->
  (cache_fresh e (cache_key m url) t1 = None ->
   cache_fresh e (cache_key m' url) t1 = None ->
   returned (should_block e url m hs ct t1 t2)
   = returned (should_block e url m' hs ct t1 t2)) /\
  (cache_key m url = cache_key m' url -> m = m').
Proof.
  intros Hu. split.
  - intros Hc Hc'. unfold returned, should_block.
    destruct (urlparse url) as [parsed|]; [|reflexivity]. cbn zeta.
    rewrite Hc, Hc'. unfold first_match, first_regex_match, first_literal_match.
    rewrite (find_ext_eq _ _ (default [] (domain_rules e !! _))
               (fun r => match_rule_method r url m m' hs ct Hu)).
    rewrite (find_ext_eq _ _ (default [] (path_rules e !! _))
               (fun r => match_rule_method r url m m' hs ct Hu)).
    rewrite (find_ext_eq
               (fun '(regex, r) => (re_search regex url && _match_rule r url m hs ct)%bool)
               (fun '(regex, r) => (re_search regex url && _match_rule r url m' hs ct)%bool)
               (regex_rules e))
      by (intros [regex r]; now rewrite (match_rule_method r url m m' hs ct Hu)).
    rewrite (find_ext_eq
               (fun r => (negb (indexed_elsewhere r) && Str.contains (pattern r) url
                          && _match_rule r url m hs ct)%bool)
               (fun r => (negb (indexed_elsewhere r) && Str.contains (pattern r) url
                          && _match_rule r url m' hs ct)%bool)
               (rules e))
      by (intros r; now rewrite (match_rule_method r url m m' hs ct Hu)).
    repeat match goal with
           | |- context [if ?b then _ else _] => destruct b; try reflexivity
           | |- context [match ?o with Some _ => _ | None => _ end] =>
               destruct o; try reflexivity
           end.
  - unfold cache_key. intros H.
    assert (Hinj : forall a b t, (a ++ t = b ++ t)%string -> a = b).
    { intros a b t. revert a b.
      assert (Hlen : forall x y : string, String.length (x ++ y)
                       = (String.length x + String.length y)%nat).
      { intros x y. induction x as [|c x IHx]; simpl; [reflexivity | now f_equal]. }
      induction a as [|c a IH]; intros [|d b] Ht; cbn in Ht.
      - reflexivity.
      - exfalso. apply (f_equal String.length) in Ht.
        simpl in Ht. rewrite ?Hlen in Ht. simpl in Ht. lia.
      - exfalso. apply (f_equal String.length) in Ht.
        simpl in Ht. rewrite ?Hlen in Ht. simpl in Ht. lia.
      - injection Ht as -> Ht. f_equal. now apply IH. }
    now apply Hinj in H.
Qed.

(** ** The priority of a rule *)

Lemma find_related {A} (R : A -> A -> Prop) (f : A -> bool) (l l' : list A) :
  Forall2 R l l' -> (forall x y, R x y -> f x = f y) ->
  option_Forall2 R (List.find f l) (List.find f l').
Proof.
  intros Hl Hf. induction Hl as [|x y l l' Hxy _ IH]; cbn; [constructor|].
  rewrite <- (Hf x y Hxy). destruct (f x); [now constructor | exact IH].
Qed.

Lemma same_but_priority_tests (r r' : FilterRule) url m hs ct :
  same_but_priority r r' ->
  is_block r = is_block r' /\
  _match_rule r url m hs ct = _match_rule r' url m hs ct /\
  (forall k, has_domain k r = has_domain k r') /\
  (forall k, has_path k r = has_path k r') /\
  existsb (fun p => re_search p.1 url) (compiled r)
    = existsb (fun p => re_search p.1 url) (compiled r') /\
  indexed_elsewhere r = indexed_elsewhere r' /\
  Str.contains (pattern r) url = Str.contains (pattern r') url.
Proof.
  intros (Hp & Ha & Hd & Hpa & Hm & Hc & Hh & He).
  unfold is_block, _match_rule, has_domain, has_path, compiled, indexed_elsewhere.
  rewrite Hp, Ha, Hd, Hpa, Hm, Hc, Hh, He.
  repeat split.
  destruct (has_regex_meta (pattern r')); [|reflexivity].
  now destruct (re_compile (pattern r') RE_IGNORECASE).
Qed.

Lemma decide_by_scan_related rs rs' (wl bl : gset string) parsed url m hs ct :
  Forall2 same_but_priority rs rs' ->
  (decide_by_scan rs wl bl parsed url m hs ct).1
  = (decide_by_scan rs' wl bl parsed url m hs ct).1.
Proof.
  intros Hrs. unfold decide_by_scan. cbn zeta.
  destruct (bool_decide _); [reflexivity|]. destruct (bool_decide _); [reflexivity|].
  unfold first_literal_match.
  repeat match goal with
  | |- (match List.find ?f rs with _ => _ end).1 =
       (match List.find ?f rs' with _ => _ end).1 =>
      let H := fresh "H" in
      assert (H : option_Forall2 same_but_priority (List.find f rs) (List.find f rs'));
      [ apply find_related; [exact Hrs|];
        let x := fresh "x" in let y := fresh "y" in let Hxy := fresh "Hxy" in
        intros x y Hxy;
        destruct (same_but_priority_tests x y url m hs ct Hxy)
          as (_ & E2 & E3 & E4 & E5 & E6 & E7);
        rewrite ?E2, ?E3, ?E4, ?E5, ?E6, ?E7; reflexivity
      | destruct H as [x y Hxy|];
        [ cbn; now destruct (same_but_priority_tests x y url m hs ct Hxy) as (E1 & _) | ] ]
  end.
  reflexivity.
Qed.

(** X9. The priority and the description of a rule have no part in any
    verdict. Two engines that the methods of the class produce, with the
    same whitelist and blacklist and with rule lists that agree rule by
    rule in everything but priority and description, give the same verdict
    for every request that neither answers from its cache. *)
Theorem priority_and_description_are_inert e e' url m hs ct t1 t2 t1' t2' :
  reachable e -> reachable e' ->
  Forall2 same_but_priority (rules e) (rules e') ->
  whitelist_domains e = whitelist_domains e' ->
  blacklist_domains e = blacklist_domains e' ->
  cache_fresh e (cache_key m url) t1 = None ->
  cache_fresh e' (cache_key m url) t1' = None ->
  verdict_of (should_block e url m hs ct t1 t2)
  = verdict_of (should_block e' url m hs ct t1' t2').
Proof.
  intros Hr Hr' Hrs Hw Hb Hc Hc'.
  destruct (urlparse url) as [parsed|] eqn:Hp.
  - pose proof (should_block_agrees_with_scan_lemma e url m hs ct t1 t2 parsed Hr Hp Hc) as H1.
    pose proof (should_block_agrees_with_scan_lemma e' url m hs ct t1' t2' parsed Hr' Hp Hc')
      as H2.
    unfold returned in H1, H2. unfold verdict_of.
    destruct (should_block e url m hs ct t1 t2) as [[res e1]|]; [|discriminate].
    destruct (should_block e' url m hs ct t1' t2') as [[res' e1']|]; [|discriminate].
    cbn in *. injection H1 as ->. injection H2 as ->. f_equal.
    rewrite <- Hw, <- Hb. now apply decide_by_scan_related.
  - unfold should_block. now rewrite Hp.
Qed.

End EngineMoreFacts.

(** * More properties of the content rewriter *)

Section RewriterMoreFacts.
Import Utf8 Utf8Facts Text TextFacts.
Local Open Scope list_scope.

Lemma encode_app_Some (a b : Text.t) :
  is_Some (encode (a ++ b)) <-> is_Some (encode a) /\ is_Some (encode b).
Proof.
  rewrite encode_app. destruct (encode a) as [x|], (encode b) as [y|]; split.
  all: try (intros [z Hz]; discriminate Hz).
  all: try (intros [[z Hz] [w Hw]]; discriminate).
  all: eauto.
Qed.

(** The style step inserts the style block at one place, or nothing. *)
Lemma inject_style_inserts cp (html : Text.t) :
  exists a b s, html = a ++ b /\ inject_style cp html = a ++ s ++ b /\
                (s = [] \/ s = style_tag cp).
Proof.
  assert (Hnone : exists a b s, html = a ++ b /\ html = a ++ s ++ b /\
                                (s = [] \/ s = style_tag cp)).
  { exists [], html, []. auto. }
  unfold inject_style. destruct (Str.truthy (_generate_cosmetic_css cp)); [|exact Hnone].
  destruct (contains close_head html) eqn:E1.
  { destruct (contains_split _ _ E1) as (a & b & [Hs _] & Hr).
    exists a, (close_head ++ b), (style_tag cp).
    split; [exact Hs|]. split; [|now right]. now rewrite Hr, <- app_assoc. }
  destruct (contains open_body html) eqn:E2; [|exact Hnone].
  destruct (contains_split _ _ E2) as (a & b & [Hs _] & Hr).
  exists a, (open_body ++ b), (style_tag cp).
  split; [exact Hs|]. split; [|now right]. now rewrite Hr, <- app_assoc.
Qed.

(** The script step inserts the script block at one place, or nothing. *)
Lemma inject_script_inserts cp (html : Text.t) :
  exists c d t, html = c ++ d /\ inject_script cp html = c ++ t ++ d /\
                (t = [] \/ t = script_tag cp).
Proof.
  unfold inject_script. destruct (Str.truthy (_generate_scriptlet_js cp)).
  - destruct (contains close_body html) eqn:E.
    + destruct (contains_split _ _ E) as (c & d & [Hs _] & Hr).
      exists c, (close_body ++ d), (script_tag cp).
      split; [exact Hs|]. split; [|now right]. now rewrite Hr, <- app_assoc.
    + exists html, [], (script_tag cp). rewrite !app_nil_r. auto.
  - exists [], html, []. auto.
Qed.

Lemma insertion_encodes (a b s : Text.t) :
  is_Some (encode (a ++ b)) -> is_Some (encode s) -> is_Some (encode (a ++ s ++ b)).
Proof.
  rewrite !encode_app_Some. tauto.
Qed.

Lemma block_encodes cp (s : Text.t) :
  s = [] \/ s = style_tag cp \/ s = script_tag cp -> is_Some (encode s).
Proof.
  intros [-> | [-> | ->]].
  - eexists. reflexivity.
  - destruct (style_tag_encodes cp) as (sb & -> & _). eauto.
  - destruct (script_tag_encodes cp) as (tb & -> & _). eauto.
Qed.

Lemma process_html_total_lemma
    (cp : ContentProcessor) (content : list byte) (url : string) :
  exists out,
    process_html cp content url = Some out /\
    forall html, Utf8.decode content = Some html ->
                 Utf8.decode out = Some (inject_script cp (inject_style cp html)).
Proof.
  unfold process_html. destruct (Utf8.decode content) as [html|] eqn:Hd.
  - destruct (inject_style_inserts cp html) as (a & b & s & Hab & Hst & Hs).
    destruct (inject_script_inserts cp (inject_style cp html))
      as (c & d & t & Hcd & Hsc & Ht).
    assert (He : is_Some (encode (inject_script cp (inject_style cp html)))).
    { rewrite Hsc. apply insertion_encodes.
      - rewrite <- Hcd, Hst. apply insertion_encodes.
        + rewrite <- Hab. rewrite (encode_decode _ _ Hd). eauto.
        + apply (block_encodes cp). tauto.
      - apply (block_encodes cp). tauto. }
    destruct He as [out Ho]. exists out. split; [exact Ho|].
    intros html' [= <-]. now apply Utf8Inverse.decode_encode.
  - exists content. split; [reflexivity | discriminate].
Qed.

(** X11. [process_html] returns for every body, when the rules of the
    processor hold only characters below U+0100, as the rules that
    [ContentProcessor.__init__] sets do: the style block and the script
    block can then be encoded, and the [encode] at the end cannot raise.
    For a body that decodes, what [process_html] returns decodes again, to
    the text that the two injection steps make of the text of the body. *)
Theorem process_html_always_returns
    (cp : ContentProcessor) (content : list byte) (url : string) :
  is_Some (Utf8.encode (style_tag cp)) /\
  is_Some (Utf8.encode (script_tag cp)) /\
  exists out,
    process_html cp content url = Some out /\
    forall html, Utf8.decode content = Some html ->
                 Utf8.decode out = Some (inject_script cp (inject_style cp html)).
Proof.
  split; [apply (block_encodes cp); tauto|].
  split; [apply (block_encodes cp); tauto|].
  apply process_html_total_lemma.
Qed.

(** X12. The rewriter only inserts. The text of what [process_html]
    returns for a body that decodes is the text of the body with the
    style block inserted at one place or not at all, and then the script
    block inserted at one place or not at all: no character of the body is
    removed, changed or moved. *)
Theorem process_html_only_inserts
    (cp : ContentProcessor) (content : list byte) (url : string) (html : Text.t) :
  Utf8.decode content = Some html ->
  exists a b s c d t out,
    html = a ++ b /\
    a ++ s ++ b = c ++ d /\
    (s = [] \/ s = style_tag cp) /\
    (t = [] \/ t = script_tag cp) /\
    process_html cp content url = Some out /\
    Utf8.decode out = Some (c ++ t ++ d).
Proof.
  intros Hd.
  destruct (inject_style_inserts cp html) as (a & b & s & Hab & Hst & Hs).
  destruct (inject_script_inserts cp (inject_style cp html))
    as (c & d & t & Hcd & Hsc & Ht).
  destruct (process_html_total_lemma cp content url) as (out & Ho & Hdec).
  exists a, b, s, c, d, t, out.
  split; [exact Hab|]. split; [now rewrite <- Hst|].
  split; [exact Hs|]. split; [exact Ht|]. split; [exact Ho|].
  rewrite <- Hsc. now apply Hdec.
Qed.

(** X13. A body that decodes and holds none of [</head>], [<body] and
    [</body>] is not left alone: with a non-empty script, [process_html]
    returns the bytes of the body followed by the bytes of the script block,
    and no style block. *)
Theorem body_without_markup_gets_script_appended
    (cp : ContentProcessor) (content : list byte) (url : string) (html : Text.t) :
  Str.truthy (_generate_scriptlet_js cp) = true ->
  Utf8.decode content = Some html ->
  Text.contains close_head html = false ->
  Text.contains open_body html = false ->
  Text.contains close_body html = false ->
  exists tb,
    Utf8.encode (script_tag cp) = Some tb /\
    (1 <= length tb)%nat /\
    process_html cp content url = Some (content ++ tb).
Proof.
  intros Hjs Hd H1 H2 H3.
  destruct (script_tag_encodes cp) as (tb & Htb & Hl).
  exists tb. split; [exact Htb|]. split; [exact Hl|].
  unfold process_html. rewrite Hd.
  assert (Hst : inject_style cp html = html).
  { unfold inject_style. rewrite H1, H2.
    destruct (Str.truthy (_generate_cosmetic_css cp)); reflexivity. }
  rewrite Hst. unfold inject_script. rewrite Hjs, H3.
  now rewrite encode_app, (encode_decode _ _ Hd), Htb.
Qed.

(** X14. Without [</head>] in the body the style block goes in front of
    the first [<body], whatever follows it: the tag is not looked at beyond
    these five characters, so that a [<bodyguard>] element or a [<body]
    inside a comment or a script takes the block. *)
Theorem style_falls_back_to_first_open_body
    (cp : ContentProcessor) (content : list byte) (url : string) (html : Text.t) :
  Str.truthy (_generate_cosmetic_css cp) = true ->
  Utf8.decode content = Some html ->
  Text.contains close_head html = false ->
  Text.contains open_body html = true ->
  exists a b out,
    first_at open_body html a b /\
    process_html cp content url = Some out /\
    Utf8.decode out =
      Some (inject_script cp (a ++ style_tag cp ++ open_body ++ b)).
Proof.
  intros Hcss Hd H1 H2.
  destruct (contains_split _ _ H2) as (a & b & Hf & Hr).
  destruct (process_html_total_lemma cp content url) as (out & Ho & Hdec).
  exists a, b, out. split; [exact Hf|]. split; [exact Ho|].
  rewrite (Hdec _ Hd). unfold inject_style. rewrite Hcss, H1, H2, Hr.
  now rewrite <- app_assoc.
Qed.

(** X27. A processor with no cosmetic rule and no scriptlet rule returns
    every body as it is, byte for byte, whether it decodes or not: decoding
    and encoding again loses nothing. *)
Theorem processor_without_rules_is_identity
    (cp : ContentProcessor) (content : list byte) (url : string) :
  cosmetic_rules cp = [] -> scriptlet_rules cp = [] ->
  process_html cp content url = Some content.
Proof.
  intros Hc Hs. unfold process_html.
  destruct (Utf8.decode content) as [html|] eqn:Hd; [|reflexivity].
  unfold inject_script, inject_style, _generate_cosmetic_css, _generate_scriptlet_js.
  rewrite Hc, Hs. cbn. now apply encode_decode.
Qed.

End RewriterMoreFacts.

(** * More properties of the header hooks *)

Section HeaderHookFacts.
Import Headers HeadersFacts.
Local Open Scope list_scope.

(** Assigning to a header the one value it has changes nothing. *)
Lemma replace_fields_same h name value :
  (get_all h name = [] -> replace_fields h name value true = h) /\
  (get_all h name = [value] -> replace_fields h name value false = h).
Proof.
  induction h as [|[n v] h [IH1 IH2]]; [split; reflexivity|].
  rewrite get_all_cons. cbn [replace_fields fst snd].
  destruct (same_name n name).
  - split; [discriminate|]. intros [= -> Hr]. now rewrite (IH1 Hr).
  - split; intros Hg; [now rewrite (IH1 Hg) | now rewrite (IH2 Hg)].
Qed.

Lemma set_same h name value :
  get_all h name = [value] -> set h name value = h.
Proof.
  intros Hg. unfold set. rewrite contains_get_all, Hg.
  now apply replace_fields_same.
Qed.

Lemma set_if_absent_present name value h :
  contains h name = true -> set_if_absent name value h = h.
Proof. intros H. unfold set_if_absent. now rewrite H. Qed.

Lemma remove_headers_absent names h :
  (forall n, In n names -> contains h n = false) -> remove_headers names h = h.
Proof.
  unfold remove_headers. induction names as [|n names IH]; intros H; [reflexivity|].
  cbn [fold_left]. rewrite (H n (or_introl eq_refl)).
  apply IH. intros n' Hn'. apply H. now right.
Qed.

Lemma contains_nonempty h name v vs :
  get_all h name = v :: vs -> contains h name = true.
Proof. intros H. now rewrite contains_get_all, H. Qed.

Lemma contains_filled h name (value : string) :
  (if contains h name then get_all h name else [value]) <> [].
Proof.
  destruct (contains h name) eqn:E; [|discriminate].
  rewrite contains_get_all in E. now destruct (get_all h name).
Qed.

(** Decides [same_name] between two names that are given. *)
Ltac closed_names :=
  repeat match goal with
         | |- context [same_name ?a ?b] =>
             lazymatch a with
             | String _ _ =>
               lazymatch b with
               | String _ _ =>
                 let v := eval vm_compute in (same_name a b) in
                 change (same_name a b) with v
               end
             end
         end;
  cbv beta iota.

(** X15. [_add_stealth_headers] is idempotent: run on headers that it has
    already treated, it leaves every field as it is, in name, value and
    order. *)
Theorem stealth_headers_idempotent (h : Headers.t) :
  _add_stealth_headers (_add_stealth_headers h) = _add_stealth_headers h.
Proof.
  set (h' := _add_stealth_headers h).
  assert (Hgone : forall n, In n headers_to_remove -> contains h' n = false).
  { intros n Hn. rewrite contains_get_all. unfold h'. rewrite get_all_stealth.
    cbn in Hn. repeat destruct Hn as [<- | Hn]; try destruct Hn.
    all: closed_names; reflexivity. }
  assert (Hfilled : forall n, In n (fst <$> filled_headers) -> contains h' n = true).
  { intros n Hn. rewrite contains_get_all. unfold h'. rewrite get_all_stealth.
    cbn in Hn. repeat destruct Hn as [<- | Hn]; try destruct Hn.
    all: closed_names.
    all: match goal with
         | |- match (if contains ?h0 ?n then _ else [?v]) with _ => _ end = true =>
             pose proof (contains_filled h0 n v) as Hne;
             destruct (if contains h0 n then get_all h0 n else [v]);
             [now contradiction Hne | reflexivity]
         end. }
  unfold _add_stealth_headers at 1. fold h'.
  rewrite (remove_headers_absent _ _ Hgone).
  rewrite (set_if_absent_present "user-agent" _ h') by (apply Hfilled; cbn; tauto).
  rewrite (set_if_absent_present "accept" _ h') by (apply Hfilled; cbn; tauto).
  rewrite (set_if_absent_present "accept-language" _ h') by (apply Hfilled; cbn; tauto).
  rewrite (set_if_absent_present "accept-encoding" _ h') by (apply Hfilled; cbn; tauto).
  assert (Hval : forall n v, In (n, v) forced_headers -> get_all h' n = [v]).
  { intros n v Hn. unfold h'. rewrite get_all_stealth.
    cbn in Hn. repeat destruct Hn as [[= <- <-] | Hn]; try destruct Hn.
    all: closed_names; reflexivity. }
  rewrite (set_same h' "dnt") by (apply Hval; cbn; tauto).
  rewrite (set_same h' "connection") by (apply Hval; cbn; tauto).
  rewrite (set_same h' "upgrade-insecure-requests") by (apply Hval; cbn; tauto).
  reflexivity.
Qed.

(** The value that [security_headers] gives to a header name. *)
Lemma get_all_security h name :
  get_all (_add_security_headers h) name =
  match List.find (fun kv => same_name name kv.1) security_headers with
  | Some kv => [kv.2]
  | None => get_all h name
  end.
Proof.
  unfold _add_security_headers. cbn [fold_left security_headers fst snd List.find].
  rewrite !get_all_set.
  repeat match goal with
         | |- context [same_name name ?a] =>
             let E := fresh "E" in
             destruct (same_name name a) eqn:E;
             [ repeat match goal with
                      | |- context [same_name name ?b] =>
                          lazymatch b with
                          | a => fail
                          | _ => rewrite (same_name_trans_l name a b E);
                                 change (same_name a b) with false
                          end
                      end; reflexivity | ]
         end.
  reflexivity.
Qed.

(** X16. After [_add_security_headers] each of the five security headers
    has exactly one value, the fixed one, whatever the server sent under
    that name and however often; every other header has the values it had.
    Run a second time it changes nothing. *)
Theorem security_headers_forced (h : Headers.t) :
  (forall name value,
     In (name, value) security_headers ->
     forall spelling, same_name spelling name = true ->
                      get_all (_add_security_headers h) spelling = [value]) /\
  (forall name,
     (forall kv, In kv security_headers -> same_name name kv.1 = false) ->
     get_all (_add_security_headers h) name = get_all h name) /\
  _add_security_headers (_add_security_headers h) = _add_security_headers h.
Proof.
  split; [|split].
  - intros name value Hin spelling Hs.
    rewrite (get_all_same_name _ _ _ Hs), get_all_security.
    cbn in Hin. repeat destruct Hin as [[= <- <-] | Hin]; try reflexivity.
    destruct Hin.
  - intros name Hno. rewrite get_all_security.
    assert (Hnone : List.find (fun kv => same_name name kv.1) security_headers = None).
    { induction security_headers as [|kv l IH]; [reflexivity|].
      cbn [List.find]. rewrite (Hno kv (or_introl eq_refl)).
      apply IH. intros kv' Hkv'. apply Hno. now right. }
    now rewrite Hnone.
  - set (h' := _add_security_headers h).
    unfold _add_security_headers at 1.
    cbn [fold_left security_headers fst snd].
    assert (Hval : forall n v, In (n, v) security_headers -> get_all h' n = [v]).
    { intros n v Hn. unfold h'. rewrite get_all_security.
      cbn in Hn. repeat destruct Hn as [[= <- <-] | Hn]; try destruct Hn.
      all: reflexivity. }
    rewrite (set_same h' "X-Content-Type-Options") by (apply Hval; cbn; tauto).
    rewrite (set_same h' "X-Frame-Options") by (apply Hval; cbn; tauto).
    rewrite (set_same h' "X-XSS-Protection") by (apply Hval; cbn; tauto).
    rewrite (set_same h' "Referrer-Policy") by (apply Hval; cbn; tauto).
    rewrite (set_same h' "Permissions-Policy") by (apply Hval; cbn; tauto).
    reflexivity.
Qed.

End HeaderHookFacts.

(** * Properties of the network monitor *)

Section MonitorFacts.
Local Open Scope list_scope.
Implicit Types (m : NetworkMonitor) (c : Conn.t) (conns : gmap string Conn.t).

Lemma count_completed_cons c cs :
  count_completed (c :: cs) =
  (if Conn.completed c then 1 else 0) + count_completed cs.
Proof.
  unfold count_completed. cbn [List.filter].
  destruct (Conn.completed c); cbn [length]; lia.
Qed.

Lemma count_bytes_cons c cs :
  count_bytes (c :: cs) = default 0 (Conn.response_size c) + count_bytes cs.
Proof. reflexivity. Qed.

Lemma count_completed_perm cs cs' :
  cs ≡ₚ cs' -> count_completed cs = count_completed cs'.
Proof.
  induction 1 as [|c l l' _ IH|c c' l|l l' l'' _ IH1 _ IH2].
  - reflexivity.
  - now rewrite !count_completed_cons, IH.
  - rewrite !count_completed_cons. lia.
  - congruence.
Qed.

Lemma count_bytes_perm cs cs' :
  cs ≡ₚ cs' -> count_bytes cs = count_bytes cs'.
Proof.
  induction 1 as [|c l l' _ IH|c c' l|l l' l'' _ IH1 _ IH2].
  - reflexivity.
  - now rewrite !count_bytes_cons, IH.
  - rewrite !count_bytes_cons. lia.
  - congruence.
Qed.

Lemma table_values_insert_None conns key c :
  conns !! key = None -> table_values (<[key := c]> conns) ≡ₚ c :: table_values conns.
Proof.
  intros H. unfold table_values. now rewrite (map_to_list_insert _ _ _ H).
Qed.

Lemma table_values_insert_Some conns key c0 c :
  conns !! key = Some c0 ->
  c0 :: table_values (<[key := c]> conns) ≡ₚ c :: table_values conns.
Proof.
  intros H. unfold table_values.
  rewrite <- (map_to_list_delete _ _ _ H), <- (insert_delete_eq conns).
  rewrite (map_to_list_insert (delete key conns) key c) by apply lookup_delete_eq.
  cbn [fmap list_fmap snd]. apply perm_swap.
Qed.

(** The counts after an entry of the table is written. *)
Lemma counts_insert conns key c :
  Z.of_nat (size (<[key := c]> conns)) =
    Z.of_nat (size conns) + match conns !! key with Some _ => 0 | None => 1 end /\
  count_completed (table_values (<[key := c]> conns)) =
    count_completed (table_values conns) + (if Conn.completed c then 1 else 0)
    - match conns !! key with
      | Some c0 => if Conn.completed c0 then 1 else 0
      | None => 0
      end /\
  count_bytes (table_values (<[key := c]> conns)) =
    count_bytes (table_values conns) + default 0 (Conn.response_size c)
    - match conns !! key with
      | Some c0 => default 0 (Conn.response_size c0)
      | None => 0
      end.
Proof.
  rewrite map_size_insert. destruct (conns !! key) as [c0|] eqn:E.
  - pose proof (table_values_insert_Some conns key c0 c E) as Hp.
    pose proof (count_completed_perm _ _ Hp) as H1.
    pose proof (count_bytes_perm _ _ Hp) as H2.
    rewrite !count_completed_cons in H1. rewrite !count_bytes_cons in H2.
    cbn [id]. repeat split; lia.
  - pose proof (table_values_insert_None conns key c E) as Hp.
    rewrite (count_completed_perm _ _ Hp), (count_bytes_perm _ _ Hp).
    rewrite count_completed_cons, count_bytes_cons. repeat split; lia.
Qed.

Lemma get_stats_counts m now :
  NetStats.total_requests (NetworkMonitor_get_stats m now) =
    Z.of_nat (size (connections m)) /\
  NetStats.completed_requests (NetworkMonitor_get_stats m now) =
    count_completed (table_values (connections m)) /\
  NetStats.total_bytes_transferred (NetworkMonitor_get_stats m now) =
    count_bytes (table_values (connections m)).
Proof. repeat split. Qed.

(** What [track_response] leaves in the monitor for an identifier that
    it holds. *)
Lemma track_response_known m request_id c (status_code response_size now : Z) :
  connections m !! request_id = Some c ->
  let m' := track_response m request_id status_code response_size now in
  let times := response_times m ++ [now - Conn.start_time c] in
  connections m' =
    <[request_id := Conn.mk (Conn.url c) (Conn.method c) (Conn.start_time c)
                      (Conn.bytes_sent c) (Conn.bytes_received c) "completed"
                      (Some status_code) (Some response_size)
                      (Some (now - Conn.start_time c))]> (connections m) /\
  response_times m' =
    (if (1000 <? length times)%nat then last_1000 times else times) /\
  start_time m' = start_time m.
Proof. intros H. unfold track_response. rewrite H. repeat split. Qed.

Lemma last_of_window (times : list Z) (x : Z) :
  last (if (1000 <? length (times ++ [x]))%nat
        then last_1000 (times ++ [x]) else times ++ [x]) = Some x.
Proof.
  destruct (1000 <? length (times ++ [x]))%nat eqn:E; [|apply last_snoc].
  unfold last_1000. apply Nat.ltb_lt in E. rewrite length_app in *. cbn [length] in *.
  rewrite drop_app_le by lia. apply last_snoc.
Qed.

(** X17. A request tracked under an identifier that the monitor does not
    hold, and then its response: the statistics count one more request,
    one more completed request and the size of the response more bytes,
    and the newest response time is the time between the two clock
    readings. *)
Theorem tracked_response_is_counted
    m (request_id url method_ : string) (status_code response_size t1 t2 now : Z) :
  connections m !! request_id = None ->
  let m' := track_response (track_request m request_id url method_ t1)
                           request_id status_code response_size t2 in
  let s := NetworkMonitor_get_stats m now in
  let s' := NetworkMonitor_get_stats m' now in
  NetStats.total_requests s' = NetStats.total_requests s + 1 /\
  NetStats.completed_requests s' = NetStats.completed_requests s + 1 /\
  NetStats.total_bytes_transferred s' =
    NetStats.total_bytes_transferred s + response_size /\
  last (response_times m') = Some (t2 - t1).
Proof.
  intros Hnew m' s s'.
  destruct (get_stats_counts m now) as (E1 & E2 & E3).
  destruct (get_stats_counts m' now) as (E1' & E2' & E3').
  fold s in E1, E2, E3. fold s' in E1', E2', E3'.
  rewrite E1, E2, E3, E1', E2', E3'. clear E1 E2 E3 E1' E2' E3' s s'.
  set (pending := Conn.mk url method_ t1 0 0 "pending" None None None).
  set (m1 := track_request m request_id url method_ t1) in *.
  assert (H1 : connections m1 !! request_id = Some pending) by apply lookup_insert_eq.
  destruct (track_response_known m1 request_id pending status_code response_size t2 H1)
    as (Hc & Ht & _).
  fold m' in Hc, Ht. rewrite Hc, Ht.
  change (connections m1) with (<[request_id := pending]> (connections m)).
  set (done := Conn.mk _ _ _ _ _ "completed" _ _ _).
  destruct (counts_insert (connections m) request_id pending) as (A1 & A2 & A3).
  destruct (counts_insert (<[request_id := pending]> (connections m)) request_id done)
    as (B1 & B2 & B3).
  rewrite lookup_insert_eq in B1, B2, B3. rewrite Hnew in A1, A2, A3.
  cbn in A2, A3, B2, B3.
  split; [lia|]. split; [lia|]. split; [lia|].
  apply last_of_window.
Qed.

(** X18. A request tracked under an identifier that the monitor already
    holds takes the place of the earlier one: the number of requests stays,
    a completed earlier request is no longer counted as completed, and its
    bytes leave the total; its response time stays among the samples. *)
Theorem reused_identifier_replaces_connection
    m (request_id url method_ : string) (t now : Z) c :
  connections m !! request_id = Some c ->
  let m' := track_request m request_id url method_ t in
  let s := NetworkMonitor_get_stats m now in
  let s' := NetworkMonitor_get_stats m' now in
  NetStats.total_requests s' = NetStats.total_requests s /\
  NetStats.completed_requests s' =
    NetStats.completed_requests s - (if Conn.completed c then 1 else 0) /\
  NetStats.total_bytes_transferred s' =
    NetStats.total_bytes_transferred s - default 0 (Conn.response_size c) /\
  response_times m' = response_times m.
Proof.
  intros Hold m' s s'.
  destruct (get_stats_counts m now) as (E1 & E2 & E3).
  destruct (get_stats_counts m' now) as (E1' & E2' & E3').
  fold s in E1, E2, E3. fold s' in E1', E2', E3'.
  rewrite E1, E2, E3, E1', E2', E3'. clear E1 E2 E3 E1' E2' E3' s s'.
  unfold m'. cbn [track_request connections response_times].
  set (pending := Conn.mk url method_ t 0 0 "pending" None None None).
  destruct (counts_insert (connections m) request_id pending) as (A1 & A2 & A3).
  rewrite Hold in A1, A2, A3. cbn in A2, A3.
  repeat split; lia.
Qed.

(** X19. In a monitor that [track_request] and [track_response] have made
    of a new one, there are never more than a thousand response times,
    and every connection is pending with none of the response keys, or
    completed with all three of them; [bytes_sent] and [bytes_received]
    are 0 in every connection, as nothing ever writes them. *)
Theorem monitor_invariant m :
  monitored m ->
  (length (response_times m) <= 1000)%nat /\
  forall request_id c,
    connections m !! request_id = Some c -> well_formed_connection c.
Proof.
  induction 1 as [now | m request_id url method_ now _ [IHt IHc]
                     | m request_id status_code response_size now _ [IHt IHc]].
  - split; [cbn; lia|]. intros request_id c H. cbn in H.
    now rewrite lookup_empty in H.
  - split; [exact IHt|]. intros key c. cbn [track_request connections].
    destruct (decide (key = request_id)) as [->|Hne].
    + rewrite lookup_insert_eq. intros [= <-].
      split; [reflexivity|]. split; [reflexivity|]. left. easy.
    + rewrite lookup_insert_ne by congruence. apply IHc.
  - destruct (connections m !! request_id) as [c0|] eqn:E.
    + destruct (track_response_known m request_id c0 status_code response_size now E)
        as (Hc & Ht & _).
      rewrite Hc, Ht. split.
      * destruct (1000 <? _)%nat eqn:El.
        -- unfold last_1000. rewrite length_drop. lia.
        -- apply Nat.ltb_ge in El. exact El.
      * intros key c. destruct (decide (key = request_id)) as [->|Hne].
        -- rewrite lookup_insert_eq. intros [= <-]. cbn.
           destruct (IHc _ _ E) as (Hs & Hr & _).
           split; [exact Hs|]. split; [exact Hr|]. right. eauto 6.
        -- rewrite lookup_insert_ne by congruence. apply IHc.
    + unfold track_response. rewrite E. split; assumption.
Qed.

(** X20. No connection ever leaves the table: an identifier that the
    monitor holds is held after [track_request] and after
    [track_response], whatever their arguments, so that the number of
    requests that [get_stats] reports never goes down. *)
Theorem connections_are_never_dropped
    m (key request_id url method_ : string) (status_code response_size t now : Z) :
  let m1 := track_request m request_id url method_ t in
  let m2 := track_response m request_id status_code response_size t in
  (is_Some (connections m !! key) ->
   is_Some (connections m1 !! key) /\ is_Some (connections m2 !! key)) /\
  NetStats.total_requests (NetworkMonitor_get_stats m now)
    <= NetStats.total_requests (NetworkMonitor_get_stats m1 now) /\
  NetStats.total_requests (NetworkMonitor_get_stats m now)
    = NetStats.total_requests (NetworkMonitor_get_stats m2 now).
Proof.
  intros m1 m2.
  assert (H2 : forall k, is_Some (connections m !! k) -> is_Some (connections m2 !! k)).
  { intros k Hk. unfold m2, track_response.
    destruct (connections m !! request_id) as [c0|] eqn:E; [|exact Hk].
    cbn [connections]. destruct (decide (k = request_id)) as [->|Hne].
    - rewrite lookup_insert_eq. eauto.
    - now rewrite lookup_insert_ne by congruence. }
  split; [|split].
  - intros Hk. split; [|now apply H2].
    unfold m1. cbn [track_request connections].
    destruct (decide (key = request_id)) as [->|Hne].
    + rewrite lookup_insert_eq. eauto.
    + now rewrite lookup_insert_ne by congruence.
  - cbn. rewrite map_size_insert. destruct (connections m !! request_id); cbn; lia.
  - unfold m2, track_response.
    destruct (connections m !! request_id) as [c0|] eqn:E; [|reflexivity].
    cbn. rewrite map_size_insert_Some by (rewrite E; eauto). reflexivity.
Qed.

(** X21. The response times are a window of the last thousand responses:
    a response for a tracked request adds its time at the end, and once
    the list holds a thousand times the oldest one is dropped for it. *)
Theorem response_times_window
    m (request_id : string) c (status_code response_size now : Z) :
  connections m !! request_id = Some c ->
  (length (response_times m) <= 1000)%nat ->
  response_times (track_response m request_id status_code response_size now) =
  (if (length (response_times m) <? 1000)%nat then response_times m
   else drop 1 (response_times m)) ++ [now - Conn.start_time c].
Proof.
  intros Hc Hl.
  destruct (track_response_known m request_id c status_code response_size now Hc)
    as (_ & -> & _).
  rewrite length_app. cbn [length].
  destruct (Nat.ltb_spec (length (response_times m)) 1000) as [Hlt|Hge].
  - destruct (Nat.ltb_spec 1000 (length (response_times m) + 1)); [lia | reflexivity].
  - destruct (Nat.ltb_spec 1000 (length (response_times m) + 1)); [|lia].
    unfold last_1000. rewrite length_app. cbn [length].
    replace (length (response_times m) + 1 - 1000)%nat with 1%nat by lia.
    rewrite drop_app_le by lia. reflexivity.
Qed.

End MonitorFacts.

(** * Properties of the request hook *)

Section AddonFacts.

Context `{Lib : PyLib} `{Http : HttpLib}.
Implicit Types (a : OblivionFilterAddon) (flow : HTTPFlow) (e : FilterEngine).
Local Open Scope list_scope.


(** What a request leaves of the attributes of the addon. *)
Lemma request_attributes a flow t0 t1 t2 :
  let a' := (request a flow t0 t1 t2).1.2 in
  total_requests a' = total_requests a + 1 /\
  (blocked_requests a' = blocked_requests a \/
   blocked_requests a' = blocked_requests a + 1) /\
  network_monitor a' =
    track_request (network_monitor a) (flow_id flow) (pretty_url (request_ flow))
                  (req_method (request_ flow)) t0 /\
  content_processor a' = content_processor a /\
  (reachable (filter_engine a) -> reachable (filter_engine a')).
Proof.
  unfold request.
  destruct (should_block _ _ _ _ _ _ _) as [[[[] rule] e']|] eqn:E; cbn.
  all: repeat split; auto.
  all: intros Hr; eapply reach_should_block; eauto.
Qed.

Lemma serving_invariant a :
  serving a ->
  0 <= blocked_requests a <= total_requests a /\
  Z.of_nat (size (connections (network_monitor a))) <= total_requests a /\
  reachable (filter_engine a) /\
  monitored (network_monitor a).
Proof.
  induction 1 as [e cp now He | a flow t0 t1 t2 _ (Hb & Hs & He & Hm)
                    | a request_id status_code response_size now _ (Hb & Hs & He & Hm)].
  - cbn. rewrite map_size_empty. repeat split; try lia; [exact He | constructor].
  - destruct (request_attributes a flow t0 t1 t2) as (Ht & Hbl & Hmon & _ & Hre).
    cbn zeta in *. rewrite Ht, Hmon. split; [lia|]. split; [|split].
    + cbn [track_request connections]. rewrite map_size_insert.
      destruct (connections (network_monitor a) !! flow_id flow); cbn; lia.
    + now apply Hre.
    + now constructor.
  - cbn [response_tracked blocked_requests total_requests filter_engine network_monitor].
    split; [exact Hb|]. split; [|split; [exact He | now constructor]].
    unfold track_response.
    destruct (connections (network_monitor a) !! request_id) as [c0|] eqn:E; [|exact Hs].
    cbn [connections]. rewrite map_size_insert_Some by (rewrite E; eauto). exact Hs.
Qed.

(** X22. Whatever requests and responses the addon has handled, the
    blocked requests are at most the requests, the monitor holds at most as
    many connections as there were requests, and the engine is one that
    the constructor, [add_rule], [load_config] and [should_block] make. *)
Theorem addon_counters_invariant a :
  serving a ->
  0 <= blocked_requests a <= total_requests a /\
  (forall now,
     NetStats.total_requests (NetworkMonitor_get_stats (network_monitor a) now)
     <= total_requests a) /\
  reachable (filter_engine a) /\
  monitored (network_monitor a).
Proof.
  intros Hs. destruct (serving_invariant a Hs) as (Hb & Hc & He & Hm).
  split; [exact Hb|]. split; [intros now; exact Hc|]. split; assumption.
Qed.

(** X23. Whatever requests and responses the addon has handled,
    [OblivionProxy.get_stats] computes its block rate without a
    [ZeroDivisionError], and the rate is a fraction between 0 and 1. *)
Theorem block_rate_is_a_fraction a :
  serving a ->
  exists q, block_rate a = Some q /\ (0 <= q)%Q /\ (q <= 1)%Q.
Proof.
  intros Hs. destruct (serving_invariant a Hs) as ([Hb0 Hbt] & _).
  unfold block_rate, py_div.
  destruct (Z.ltb_spec 0 (total_requests a)) as [Hpos|Hz].
  - destruct (Z.eqb_spec (total_requests a) 0) as [H0|_]; [lia|].
    eexists. split; [reflexivity|]. split.
    + apply Qle_shift_div_l; [now rewrite <- (Zlt_Qlt 0) | ].
      rewrite Qmult_0_l. now rewrite <- (Zle_Qle 0).
    + apply Qle_shift_div_r; [now rewrite <- (Zlt_Qlt 0) | ].
      rewrite Qmult_1_l. now rewrite <- Zle_Qle.
  - exists 0%Q. split; [reflexivity|]. split; [apply Qle_refl | discriminate].
Qed.


(** X25. A request for a host of the blacklist that is not in the
    whitelist, with no fresh verdict in the cache, is answered by the
    proxy: the flow gets the 403 response, its request keeps its headers
    as they came (no stealth headers), the request is counted as blocked
    and the verdict is cached. *)
Theorem blacklisted_request_answered_403
    a flow (t_track t_check t_store : Z) parsed :
  let url := pretty_url (request_ flow) in
  let key := cache_key (req_method (request_ flow)) url in
  urlparse url = Some parsed ->
  cache_fresh (filter_engine a) key t_check = None ->
  str_lower (urllib.netloc parsed) ∉ whitelist_domains (filter_engine a) ->
  str_lower (urllib.netloc parsed) ∈ blacklist_domains (filter_engine a) ->
  let res := request a flow t_track t_check t_store in
  res.1.1 = Returned /\
  response_ res.2 =
    Some (Response_make 403 blocked_body [("Content-Type", "text/plain")]) /\
  request_ res.2 = request_ flow /\
  blocked_requests res.1.2 = blocked_requests a + 1 /\
  cache (filter_engine res.1.2) !! key = Some true.
Proof.
  intros url key Hp Hc Hw Hb. cbn zeta. unfold request.
  rewrite (should_block_blacklisted _ _ _ _ _ _ _ _ Hp Hc Hw Hb).
  cbn. repeat split. apply lookup_insert_eq.
Qed.

End AddonFacts.

(** * The headers that the engine is given *)

Section HeadersDictFacts.
Import Headers HeadersFacts.
Context `{Http : HttpLib}.
Local Open Scope list_scope.

Lemma existsb_eqb_In (x : string) (l : list string) :
  existsb (String.eqb x) l = true <-> In x l.
Proof.
  rewrite existsb_exists. split.
  - intros (y & Hy & ->%String.eqb_eq). exact Hy.
  - intros H. exists x. split; [exact H | apply String.eqb_refl].
Qed.

Lemma header_keys_spec h seen key :
  In key (header_keys h seen) <->
  exists f, first_field h key = Some f /\ f.1 = key /\ ~ In (Str.lower key) seen.
Proof.
  revert seen. induction h as [|f r IH]; intros seen.
  - cbn. split; [tauto | intros (f & [=] & _)].
  - unfold first_field in *. cbn [header_keys List.find].
    destruct (existsb (String.eqb (Str.lower f.1)) seen) eqn:Es.
    + apply existsb_eqb_In in Es. rewrite IH.
      destruct (same_name f.1 key) eqn:En; [|reflexivity].
      apply same_name_spec in En. split.
      * intros (f' & _ & _ & Hns). rewrite <- En in Hns. contradiction.
      * intros (f' & _ & _ & Hns). rewrite <- En in Hns. contradiction.
    + assert (Hns : ~ In (Str.lower f.1) seen).
      { intros Hin. apply existsb_eqb_In in Hin. congruence. }
      cbn [In]. rewrite IH. destruct (same_name f.1 key) eqn:En.
      * pose proof En as El. apply same_name_spec in El. split.
        -- intros [<- | (f' & _ & _ & Hn')].
           ++ exists f. auto.
           ++ exfalso. apply Hn'. left. exact El.
        -- intros (f' & [= <-] & Hk & _). now left.
      * assert (Hl : Str.lower f.1 <> Str.lower key).
        { intros Hl. apply same_name_spec in Hl. congruence. }
        split.
        -- intros [<- | (f' & Hf & Hk & Hn')].
           ++ exfalso. now apply Hl.
           ++ exists f'. split; [exact Hf|]. split; [exact Hk|].
              intros Hin. apply Hn'. now right.
        -- intros (f' & Hf & Hk & Hn'). right. exists f'.
           split; [exact Hf|]. split; [exact Hk|].
           intros [Hin|Hin]; [now apply Hl | now apply Hn'].
Qed.

Lemma fold_insert_lookup (value : string -> string) (keys : list string)
    (d : gmap string string) (key : string) :
  fold_left (fun d k => <[k := value k]> d) keys d !! key =
  if bool_decide (key ∈ keys) then Some (value key) else d !! key.
Proof.
  revert d. induction keys as [|k keys IH]; intros d; [reflexivity|].
  cbn [fold_left]. rewrite IH.
  destruct (bool_decide (key ∈ keys)) eqn:E1.
  - apply bool_decide_eq_true in E1.
    rewrite bool_decide_eq_true_2 by (apply elem_of_cons; now right). reflexivity.
  - apply bool_decide_eq_false in E1.
    destruct (decide (k = key)) as [->|Hne].
    + rewrite bool_decide_eq_true_2 by (apply elem_of_cons; now left). apply lookup_insert_eq.
    + rewrite bool_decide_eq_false_2
        by (intros [?|?]%elem_of_cons; congruence).
      now apply lookup_insert_ne.
Qed.

(** What [dict(headers)] holds under a key. *)
Lemma headers_dict_lookup (h : Headers.t) (key : string) :
  headers_dict h !! key =
  match first_field h key with
  | Some f => if String.eqb f.1 key
              then Some (join_comma (Headers.get_all h key)) else None
  | None => None
  end.
Proof.
  unfold headers_dict. rewrite fold_insert_lookup, lookup_empty.
  destruct (bool_decide (key ∈ header_keys h [])) eqn:E.
  - apply bool_decide_eq_true, list_elem_of_In, header_keys_spec in E
      as (f & -> & Hk & _).
    now rewrite Hk, String.eqb_refl.
  - apply bool_decide_eq_false in E. destruct (first_field h key) as [f|] eqn:Ef;
      [|reflexivity].
    destruct (String.eqb_spec f.1 key) as [Hk|Hk]; [|reflexivity].
    exfalso. apply E, list_elem_of_In, header_keys_spec. exists f. cbn. auto.
Qed.

(** X26. The dictionary of headers that the request hook gives to the
    engine is looked up by spelling: it holds a value under [key] only if
    the first field of that name, letter case apart, is spelled [key], and
    then the values of all fields of the name joined by a comma and a
    space. In particular the content type that the engine is given is empty
    unless the first content-type field of the request is spelled in lower
    case. *)
Theorem headers_dict_is_looked_up_by_spelling (h : Headers.t) (key : string) :
  headers_dict h !! key =
    match first_field h key with
    | Some f => if String.eqb f.1 key
                then Some (join_comma (Headers.get_all h key)) else None
    | None => None
    end /\
  forall flow : HTTPFlow,
    req_headers (request_ flow) = h ->
    request_content_type flow =
      match first_field h "content-type" with
      | Some f => if String.eqb f.1 "content-type"
                  then join_comma (Headers.get_all h "content-type") else ""
      | None => ""
      end.
Proof.
  split; [apply headers_dict_lookup|].
  intros flow <-. unfold request_content_type. rewrite headers_dict_lookup.
  destruct (first_field _ _) as [f|]; [|reflexivity].
  now destruct (String.eqb f.1 "content-type").
Qed.

End HeadersDictFacts.

(** * The added properties on concrete data *)

Section MoreConcrete.

Import Examples MoreExamples.
#[local] Existing Instance PyRef.lib.
#[local] Existing Instance HttpRef.lib.
Local Open Scope list_scope.

Lemma unmatched_rule_is_inert_witness :
  returned (should_block (add_rule disabled_rule (FilterEngine_init None))
              ad_url "GET" None None 0 0)
  = returned (should_block (FilterEngine_init None) ad_url "GET" None None 0 0).
Proof. apply unmatched_rule_is_inert. left. reflexivity. Defined.

Lemma indices_are_views_of_rule_list_witness :
  let e := FilterEngine_init None in
  (forall k, default [] (domain_rules e !! k) = List.filter (has_domain k) (rules e)) /\
  (forall k, default [] (path_rules e !! k) = List.filter (has_path k) (rules e)) /\
  regex_rules e = flat_map compiled (rules e).
Proof. intros e. apply (indices_are_views_of_rule_list e). apply reach_init. Defined.

Lemma should_block_agrees_with_scan_witness :
  let e := FilterEngine_init (Some (Some cfg_allow)) in
  let parsed := urllib.mkParseResult "http" "Ads.Example.com" "/banner" "" "" "" in
  returned (should_block e ad_url "GET" None None 0 0)
  = Some (decide_by_scan (rules e) (whitelist_domains e) (blacklist_domains e)
            parsed ad_url "GET" None None).
Proof.
  intros e parsed. apply (should_block_agrees_with_scan e ad_url "GET" None None 0 0 parsed).
  - apply reach_init.
  - reflexivity.
  - vm_compute. reflexivity.
Defined.

Lemma should_block_touches_one_cache_entry_witness :
  let e := FilterEngine_init (Some (Some cfg_deny)) in
  let e' := _update_cache (cache_key "GET" ad_url) true 0 e in
  rules e' = rules e /\ domain_rules e' = domain_rules e /\
  path_rules e' = path_rules e /\ regex_rules e' = regex_rules e /\
  whitelist_domains e' = whitelist_domains e /\
  blacklist_domains e' = blacklist_domains e /\
  cache_ttl e' = cache_ttl e /\
  cache e' !! cache_key "GET" ad_url = Some true /\
  (forall key, key <> cache_key "GET" ad_url ->
     cache e' !! key = cache e !! key /\
     cache_expiry e' !! key = cache_expiry e !! key).
Proof.
  intros e e'.
  apply (should_block_touches_one_cache_entry e ad_url "GET" None None 0 0 true None e').
  reflexivity.
Defined.

Lemma cache_keys_paired_and_kept_witness :
  let e := _update_cache (cache_key "GET" ad_url) true 0
             (FilterEngine_init (Some (Some cfg_deny))) in
  let key := cache_key "GET" ad_url in
  cache e !! key = Some true /\
  cache_expiry e !! key = Some 300 /\
  is_Some (cache (add_rule banner_rule e) !! key) /\
  is_Some (cache (load_config (Some cfg_allow) e) !! key) /\
  is_Some (cache (_update_cache (cache_key "GET" "http://example.org/") false 7 e) !! key).
Proof.
  intros e key.
  assert (Hreach : reachable e).
  { apply (reach_should_block (FilterEngine_init (Some (Some cfg_deny)))
             ad_url "GET" None None 0 0 (true, None) e);
      [apply reach_init | reflexivity]. }
  destruct (cache_keys_paired_and_kept e Hreach) as [Hpair Hkept].
  assert (Hk : cache e !! key = Some true) by (vm_compute; reflexivity).
  destruct (Hkept key true Hk) as (Hadd & Hload & Hcall).
  split; [exact Hk|]. split; [vm_compute; reflexivity|].
  split; [apply Hadd|]. split; [apply Hload|].
  apply (Hcall "http://example.org/" "GET" None None 7 7 (false, None)).
  reflexivity.
Defined.

Lemma reported_rule_is_a_matching_rule_witness :
  let e := add_rule banner_rule FilterEngine_new in
  cache_fresh e (cache_key "GET" ad_url) 0 = None /\
  enabled banner_rule = true /\
  _match_rule banner_rule ad_url "GET" None None = true /\
  true = is_block banner_rule /\
  (reachable e -> banner_rule ∈ rules e).
Proof.
  intros e.
  apply (reported_rule_is_a_matching_rule e ad_url "GET" None None 0 0 true banner_rule
           (_update_cache (cache_key "GET" ad_url) true 0 e)).
  reflexivity.
Defined.

Lemma stale_entry_is_ignored_witness :
  let e := _update_cache (cache_key "GET" ad_url) true 0
             (FilterEngine_init (Some (Some cfg_empty))) in
  returned (should_block e ad_url "GET" None None 300 300)
  = returned (should_block (without_cache e) ad_url "GET" None None 300 300).
Proof.
  intros e. apply (stale_entry_is_ignored e ad_url "GET" None None 300 300).
  right. apply Z.leb_le. vm_compute. reflexivity.
Defined.

Lemma method_case_matters_to_the_cache_only_witness :
  let e := FilterEngine_init None in
  (cache_fresh e (cache_key "GET" ad_url) 0 = None ->
   cache_fresh e (cache_key "get" ad_url) 0 = None ->
   returned (should_block e ad_url "GET" None None 0 0)
   = returned (should_block e ad_url "get" None None 0 0)) /\
  (cache_key "GET" ad_url = cache_key "get" ad_url -> "GET" = "get").
Proof.
  intros e. apply (method_case_matters_to_the_cache_only e ad_url "GET" "get").
  reflexivity.
Defined.

Lemma process_html_only_inserts_witness :
  exists a b s c d t out,
    Text.of_string page_text = a ++ b /\
    a ++ s ++ b = c ++ d /\
    (s = [] \/ s = style_tag ContentProcessor_new) /\
    (t = [] \/ t = script_tag ContentProcessor_new) /\
    process_html ContentProcessor_new page "http://example.com/" = Some out /\
    Utf8.decode out = Some (c ++ t ++ d).
Proof.
  apply process_html_only_inserts. vm_compute. reflexivity.
Defined.

Lemma body_without_markup_gets_script_appended_witness :
  exists tb,
    Utf8.encode (script_tag ContentProcessor_new) = Some tb /\
    (1 <= length tb)%nat /\
    process_html ContentProcessor_new json_body "http://example.com/api"
    = Some (json_body ++ tb).
Proof.
  apply (body_without_markup_gets_script_appended ContentProcessor_new json_body
           "http://example.com/api" (Text.of_string "{}"));
    vm_compute; reflexivity.
Defined.

Lemma style_falls_back_to_first_open_body_witness :
  exists a b out,
    first_at open_body (Text.of_string headless_page_text) a b /\
    process_html ContentProcessor_new headless_page "http://example.com/" = Some out /\
    Utf8.decode out =
      Some (inject_script ContentProcessor_new
              (a ++ style_tag ContentProcessor_new ++ open_body ++ b)).
Proof.
  apply style_falls_back_to_first_open_body; vm_compute; reflexivity.
Defined.

Lemma tracked_response_is_counted_witness :
  let m := NetworkMonitor_new 0 in
  let m' := track_response (track_request m "140031" "http://example.com/" "GET" 1)
                           "140031" 200 512 4 in
  let s := NetworkMonitor_get_stats m 10 in
  let s' := NetworkMonitor_get_stats m' 10 in
  NetStats.total_requests s' = NetStats.total_requests s + 1 /\
  NetStats.completed_requests s' = NetStats.completed_requests s + 1 /\
  NetStats.total_bytes_transferred s' = NetStats.total_bytes_transferred s + 512 /\
  last (response_times m') = Some (4 - 1).
Proof.
  apply (tracked_response_is_counted (NetworkMonitor_new 0)). reflexivity.
Defined.

Lemma reused_identifier_replaces_connection_witness :
  let m := busy_monitor in
  let m' := track_request m "140031" "http://example.org/" "POST" 9 in
  let s := NetworkMonitor_get_stats m 10 in
  let s' := NetworkMonitor_get_stats m' 10 in
  NetStats.total_requests s' = NetStats.total_requests s /\
  NetStats.completed_requests s' =
    NetStats.completed_requests s
    - (if Conn.completed pending_connection then 1 else 0) /\
  NetStats.total_bytes_transferred s' =
    NetStats.total_bytes_transferred s
    - default 0 (Conn.response_size pending_connection) /\
  response_times m' = response_times m.
Proof.
  apply (reused_identifier_replaces_connection busy_monitor). vm_compute. reflexivity.
Defined.

Lemma monitor_invariant_witness :
  let m := track_response
             (track_request (NetworkMonitor_new 0) "140031" "http://example.com/" "GET" 1)
             "140031" 200 512 4 in
  (length (response_times m) <= 1000)%nat /\
  forall request_id c,
    connections m !! request_id = Some c -> well_formed_connection c.
Proof.
  intros m. apply (monitor_invariant m).
  apply monitored_response, monitored_request, monitored_new.
Defined.

Lemma response_times_window_witness :
  response_times (track_response busy_monitor "140031" 200 512 4) =
  (if (length (response_times busy_monitor) <? 1000)%nat
   then response_times busy_monitor
   else drop 1 (response_times busy_monitor)) ++ [4 - Conn.start_time pending_connection].
Proof.
  apply (response_times_window busy_monitor "140031" pending_connection).
  - vm_compute. reflexivity.
  - apply Nat.leb_le. vm_compute. reflexivity.
Defined.

Lemma addon_counters_invariant_witness :
  let a := (request denying_addon ad_flow 0 0 0).1.2 in
  0 <= blocked_requests a <= total_requests a /\
  (forall now,
     NetStats.total_requests (NetworkMonitor_get_stats (network_monitor a) now)
     <= total_requests a) /\
  reachable (filter_engine a) /\
  monitored (network_monitor a).
Proof.
  intros a. apply (addon_counters_invariant a).
  apply serving_request, serving_new, reach_init.
Defined.

Lemma block_rate_is_a_fraction_witness :
  let a0 := denying_addon in
  let a1 := (request a0 ad_flow 0 0 0).1.2 in
  block_rate a0 = Some 0%Q /\
  block_rate a1 = Some (1 # 1)%Q /\
  (exists q, block_rate a1 = Some q /\ (0 <= q)%Q /\ (q <= 1)%Q).
Proof.
  intros a0 a1. split; [reflexivity|]. split; [reflexivity|].
  apply (block_rate_is_a_fraction a1).
  apply serving_request, serving_new, reach_init.
Defined.

Lemma blacklisted_request_answered_403_witness :
  let res := request denying_addon ad_flow 0 0 0 in
  res.1.1 = Returned /\
  response_ res.2 =
    Some (Response_make 403 blocked_body [("Content-Type", "text/plain")]) /\
  request_ res.2 = request_ ad_flow /\
  blocked_requests res.1.2 = blocked_requests denying_addon + 1 /\
  cache (filter_engine res.1.2) !! cache_key "GET" ad_url = Some true.
Proof.
  apply (blacklisted_request_answered_403 denying_addon ad_flow 0 0 0
           (urllib.mkParseResult "http" "Ads.Example.com" "/banner" "" "" "")).
  - reflexivity.
  - vm_compute. reflexivity.
  - vm_compute. discriminate.
  - reflexivity.
Defined.

Lemma priority_and_description_are_inert_witness :
  verdict_of (should_block (add_rule banner_rule (FilterEngine_init None))
                ad_url "GET" None None 0 0)
  = verdict_of (should_block (add_rule urgent_banner_rule (FilterEngine_init None))
                  ad_url "GET" None None 5 5).
Proof.
  apply priority_and_description_are_inert.
  - apply reach_add_rule, reach_init.
  - apply reach_add_rule, reach_init.
  - repeat constructor.
  - reflexivity.
  - reflexivity.
  - vm_compute. reflexivity.
  - vm_compute. reflexivity.
Defined.

Lemma processor_without_rules_is_identity_witness :
  process_html (mkContentProcessor [] []) page "http://example.com/" = Some page.
Proof. apply processor_without_rules_is_identity; reflexivity. Defined.

End MoreConcrete.
